(** * Direct R2 sync of the moltbot gateway (src/gateway/sync-direct.ts)

    A shallow embedding of [syncToR2Direct], [restoreFromR2Direct],
    [getLastSyncDirect], [runWithRetry], [readFileFromContainer] and
    [listFilesInContainer], and of [isR2Mounted] and [mountR2Storage], which
    follow them in the file. The functions are asynchronous and effectful.
    Those of the sync are embedded in a state and exception monad over a
    world that holds the files of the sandbox, the objects of the R2 bucket,
    the clock, a script of the faults that the external calls to come will
    meet, and the trace of the calls made. Those of the mount are embedded
    in a state and exception monad over the journal of their calls, which a
    sandbox answers as a function of the journal. Part I holds the
    definitions: strings, Base64, the world, the sandbox and the bucket (the
    collaborators of the source), the source itself, and the notions that
    the statements use. Part II holds the lemmas and the theorems. *)

From stdpp Require Import gmap strings list fin_maps sorting pretty.
From Stdlib Require Import Strings.Ascii Strings.Byte NArith Lia.


(** * Part I: definitions *)

(** ** JavaScript string operations used by the source *)

Module JsString.

(** [s.startsWith(pre)] *)
Fixpoint startsWith (s pre : string) {struct pre} : bool :=
  match pre, s with
  | "", _ => true
  | String a pre', String b s' => if Ascii.eqb a b then startsWith s' pre' else false
  | String _ _, "" => false
  end.

(** [s.slice(n)] for [0 <= n] *)
Fixpoint slice (n : nat) (s : string) : string :=
  match n, s with
  | 0, _ => s
  | S n', String _ s' => slice n' s'
  | S _, "" => ""
  end.

(** [s.endsWith(suf)] *)
Definition endsWith (s suf : string) : bool :=
  if (String.length s <? String.length suf)%nat then false
  else String.eqb (slice (String.length s - String.length suf) s) suf.

(** [s.includes(pat)] *)
Fixpoint includes (s pat : string) : bool :=
  if startsWith s pat then true
  else match s with
       | "" => false
       | String _ s' => includes s' pat
       end.

(** [s.replace(pat, rep)] with a string pattern: only the first occurrence
    is replaced ([rep] holds no [$] pattern in the source). *)
Fixpoint replace (s pat rep : string) : string :=
  if startsWith s pat then rep +:+ slice (String.length pat) s
  else match s with
       | "" => ""
       | String c s' => String c (replace s' pat rep)
       end.

(** [s.trimStart()], [s.trimEnd()], [s.trim()] on ASCII white space *)
Fixpoint trimStart (s : string) : string :=
  match s with
  | "" => ""
  | String c s' => if Ascii.is_space c then trimStart s' else s
  end.

Fixpoint trimEnd (s : string) : string :=
  match s with
  | "" => ""
  | String c s' =>
      match trimEnd s' with
      | "" => if Ascii.is_space c then "" else String c ""
      | t => String c t
      end
  end.

Definition trim (s : string) : string := trimEnd (trimStart s).

(** [s.split(sep)] for a one-character separator *)
Fixpoint split (sep : ascii) (s : string) : list string :=
  match s with
  | "" => [""]
  | String c s' =>
      if Ascii.eqb c sep then "" :: split sep s'
      else match split sep s' with
           | h :: t => String c h :: t
           | [] => [String c ""]
           end
  end.

(** [l.join(sep)] *)
Fixpoint join (sep : string) (l : list string) : string :=
  match l with
  | [] => ""
  | [x] => x
  | x :: l' => x +:+ sep +:+ join sep l'
  end.

(** [s.substring(0, s.lastIndexOf('/'))]; the empty string when [s] holds
    no slash ([lastIndexOf] is -1 and [substring] clamps it to 0). *)
Fixpoint beforeLastSlash (s : string) : string :=
  match s with
  | "" => ""
  | String c s' => if includes s' "/" then String c (beforeLastSlash s') else ""
  end.

(** Truthiness of a string: [!s] holds exactly for the empty string. *)
Definition truthy (s : string) : bool :=
  match s with "" => false | _ => true end.

Definition lf : ascii := "010"%char.

End JsString.

(** ** Base64, as produced by [base64] and [btoa] and read by [atob] and
    [base64 -d] *)

Module Base64.

Definition alphabet : list ascii :=
  String.list_ascii_of_string
    "ABCDEFGHIJKLMNOPQRSTUVWXYZabcdefghijklmnopqrstuvwxyz0123456789+/".

Definition pad : ascii := "="%char.

Definition b64char (n : N) : ascii := nth (N.to_nat n) alphabet pad.

Fixpoint index_of (c : ascii) (l : list ascii) (i : N) : option N :=
  match l with
  | [] => None
  | x :: l' => if Ascii.eqb c x then Some i else index_of c l' (N.succ i)
  end.

Definition b64val (c : ascii) : option N := index_of c alphabet 0%N.

Definition byte_of (n : N) : byte := default "000"%byte (Byte.of_N n).

(** Three bytes become four characters; a tail of one or two bytes is
    padded with [=]. *)
Fixpoint encode (bs : list byte) : list ascii :=
  match bs with
  | [] => []
  | [a] =>
      let a := Byte.to_N a in
      [b64char (a / 4); b64char ((a mod 4) * 16); pad; pad]
  | [a; b] =>
      let a := Byte.to_N a in
      let b := Byte.to_N b in
      [b64char (a / 4); b64char ((a mod 4) * 16 + b / 16);
       b64char ((b mod 16) * 4); pad]
  | a :: b :: c :: rest =>
      let a := Byte.to_N a in
      let b := Byte.to_N b in
      let c := Byte.to_N c in
      b64char (a / 4) :: b64char ((a mod 4) * 16 + b / 16)
      :: b64char ((b mod 16) * 4 + c / 64) :: b64char (c mod 64)
      :: encode rest
  end%N.

(** Removal of one or two [=] at the very end. *)
Fixpoint strip_pad (cs : list ascii) : list ascii :=
  match cs with
  | [] => []
  | c :: cs' =>
      if Ascii.eqb c pad
      then match cs' with
           | [] => []
           | [d] => if Ascii.eqb d pad then [] else c :: strip_pad cs'
           | _ => c :: strip_pad cs'
           end
      else c :: strip_pad cs'
  end.

(** Four sextets become three bytes; left-over bits are dropped. *)
Fixpoint pack (vs : list N) : list byte :=
  match vs with
  | v1 :: v2 :: v3 :: v4 :: rest =>
      byte_of (v1 * 4 + v2 / 16) :: byte_of ((v2 mod 16) * 16 + v3 / 4)
      :: byte_of ((v3 mod 4) * 64 + v4) :: pack rest
  | [v1; v2; v3] =>
      [byte_of (v1 * 4 + v2 / 16); byte_of ((v2 mod 16) * 16 + v3 / 4)]
  | [v1; v2] => [byte_of (v1 * 4 + v2 / 16)]
  | _ => []
  end%N.

(** Forgiving decoding: white space is dropped, padding is removed when the
    length is a multiple of four, a length of 1 modulo 4 or a character
    outside the alphabet is an error. *)
Definition decode (cs : list ascii) : option (list byte) :=
  let cs := filter (λ c, Ascii.is_space c = false) cs in
  let cs := if (length cs mod 4 =? 0)%nat then strip_pad cs else cs in
  if (length cs mod 4 =? 1)%nat then None
  else pack <$> mapM b64val cs.

(** Output of the [base64] utility: lines of 76 characters, each ended by
    a line feed. *)
Fixpoint wrap (col : nat) (cs : list ascii) : list ascii :=
  match cs with
  | [] => match col with 0 => [] | _ => [JsString.lf] end
  | c :: cs' =>
      if (col =? 76)%nat then JsString.lf :: c :: wrap 1 cs'
      else c :: wrap (S col) cs'
  end.

Definition cli_encode (bs : list byte) : string :=
  String.string_of_list_ascii (wrap 0 (encode bs)).

(** [btoa(String.fromCharCode(...bytes))], for an array that the spread
    can take *)
Definition btoa (bs : list byte) : string := String.string_of_list_ascii (encode bs).

(** [atob(s)], [None] when it throws *)
Definition atob (s : string) : option (list byte) :=
  decode (String.list_ascii_of_string s).

End Base64.

(** ** The world of a call: sandbox, bucket, faults, clock and trace *)

Module World.

(** A value caught by a [catch]: an [Error] with its message, or any other
    value with its [String(...)] conversion. *)
Inductive thrown : Type :=
| JsError (message : string)
| JsValue (repr : string).

(** [err instanceof Error ? err.message : 'Unknown error'] *)
Definition error_message (err : thrown) : string :=
  match err with
  | JsError m => m
  | JsValue _ => "Unknown error"
  end.

(** [err instanceof Error ? err : new Error(String(err))] *)
Definition as_Error (err : thrown) : thrown :=
  match err with
  | JsError m => JsError m
  | JsValue r => JsError r
  end.

(** The message of an [Error] built by [as_Error]. *)
Definition message_of (err : thrown) : string :=
  match err with
  | JsError m => m
  | JsValue r => r
  end.

(** [String(err)], as in a template literal *)
Definition to_String (err : thrown) : string :=
  match err with
  | JsError "" => "Error"
  | JsError m => "Error: " +:+ m
  | JsValue r => r
  end.

(** The shell commands the source passes to [sandbox.startProcess]; the
    sandbox runs them on its file system as the command line reads, with
    every path taken literally. *)
Inductive Command : Type :=
| CmdBase64 (filePath : string)
| CmdFind (dirPath : string)
| CmdTestConfig
| CmdMkdir (parentDir : string)
| CmdWrite (base64Data containerPath : string).

Definition dq : string := String (ascii_of_nat 34) "".

Definition command_line (c : Command) : string :=
  match c with
  | CmdBase64 filePath =>
      "base64 " +:+ dq +:+ filePath +:+ dq +:+ " 2>/dev/null || echo "
      +:+ dq +:+ "FILE_NOT_FOUND" +:+ dq
  | CmdFind dirPath =>
      "find " +:+ dq +:+ dirPath +:+ dq +:+ " -type f 2>/dev/null | sort"
  | CmdTestConfig =>
      "test -f /root/.clawdbot/clawdbot.json && echo " +:+ dq +:+ "ok" +:+ dq
  | CmdMkdir parentDir => "mkdir -p " +:+ dq +:+ parentDir +:+ dq
  | CmdWrite base64Data containerPath =>
      "echo " +:+ dq +:+ base64Data +:+ dq +:+ " | base64 -d > "
      +:+ dq +:+ containerPath +:+ dq
  end.

(** Calls that leave the function: sandbox, bucket, timer and console. *)
Inductive Event : Type :=
| EvStartProcess (c : Command)
| EvWaitForProcess (timeoutMs : N)
| EvGetLogs
| EvBucketGet (key : string)
| EvBucketPut (key : string) (value : list byte)
| EvBucketList
| EvObjectText
| EvObjectArrayBuffer
| EvSleep (delayMs : N)
| EvConsoleLog (text : string)
| EvConsoleWarn (text : string).

Record World : Type := mkWorld {
  files : gmap string (list byte);
  objects : gmap string (list byte);
  faults : list (option thrown);
  clock : string;
  trace : list Event
}.

Definition log_event (ev : Event) (w : World) : World :=
  mkWorld (files w) (objects w) (faults w) (clock w) (ev :: trace w).

Definition set_faults (fl : list (option thrown)) (w : World) : World :=
  mkWorld (files w) (objects w) fl (clock w) (trace w).

Definition set_files (fs : gmap string (list byte)) (w : World) : World :=
  mkWorld fs (objects w) (faults w) (clock w) (trace w).

Definition set_objects (os : gmap string (list byte)) (w : World) : World :=
  mkWorld (files w) os (faults w) (clock w) (trace w).

(** Outcome of an awaited call: a value, or a rejection. *)
Inductive outcome (A : Type) : Type :=
| Returned (a : A)
| Threw (err : thrown).
Global Arguments Returned {A} a.
Global Arguments Threw {A} err.

Definition M (A : Type) : Type := World → outcome A * World.

Definition ret {A} (a : A) : M A := λ w, (Returned a, w).

Definition bind {A B} (m : M A) (k : A → M B) : M B := λ w,
  match m w with
  | (Returned a, w') => k a w'
  | (Threw err, w') => (Threw err, w')
  end.

Definition throw {A} (err : thrown) : M A := λ w, (Threw err, w).

(** [try { body } catch (err) { handler }] *)
Definition try_catch {A} (body : M A) (handler : thrown → M A) : M A := λ w,
  match body w with
  | (Returned a, w') => (Returned a, w')
  | (Threw err, w') => handler err w'
  end.

(** [for (const x of l) { body }] over the variables the body updates *)
Fixpoint for_of {A St} (l : list A) (body : A → St → M St) (s : St) : M St :=
  match l with
  | [] => ret s
  | x :: l' => bind (body x s) (for_of l' body)
  end.

(** An external call: it is logged, then the next entry of the fault script
    decides whether it rejects; an exhausted script means no fault. *)
Definition external {A} (ev : Event) (run : World → A * World) : M A := λ w,
  let w := log_event ev w in
  match faults w with
  | Some err :: rest => (Threw err, set_faults rest w)
  | None :: rest => let '(a, w') := run (set_faults rest w) in (Returned a, w')
  | [] => let '(a, w') := run w in (Returned a, w')
  end.

(** A call that cannot reject ([console.log], [setTimeout]). *)
Definition emit (ev : Event) : M unit := λ w, (Returned tt, log_event ev w).

End World.

Global Instance M_ret : MRet World.M := @World.ret.
Global Instance M_bind : MBind World.M := λ A B k m, World.bind m k.

(** ** The sandbox and the bucket

    The collaborators of the source, which are not part of it: the process
    interface of the sandbox ([startProcess], [getLogs]) and the R2 bucket
    binding ([put], [get], [list], [text], [arrayBuffer]). The sandbox is a
    flat map from the absolute paths of regular files to their bytes:
    directories are implicit, and [mkdir -p] has nothing to do. A process
    runs to its end when it is started. *)

Module Sandbox.
Import World JsString.

Record Process : Type := mkProcess { command : Command; output : string }.
Record Logs : Type := mkLogs { stdout : string }.

Definition nl : string := String lf "".

(** What [find "<dirPath>" -type f | sort] prints: the files below
    [dirPath], sorted, one per line. *)
Definition find_files (dirPath : string) (fs : gmap string (list byte)) : list string :=
  merge_sort String.le
    (filter (λ p, startsWith p dirPath = true) (map_to_list fs).*1).

Definition lines (l : list string) : string :=
  foldr (λ p acc, p +:+ nl +:+ acc) "" l.

(** Running a command: its standard output and its effect on the files.
    [base64] prints nothing for an empty file; a missing file makes it
    fail, so that [echo] prints the sentinel. [base64 -d] writes what it
    decodes from the text that [echo] prints, nothing if the text is not
    Base64. *)
Definition run_command (c : Command) (w : World) : Process * World :=
  match c with
  | CmdBase64 filePath =>
      match files w !! filePath with
      | Some bs => (mkProcess c (Base64.cli_encode bs), w)
      | None => (mkProcess c ("FILE_NOT_FOUND" +:+ nl), w)
      end
  | CmdFind dirPath => (mkProcess c (lines (find_files dirPath (files w))), w)
  | CmdTestConfig =>
      match files w !! "/root/.clawdbot/clawdbot.json" with
      | Some _ => (mkProcess c ("ok" +:+ nl), w)
      | None => (mkProcess c "", w)
      end
  | CmdMkdir _ => (mkProcess c "", w)
  | CmdWrite base64Data containerPath =>
      (mkProcess c "",
       set_files (<[containerPath := default [] (Base64.atob base64Data)]> (files w)) w)
  end.

Definition startProcess (c : Command) : M Process :=
  external (EvStartProcess c) (run_command c).

(** Modelled from the spec: [waitForProcess] of [./utils], which waits,
    up to a timeout, for a started process to finish. Processes finish at
    once here; the call may still reject. *)
Definition waitForProcess (proc : Process) (timeoutMs : N) : M unit :=
  external (EvWaitForProcess timeoutMs) (λ w, (tt, w)).

Definition getLogs (proc : Process) : M Logs :=
  external EvGetLogs (λ w, (mkLogs (output proc), w)).

End Sandbox.

Module Bucket.
Import World.

Record R2Object : Type := mkObject { key : string; body : list byte }.

Definition put (k : string) (value : list byte) : M unit :=
  external (EvBucketPut k value) (λ w, (tt, set_objects (<[k := value]> (objects w)) w)).

Definition get (k : string) : M (option R2Object) :=
  external (EvBucketGet k) (λ w, (mkObject k <$> objects w !! k, w)).

(** [list()]: the keys of all objects, in the store's lexicographic order
    (a listing that the store cuts short is not modelled) *)
Definition list_keys : M (list string) :=
  external EvBucketList (λ w, (merge_sort String.le (map_to_list (objects w)).*1, w)).

Definition text (obj : R2Object) : M string :=
  external EvObjectText (λ w, (String.string_of_list_byte (body obj), w)).

Definition arrayBuffer (obj : R2Object) : M (list byte) :=
  external EvObjectArrayBuffer (λ w, (body obj, w)).

End Bucket.

(** ** src/gateway/sync-direct.ts *)

Module SyncDirect.
Import World JsString Sandbox.

Record SyncResult : Type := mkSyncResult {
  success : bool;
  lastSync : option string;
  error : option string;
  details : option string;
  filesBackedUp : option nat
}.

Global Instance SyncResult_eq_dec : EqDecision SyncResult.
Proof. solve_decision. Defined.

(** [env.MOLTBOT_BUCKET]: the bucket binding, or undefined *)
Inductive R2Bucket : Type := TheBucket.
Record MoltbotEnv : Type := mkEnv { MOLTBOT_BUCKET : option R2Bucket }.

Definition BACKUP_PATHS : list string :=
  ["/root/.clawdbot/"; "/root/clawd/skills/"].

Definition EXCLUDE_SUFFIXES : list string := [".lock"; ".log"; ".tmp"].

(** The result of [readFileFromContainer]: [{ data, error? }] *)
Record ReadResult : Type := mkRead { data : list byte; read_error : option string }.

(** [atob] throws on a text that is not Base64; the error is caught by the
    [catch] of the function, as any other. *)

Definition readFileFromContainer (filePath : string) : M ReadResult :=
  try_catch
    (proc ← startProcess (CmdBase64 filePath);
     waitForProcess proc 10000%N;;
     logs ← getLogs proc;
     let output := trim (stdout logs) in
     if String.eqb output "FILE_NOT_FOUND" || negb (truthy output)
     then mret (mkRead [] (Some "File not found"))
     else
       match Base64.atob output with
       | Some bytes => mret (mkRead bytes None)
       | None => throw (JsError "Invalid character")
       end)
    (λ err, mret (mkRead [] (Some (error_message err)))).

Definition listFilesInContainer (dirPath : string) : M (list string) :=
  try_catch
    (proc ← startProcess (CmdFind dirPath);
     waitForProcess proc 15000%N;;
     logs ← getLogs proc;
     let output := trim (stdout logs) in
     if negb (truthy output) then mret []
     else mret (filter (λ f, (0 <? String.length f) = true) (split lf output)))
    (λ _, mret []).

(** The loop of [runWithRetry]: [remaining] attempts are left, [attempt]
    have been made, [lastError] is the last value caught. *)
Fixpoint retry_loop {T} (fn : M T) (delayMs : N)
    (remaining attempt : nat) (lastError : option thrown) : M T :=
  match remaining with
  | 0 => throw (default (JsValue "undefined") lastError)
  | S remaining' =>
      try_catch fn (λ err,
        let lastError := as_Error err in
        if negb (includes (message_of lastError) "Durable Object reset")
        then throw lastError
        else
          emit (EvConsoleLog ("DO reset on attempt " +:+ pretty (attempt + 1)
                              +:+ ", retrying in " +:+ pretty delayMs +:+ "ms..."));;
          emit (EvSleep delayMs);;
          retry_loop fn delayMs remaining' (S attempt) (Some lastError))
  end.

(** The test of the [catch] of [runWithRetry]: the message of the error
    includes the reset signature. *)
Definition transient (err : thrown) : bool :=
  includes (message_of (as_Error err)) "Durable Object reset".

(** The world after the log line and the delay that follow a transient
    failure of attempt number [attempt] (counted from 0). *)
Definition backoff (delayMs : N) (attempt : nat) (w : World) : World :=
  log_event (EvSleep delayMs)
    (log_event (EvConsoleLog ("DO reset on attempt " +:+ pretty (attempt + 1)
                              +:+ ", retrying in " +:+ pretty delayMs +:+ "ms..."))
       w).

(** [retried fn d a w le a' w' le']: from the world [w], the attempts
    number [a] to [a' - 1] of [fn] all fail with the transient signature;
    [w'] is the world after the last delay and [le'] the last error. *)
Inductive retried {T} (fn : M T) (delayMs : N)
    : nat → World → option thrown → nat → World → option thrown → Prop :=
| retried_none a w le : retried fn delayMs a w le a w le
| retried_next a w le err w1 a' w' le' :
    fn w = (Threw err, w1) →
    transient err = true →
    retried fn delayMs (S a) (backoff delayMs a w1) (Some (as_Error err)) a' w' le' →
    retried fn delayMs a w le a' w' le'.

Definition runWithRetry {T} (fn : M T) (maxRetries : nat) (delayMs : N) : M T :=
  retry_loop fn delayMs maxRetries 0 None.

(** The default arguments [maxRetries = 5], [delayMs = 3000] *)
Definition runWithRetry_default {T} (fn : M T) : M T := runWithRetry fn 5 3000%N.

Definition getLastSyncDirect (env : MoltbotEnv) : M (option string) :=
  match MOLTBOT_BUCKET env with
  | None => mret None
  | Some _ =>
      try_catch
        (obj ← Bucket.get ".last-sync";
         match obj with
         | None => mret None
         | Some obj => t ← Bucket.text obj; mret (Some t)
         end)
        (λ _, mret None)
  end.

Definition not_configured : SyncResult :=
  mkSyncResult false None (Some "R2 bucket binding not configured") None None.

Definition sync_aborted : SyncResult :=
  mkSyncResult false None (Some "Sync aborted: source missing clawdbot.json")
    (Some "The local config directory is missing critical files.") None.

(** The sanity check of [syncToR2Direct] (the body of [if (existingBackup)]):
    [checkConfig] runs the test command and reads its logs; [sanityCheck]
    gives [Some r] when the function returns [r] there, [None] when it
    goes on. *)
Definition checkConfig : M Logs :=
  checkProc ← runWithRetry_default (startProcess CmdTestConfig);
  waitForProcess checkProc 5000%N;;
  getLogs checkProc.

Definition sanityCheck : M (option SyncResult) :=
  try_catch
    (checkLogs ← checkConfig;
     if negb (includes (stdout checkLogs) "ok")
     then mret (Some sync_aborted)
     else mret None)
    (λ err,
      let errMsg := error_message err in
      emit (EvConsoleWarn ("Sanity check failed, continuing anyway: " +:+ errMsg));;
      mret None).

Definition excluded (filePath : string) : bool :=
  existsb (λ suffix, endsWith filePath suffix) EXCLUDE_SUFFIXES.

Definition r2Key (filePath : string) : string :=
  replace (replace filePath "/root/.clawdbot/" "clawdbot/")
    "/root/clawd/skills/" "skills/".

(** The [try] statement of the loop body that reads the file: the bytes
    to upload, or the entry pushed to [errors] before [continue]. *)
Definition readForUpload (filePath : string) : M (list byte + string) :=
  try_catch
    (result ← runWithRetry_default (readFileFromContainer filePath);
     if from_option truthy false (read_error result)
     then mret (inr (filePath +:+ ": " +:+ default "" (read_error result)))
     else mret (inl (data result)))
    (λ err, mret (inr (filePath +:+ ": " +:+ error_message err))).

(** The body of the loop over [files]; the state is
    [(filesBackedUp, errors)]. *)
Definition backupFile (filePath : string) (st : nat * list string)
    : M (nat * list string) :=
  let '(filesBackedUp, errors) := st in
  if excluded filePath then mret st
  else
    let r2Key := r2Key filePath in
    rd ← readForUpload filePath;
    match rd with
    | inr msg => mret (filesBackedUp, errors ++ [msg])
    | inl data =>
        try_catch
          (Bucket.put r2Key data;; mret (S filesBackedUp, errors))
          (λ uploadErr,
            mret (filesBackedUp,
                  errors ++ [filePath +:+ ": Upload failed - " +:+ to_String uploadErr]))
    end.

(** The body of the loop over [BACKUP_PATHS]. *)
Definition backupPath (basePath : string) (st : nat * list string)
    : M (nat * list string) :=
  listing ← try_catch
              (files ← runWithRetry_default (listFilesInContainer basePath);
               mret (Some files))
              (λ _,
                emit (EvConsoleLog ("Skipping " +:+ basePath +:+ " due to errors"));;
                mret None);
  match listing with
  | None => mret st
  | Some files => for_of files backupFile st
  end.

(** The return statements that end [syncToR2Direct]. *)
Definition syncReport (filesBackedUp : nat) (errors : list string)
    (timestamp : string) : SyncResult :=
  if (filesBackedUp =? 0) && (0 <? length errors)
  then mkSyncResult false None (Some "Sync failed") (Some (join "; " errors)) None
  else mkSyncResult true (Some timestamp) None
         (if 0 <? length errors
          then Some (pretty (length errors) +:+ " errors: " +:+ join "; " (take 3 errors))
          else None)
         (Some filesBackedUp).

(** [syncToR2Direct] from [let filesBackedUp = 0] on. *)
Definition backupAll : M SyncResult :=
  '(filesBackedUp, errors) ← for_of BACKUP_PATHS backupPath (0, []);
  timestamp ← (λ w, (Returned (clock w), w));
  try_catch (Bucket.put ".last-sync" (String.list_byte_of_string timestamp))
            (λ _, mret tt);;
  mret (syncReport filesBackedUp errors timestamp).

Definition syncToR2Direct (env : MoltbotEnv) : M SyncResult :=
  match MOLTBOT_BUCKET env with
  | None => mret not_configured
  | Some _ =>
      existingBackup ← getLastSyncDirect env;
      if from_option truthy false existingBackup
      then
        aborted ← sanityCheck;
        match aborted with
        | Some r => mret r
        | None => backupAll
        end
      else backupAll
  end.

Definition containerPath (key : string) : option string :=
  if startsWith key "clawdbot/" then Some ("/root/.clawdbot/" +:+ slice 9 key)
  else if startsWith key "skills/" then Some ("/root/clawd/skills/" +:+ slice 7 key)
  else None.

(** The body of the loop over [listed.objects]; the state is
    [(filesRestored, errors)]. *)
Definition restoreObject (key : string) (st : nat * list string)
    : M (nat * list string) :=
  let '(filesRestored, errors) := st in
  if String.eqb key ".last-sync" then mret st
  else
    match containerPath key with
    | None => mret st
    | Some containerPath =>
        try_catch
          (r2Object ← Bucket.get key;
           match r2Object with
           | None => mret st
           | Some r2Object =>
               data ← Bucket.arrayBuffer r2Object;
               let base64Data := Base64.btoa data in
               let parentDir := beforeLastSlash containerPath in
               startProcess (CmdMkdir parentDir);;
               writeProc ← startProcess (CmdWrite base64Data containerPath);
               waitForProcess writeProc 10000%N;;
               mret (S filesRestored, errors)
           end)
          (λ err, mret (filesRestored, errors ++ [key +:+ ": " +:+ error_message err]))
    end.

(** The calls a backup makes once past the sanity check: listings of
    the backup roots, reads of files that match no exclusion suffix,
    uploads of such files under their key, the marker, and the waits, log
    reads, delays and log lines in between. *)
Definition backup_event (ev : Event) : Prop :=
  match ev with
  | EvStartProcess (CmdFind dirPath) => dirPath ∈ BACKUP_PATHS
  | EvStartProcess (CmdBase64 filePath) => excluded filePath = false
  | EvStartProcess _ => False
  | EvBucketPut k _ =>
      k = ".last-sync" ∨ ∃ filePath, excluded filePath = false ∧ k = r2Key filePath
  | EvWaitForProcess _ | EvGetLogs | EvSleep _
  | EvConsoleLog _ | EvConsoleWarn _ => True
  | _ => False
  end.

(** Calls that touch neither the sandbox nor the bucket. *)
Definition benign (ev : Event) : Prop :=
  match ev with
  | EvWaitForProcess _ | EvGetLogs | EvSleep _
  | EvConsoleLog _ | EvConsoleWarn _ => True
  | _ => False
  end.

Definition is_put (ev : Event) : Prop :=
  match ev with EvBucketPut _ _ => True | _ => False end.

(** Every fault to come is an [Error] with a message, or a value that is
    not an [Error]: what a [catch] of the source makes of it is not the
    empty string. *)
Definition loud_faults (w : World) : bool :=
  forallb (λ o, match o with
                | Some err => truthy (error_message err)
                | None => true
                end) (faults w).

(** The next [n] external calls of [w] are scheduled without fault. *)
Definition fault_free (n : nat) (w : World) : bool :=
  forallb (λ o, match o with None => true | Some _ => false end) (take n (faults w)).

(** Objects that [restoreFromR2Direct] maps to a path: any key but the
    marker that starts with a known prefix. *)
Definition restorable (key : string) : bool :=
  negb (String.eqb key ".last-sync") && bool_decide (is_Some (containerPath key)).

(** The calls of [syncToR2Direct]: those of the backup, the query of the
    marker and the test command of the sanity check. *)
Definition sync_event (ev : Event) : Prop :=
  backup_event ev ∨ ev = EvBucketGet ".last-sync" ∨ ev = EvObjectText
  ∨ ev = EvStartProcess CmdTestConfig.

(** What changes in the sandbox and around it between two calls of
    [syncToR2Direct]: the files, the faults to come and the time; the bucket
    is the one the last call left. *)
Record Between : Type := mkBetween {
  next_files : gmap string (list byte);
  next_faults : list (option thrown);
  next_clock : string
}.

Definition prepare (b : Between) (w : World) : World :=
  mkWorld (next_files b) (objects w) (next_faults b) (next_clock b) (trace w).

(** A sequence of calls of [syncToR2Direct], with their results. *)
Fixpoint sync_calls (env : MoltbotEnv) (bs : list Between) (w : World)
    : list (outcome SyncResult) * World :=
  match bs with
  | [] => ([], w)
  | b :: bs' =>
      let '(r, w1) := syncToR2Direct env (prepare b w) in
      let '(rs, w2) := sync_calls env bs' w1 in
      (r :: rs, w2)
  end.

(** Paths that [find] prints on a line of their own and that [trim] leaves
    whole: they hold no line feed and neither start nor end with white
    space. *)
Definition starts_plain (s : string) : bool :=
  match s with
  | "" => false
  | String c _ => negb (Ascii.is_space c)
  end.

Fixpoint ends_plain (s : string) : bool :=
  match s with
  | "" => false
  | String c "" => negb (Ascii.is_space c)
  | String _ s' => ends_plain s'
  end.

Fixpoint one_line (s : string) : bool :=
  match s with
  | "" => true
  | String c s' => negb (Ascii.eqb c lf) && one_line s'
  end.

Definition line_safe (filePath : string) : bool :=
  starts_plain filePath && ends_plain filePath && one_line filePath.

(** Paths below one of the backup roots. *)
Definition under_root (filePath : string) : bool :=
  existsb (λ basePath, startsWith filePath basePath) BACKUP_PATHS.

(** Paths in which no backup root occurs again after the first
    character. *)
Definition root_free (filePath : string) : bool :=
  forallb (λ basePath, negb (includes (slice 1 filePath) basePath)) BACKUP_PATHS.

(** The files of the round trip: below a backup root, matching no
    exclusion suffix, with a path that the key mapping and the listing
    leave whole, and with at least one byte. *)
Definition backup_safe (filePath : string) (content : list byte) : bool :=
  under_root filePath && negb (excluded filePath) && root_free filePath
  && line_safe filePath && negb (bool_decide (content = [])).

Definition restoreReport (filesRestored : nat) (errors : list string) : SyncResult :=
  mkSyncResult (0 <? filesRestored) None None
    (if 0 <? length errors then Some (pretty (length errors) +:+ " errors") else None)
    (Some filesRestored).

Definition restoreFromR2Direct (env : MoltbotEnv) : M SyncResult :=
  match MOLTBOT_BUCKET env with
  | None => mret not_configured
  | Some _ =>
      listed ← Bucket.list_keys;
      '(filesRestored, errors) ← for_of listed restoreObject (0, []);
      mret (restoreReport filesRestored errors)
  end.

End SyncDirect.

(** ** Notions used by the statements and by the proofs *)

Module Notions.
Import World JsString Sandbox SyncDirect.

(** A call that never rejects, with a postcondition on its value. *)
Definition returns {A} (m : M A) (Q : A → Prop) : Prop :=
  ∀ w, ∃ a w', m w = (Returned a, w') ∧ Q a.

(** A call across which the relation [R] holds between the worlds. *)
Definition steady (R : relation World) {A} (m : M A) : Prop :=
  ∀ w, R w (m w).2.

(** The bucket holds the same objects. *)
Definition same_objects (w w' : World) : Prop := objects w' = objects w.

(** The sandbox holds the same files. *)
Definition same_files (w w' : World) : Prop := files w' = files w.

(** Neither the clock nor an exhausted fault script changes. *)
Definition calm (w w' : World) : Prop :=
  clock w' = clock w ∧ (faults w = [] → faults w' = []).

(** The trace grew by events that all satisfy [P]. *)
Definition emitted (P : Event → Prop) (w w' : World) : Prop :=
  ∃ evs, trace w' = evs ++ trace w ∧ Forall P evs.

(** A relation between worlds that holds across the logging of the events
    in [ok], which include the benign ones, and across the consumption of
    the fault script. *)
Class Frame (R : relation World) (ok : Event → Prop) : Prop := {
  frame_po :: PreOrder R;
  frame_log : ∀ ev w, ok ev → R w (log_event ev w);
  frame_faults : ∀ o fl w, faults w = o :: fl → R w (set_faults fl w);
  frame_benign : ∀ ev, benign ev → ok ev
}.

(** The number of items counted so far by a loop, as done or as errors. *)
Definition counted (st : nat * list string) : nat := st.1 + length st.2.

Definition eligible (filePath : string) : nat :=
  if excluded filePath then 0 else 1.

Definition restored (key : string) : nat := if restorable key then 1 else 0.

(** The value stored under the marker key. *)
Definition marker_bytes (timestamp : string) : list byte :=
  String.list_byte_of_string timestamp.

(** The world after an external call that met no fault: the event is
    logged and one entry of the fault script is consumed. *)
Definition advance (ev : Event) (w : World) : World :=
  set_faults (tail (faults w)) (log_event ev w).

(** The faults to come stay loud. *)
Definition stays_loud (w w' : World) : Prop :=
  loud_faults w = true → loud_faults w' = true.

(** No fault is scheduled. *)
Definition quiet (w : World) : Prop := faults w = [].

(** The world after the three calls of a read or of a listing. *)
Definition after_command (c : Command) (t : N) (w : World) : World :=
  advance EvGetLogs (advance (EvWaitForProcess t) (advance (EvStartProcess c) w)).

(** The world after the upload of a file that was read without fault. *)
Definition stored (filePath : string) (v : list byte) (w : World) : World :=
  let w3 := after_command (CmdBase64 filePath) 10000 w in
  set_objects (<[r2Key filePath := v]> (objects w3))
    (advance (EvBucketPut (r2Key filePath) v) w3).

(** A map filled by a loop: the element [x] sets the entry [key x], if
    any, to [val x]. *)
Definition load_step {A} (key : A → option string) (val : A → list byte)
    (m : gmap string (list byte)) (x : A) : gmap string (list byte) :=
  match key x with
  | Some k => <[k := val x]> m
  | None => m
  end.

Definition load {A} (key : A → option string) (val : A → list byte)
    (m : gmap string (list byte)) (l : list A) : gmap string (list byte) :=
  foldl (load_step key val) m l.

(** The bucket after the upload of the files [l] of [fs]. *)
Abbreviation uploads fs := (load (λ p, Some (r2Key p)) (λ p, default [] (fs !! p))).

(** The files below the two backup roots, in the order of the backup. *)
Definition listing (fs : gmap string (list byte)) : list string :=
  find_files "/root/.clawdbot/" fs ++ find_files "/root/clawd/skills/" fs.

(** The path an object is restored to, if it is restored. *)
Definition restore_key (k : string) : option string :=
  if restorable k then containerPath k else None.

(** The sandbox after the restore of the objects [l] of [os]. *)
Abbreviation downloads os := (load restore_key (λ k, default [] (os !! k))).

Abbreviation chars := String.list_ascii_of_string.
Abbreviation plain := (λ c : ascii, Ascii.is_space c = false).

(** The values of the characters of an encoding, without padding. *)
Fixpoint sextets (bs : list byte) : list N :=
  match bs with
  | [] => []
  | [a] =>
      let a := Byte.to_N a in
      [a / 4; (a mod 4) * 16]
  | [a; b] =>
      let a := Byte.to_N a in
      let b := Byte.to_N b in
      [a / 4; (a mod 4) * 16 + b / 16; (b mod 16) * 4]
  | a :: b :: c :: rest =>
      let a := Byte.to_N a in
      let b := Byte.to_N b in
      let c := Byte.to_N c in
      a / 4 :: (a mod 4) * 16 + b / 16 :: (b mod 16) * 4 + c / 64 :: c mod 64
      :: sextets rest
  end%N.

End Notions.

(** ** Notions of the safety statements *)

Module Safety.
Import World JsString Sandbox SyncDirect Notions.

(** What a backup of the files [F] at the time [T] may store under the key
    [k]: the marker, or the bytes of a file of [F] that has at least one
    byte and matches no exclusion suffix, under the key of its path. *)
Definition uploaded (F : gmap string (list byte)) (T : string)
    (k : string) (v : list byte) : Prop :=
  (k = ".last-sync" ∧ v = marker_bytes T)
  ∨ ∃ filePath, excluded filePath = false ∧ k = r2Key filePath
                ∧ F !! filePath = Some v ∧ v ≠ [].

(** Across a call in a sandbox with the files [F], at the time [T] and
    with loud faults: the sandbox is the same, and every object of the
    bucket is the one it was or one that a backup may store. *)
Definition backup_sound (F : gmap string (list byte)) (T : string)
    (w w' : World) : Prop :=
  files w = F ∧ clock w = T ∧ loud_faults w = true →
  files w' = F ∧ clock w' = T ∧ loud_faults w' = true ∧
  ∀ k, objects w' !! k = objects w !! k
       ∨ ∃ v, objects w' !! k = Some v ∧ uploaded F T k v.

(** What a restore from the objects [O] may write to the path [q]: the
    bytes of an object that is not the marker and whose key maps to [q]. *)
Definition downloaded (O : gmap string (list byte)) (q : string)
    (v : list byte) : Prop :=
  ∃ k, restorable k = true ∧ containerPath k = Some q ∧ O !! k = Some v.

(** Across a call on a bucket with the objects [O]: the bucket is the
    same, and every file of the sandbox is the one it was or one that a
    restore may write. *)
Definition restore_sound (O : gmap string (list byte)) (w w' : World) : Prop :=
  objects w = O →
  objects w' = O ∧
  ∀ q, files w' !! q = files w !! q
       ∨ ∃ v, files w' !! q = Some v ∧ downloaded O q v.

(** The objects of a round trip from the bucket: those that a restore
    writes have a path that a backup reads back under the same key. *)
Definition restore_safe (k : string) (v : list byte) : bool :=
  negb (restorable k)
  || from_option (λ q, negb (excluded q) && root_free q && line_safe q) false
       (containerPath k)
     && negb (bool_decide (v = [])).

End Safety.

(** ** Mounting the bucket (the second part of src/gateway/sync-direct.ts)

    [isR2Mounted] and [mountR2Storage] talk to the sandbox only: they start
    a process, read its status and its logs, wait, and call [mountBucket].
    The sandbox is any deterministic collaborator: what it answers to a
    call is a function of the calls made so far, this one included. The
    state of a call is the journal of the calls made, the latest first. *)

Module R2Storage.
Import World JsString.

(** An argument of [console.log] or [console.error] *)
Inductive LogArg : Type :=
| ArgText (s : string)
| ArgBool (b : bool)
| ArgNumber (n : nat)
| ArgThrown (err : thrown).

Inductive Call : Type :=
| CallStartProcess (commandLine : string)
| CallSleep (ms : N)
| CallGetLogs
| CallMountBucket (bucket mountPath endpoint accessKeyId secretAccessKey : string)
| CallConsoleLog (args : list LogArg)
| CallConsoleError (args : list LogArg).

Definition Journal : Type := list Call.

(** The sandbox: whether [startProcess] and [mountBucket] reject, what
    [proc.status] reads and what the [stdout] of [proc.getLogs()] is, after
    the calls of the journal. *)
Record SandboxAnswers : Type := mkAnswers {
  startProcess_answer : Journal → option thrown;
  status_answer : Journal → string;
  getLogs_answer : Journal → thrown + string;
  mountBucket_answer : Journal → option thrown
}.

(** [env.R2_ACCESS_KEY_ID], [env.R2_SECRET_ACCESS_KEY], [env.CF_ACCOUNT_ID]:
    the fields of the environment that [mountR2Storage] reads, each a
    string or undefined. *)
Record MoltbotEnv : Type := mkMountEnv {
  R2_ACCESS_KEY_ID : option string;
  R2_SECRET_ACCESS_KEY : option string;
  CF_ACCOUNT_ID : option string
}.

Definition J (A : Type) : Type := Journal → outcome A * Journal.

Definition ret {A} (a : A) : J A := λ j, (Returned a, j).

Definition bind {A B} (m : J A) (k : A → J B) : J B := λ j,
  match m j with
  | (Returned a, j') => k a j'
  | (Threw err, j') => (Threw err, j')
  end.

#[export] Instance J_ret : MRet J := @ret.
#[export] Instance J_bind : MBind J := λ A B k m, bind m k.

(** [try { body } catch (err) { handler }] *)
Definition try_catch {A} (body : J A) (handler : thrown → J A) : J A := λ j,
  match body j with
  | (Returned a, j') => (Returned a, j')
  | (Threw err, j') => handler err j'
  end.

(** A call that the sandbox answers, by a value or by a rejection. *)
Definition call {A} (c : Call) (answer : Journal → thrown + A) : J A := λ j,
  match answer (c :: j) with
  | inl err => (Threw err, c :: j)
  | inr a => (Returned a, c :: j)
  end.

Definition rejects (answer : Journal → option thrown) (j : Journal) : thrown + unit :=
  match answer j with
  | Some err => inl err
  | None => inr tt
  end.

(** A call that cannot reject ([console.log], [console.error],
    [setTimeout]). *)
Definition note (c : Call) : J unit := λ j, (Returned tt, c :: j).

(** [!v] for a string or undefined *)
Definition unset (v : option string) : bool := negb (from_option truthy false v).

(** The character class [[a-f0-9]] under the flag [i] *)
Definition is_hex (c : ascii) : bool :=
  let n := nat_of_ascii c in
  (48 <=? n) && (n <=? 57) || (97 <=? n) && (n <=? 102) || (65 <=? n) && (n <=? 70).

(** [/^[a-f0-9]{32}$/i.test(accountId)] *)
Definition accountIdValid (accountId : string) : bool :=
  (String.length accountId =? 32)
  && forallb is_hex (String.list_ascii_of_string accountId).

Definition is_mount (c : Call) : bool :=
  match c with CallMountBucket _ _ _ _ _ => true | _ => false end.

Definition is_start (c : Call) : bool :=
  match c with CallStartProcess _ => true | _ => false end.

Definition is_console (c : Call) : bool :=
  match c with CallConsoleLog _ | CallConsoleError _ => true | _ => false end.

(** The time spent in delays, in milliseconds. *)
Definition slept (j : Journal) : N :=
  foldr (λ c acc, match c with CallSleep ms => (ms + acc)%N | _ => acc end) 0%N j.

Section Mount.
Context (sb : SandboxAnswers) (R2_MOUNT_PATH R2_BUCKET_NAME : string).

Definition startProcess (commandLine : string) : J unit :=
  call (CallStartProcess commandLine) (rejects (startProcess_answer sb)).

Definition getLogs : J string := call CallGetLogs (getLogs_answer sb).

Definition mountBucket (bucket mountPath endpoint accessKeyId secretAccessKey : string)
    : J unit :=
  call (CallMountBucket bucket mountPath endpoint accessKeyId secretAccessKey)
       (rejects (mountBucket_answer sb)).

(** [proc.status] *)
Definition status : J string := λ j, (Returned (status_answer sb j), j).

(** [while (proc.status === 'running' && attempts < 10)], with
    [remaining = 10 - attempts] *)
Fixpoint wait_while_running (remaining : nat) : J unit :=
  match remaining with
  | 0 => mret tt
  | S remaining' =>
      st ← status;
      if String.eqb st "running"
      then note (CallSleep 200);; wait_while_running remaining'
      else mret tt
  end.

Definition mount_check : string :=
  "mount | grep " +:+ dq +:+ "s3fs on " +:+ R2_MOUNT_PATH +:+ dq.

Definition isR2Mounted : J bool :=
  try_catch
    (startProcess mount_check;;
     wait_while_running 10;;
     stdout ← getLogs;
     let mounted := truthy stdout && includes stdout "s3fs" in
     note (CallConsoleLog [ArgText "isR2Mounted check:"; ArgBool mounted;
                           ArgText "stdout:"; ArgText (String.substring 0 100 stdout)]);;
     mret mounted)
    (λ err,
      note (CallConsoleLog [ArgText "isR2Mounted error:"; ArgThrown err]);;
      mret false).

Definition missing_secrets (env : MoltbotEnv) : list string :=
  (if unset (R2_ACCESS_KEY_ID env) then ["R2_ACCESS_KEY_ID"] else [])
  ++ (if unset (R2_SECRET_ACCESS_KEY env) then ["R2_SECRET_ACCESS_KEY"] else [])
  ++ (if unset (CF_ACCOUNT_ID env) then ["CF_ACCOUNT_ID"] else []).

Definition endpoint_of (accountId : string) : string :=
  "https://" +:+ accountId +:+ ".r2.cloudflarestorage.com".

(** The diagnosis of common errors in the [catch] of [mountR2Storage] *)
Definition diagnose (errorMessage : string) : J unit :=
  if includes errorMessage "403" || includes errorMessage "Forbidden"
  then note (CallConsoleError
               [ArgText "R2 AUTH ERROR: Access denied. Check that R2_ACCESS_KEY_ID and R2_SECRET_ACCESS_KEY are valid and have read/write permissions on bucket:";
                ArgText R2_BUCKET_NAME])
  else if includes errorMessage "404" || includes errorMessage "NoSuchBucket"
  then note (CallConsoleError
               [ArgText ("R2 BUCKET ERROR: Bucket not found. Verify bucket " +:+ dq
                         +:+ "moltbot-data" +:+ dq +:+ " exists in your R2 console.")])
  else if includes errorMessage "InvalidAccessKeyId"
  then note (CallConsoleError
               [ArgText "R2 KEY ERROR: Invalid access key. The R2_ACCESS_KEY_ID may have been deleted or regenerated."])
  else mret tt.

Definition mountR2Storage (env : MoltbotEnv) : J bool :=
  if unset (R2_ACCESS_KEY_ID env) || unset (R2_SECRET_ACCESS_KEY env)
     || unset (CF_ACCOUNT_ID env)
  then
    note (CallConsoleLog [ArgText "R2 storage not configured - missing secrets:";
                          ArgText (join ", " (missing_secrets env))]);;
    mret false
  else
    let accessKeyId := default "" (R2_ACCESS_KEY_ID env) in
    let secretAccessKey := default "" (R2_SECRET_ACCESS_KEY env) in
    let accountId := default "" (CF_ACCOUNT_ID env) in
    if negb (accountIdValid accountId)
    then
      note (CallConsoleError
              [ArgText "CF_ACCOUNT_ID format invalid - expected 32-char hex string, got:";
               ArgNumber (String.length accountId);
               ArgText "chars starting with:";
               ArgText (String.substring 0 8 accountId +:+ "...")]);;
      mret false
    else
      mounted ← isR2Mounted;
      if (mounted : bool)
      then
        note (CallConsoleLog [ArgText "R2 bucket already mounted at"; ArgText R2_MOUNT_PATH]);;
        mret true
      else
        try_catch
          (note (CallConsoleLog [ArgText "Mounting R2 bucket at"; ArgText R2_MOUNT_PATH]);;
           mountBucket R2_BUCKET_NAME R2_MOUNT_PATH (endpoint_of accountId)
             accessKeyId secretAccessKey;;
           note (CallConsoleLog
                   [ArgText "R2 bucket mounted successfully - moltbot data will persist across sessions"]);;
           mret true)
          (λ err,
            let errorMessage := message_of err in
            let endpoint := endpoint_of accountId in
            note (CallConsoleLog [ArgText "R2 mount error:"; ArgText errorMessage]);;
            note (CallConsoleLog [ArgText "R2 mount details - bucket:"; ArgText R2_BUCKET_NAME;
                                  ArgText "endpoint:"; ArgText endpoint]);;
            diagnose errorMessage;;
            again ← isR2Mounted;
            if (again : bool)
            then
              note (CallConsoleLog [ArgText "R2 bucket is mounted despite error"]);;
              mret true
            else
              note (CallConsoleError [ArgText "Failed to mount R2 bucket:"; ArgThrown err]);;
              mret false).

End Mount.

(** The calls of a check of the mount at [path]: one process started,
    with the command of the check, no [mountBucket], and at most ten
    delays of 200 ms. *)
Definition checked (path : string) (calls : list Call) : Prop :=
  filter is_start calls = [CallStartProcess (mount_check path)] ∧
  filter is_mount calls = [] ∧
  (slept calls ≤ 2000)%N.

(** A call of [mountBucket] of the journal has returned. *)
Fixpoint mounted_in (sb : SandboxAnswers) (j : Journal) : bool :=
  match j with
  | [] => false
  | c :: j0 =>
      match mountBucket_answer sb j with
      | None => is_mount c
      | Some _ => false
      end
      || mounted_in sb j0
  end.

(** A sandbox that shows the mount once [mountBucket] has returned: from
    then on a process starts, and its logs hold a line for s3fs. *)
Definition shows_mount (sb : SandboxAnswers) : Prop :=
  ∀ j, mounted_in sb j = true →
    startProcess_answer sb j = None
    ∧ ∃ stdout, getLogs_answer sb j = inr stdout ∧ includes stdout "s3fs" = true.

(** A sandbox without faults: processes start and are over at once,
    [mountBucket] returns, and the logs of a check show a line of s3fs for
    [path] when [mountBucket] was called before. *)
Definition plain_sandbox (path : string) : SandboxAnswers :=
  mkAnswers (λ _, None) (λ _, "completed")
    (λ j, inr (if existsb is_mount j
               then "s3fs on " +:+ path +:+ " type fuse.s3fs (rw,nosuid,nodev)"
               else ""))
    (λ _, None).

(** The secrets are set and the account id has the expected format. *)
Definition configured (env : MoltbotEnv) : bool :=
  negb (unset (R2_ACCESS_KEY_ID env) || unset (R2_SECRET_ACCESS_KEY env)
        || unset (CF_ACCOUNT_ID env))
  && accountIdValid (default "" (CF_ACCOUNT_ID env)).

End R2Storage.

(** * Part II: lemmas and theorems *)

(** ** Strings *)

Module JsStringFacts.
Import JsString.

Lemma app_nil_l (s : string) : "" +:+ s = s.
Proof. done. Qed.

Lemma app_cons (c : ascii) (s t : string) : String c s +:+ t = String c (s +:+ t).
Proof. done. Qed.

Lemma startsWith_cons (a b : ascii) (s pre : string) :
  startsWith (String b s) (String a pre)
  = if Ascii.eqb a b then startsWith s pre else false.
Proof. done. Qed.

Lemma includes_unfold (s pat : string) :
  includes s pat
  = if startsWith s pat then true
    else match s with "" => false | String _ s' => includes s' pat end.
Proof. by destruct s. Qed.

Lemma replace_unfold (s pat rep : string) :
  replace s pat rep
  = if startsWith s pat then rep +:+ slice (String.length pat) s
    else match s with "" => "" | String c s' => String c (replace s' pat rep) end.
Proof. by destruct s. Qed.

Lemma startsWith_app (pre s : string) : startsWith (pre +:+ s) pre = true.
Proof.
  induction pre as [|a pre IH]; [done|].
  by rewrite app_cons, startsWith_cons, Ascii.eqb_refl.
Qed.

Lemma slice_app (pre s : string) : slice (String.length pre) (pre +:+ s) = s.
Proof. induction pre as [|a pre IH]; [by destruct s|done]. Qed.

Lemma replace_prefix (pre rep s : string) :
  replace (pre +:+ s) pre rep = rep +:+ s.
Proof. by rewrite replace_unfold, startsWith_app, slice_app. Qed.

Lemma replace_absent (s pat rep : string) :
  includes s pat = false → replace s pat rep = s.
Proof.
  induction s as [|c s IH]; rewrite includes_unfold, replace_unfold;
    destruct (startsWith _ pat); try done.
  intros H. by rewrite IH.
Qed.

Lemma startsWith_split (s pre : string) :
  startsWith s pre = true → s = pre +:+ slice (String.length pre) s.
Proof.
  revert s. induction pre as [|a pre IH]; intros s.
  - by destruct s.
  - destruct s as [|b s]; [done|]. rewrite startsWith_cons.
    destruct (Ascii.eqb a b) eqn:E; [|done].
    apply Ascii.eqb_eq in E as ->. intros H.
    rewrite app_cons. change (String b s = String b (pre +:+ slice (String.length pre) s)).
    f_equal. by apply IH.
Qed.

(** A pattern that does not occur in a string occurs in none of its
    suffixes. *)
Lemma includes_app_r (a b pat : string) :
  includes (a +:+ b) pat = false → includes b pat = false.
Proof.
  induction a as [|c a IH]; [done|].
  rewrite app_cons, includes_unfold.
  destruct (startsWith _ pat); [done|]. exact IH.
Qed.

(** An occurrence cannot start at a character other than the first one of
    the pattern. *)
Lemma includes_cons_ne (a c : ascii) (s pat : string) :
  Ascii.eqb a c = false →
  includes (String c s) (String a pat) = includes s (String a pat).
Proof. intros E. by rewrite includes_unfold, startsWith_cons, E. Qed.

End JsStringFacts.

(** ** The mapping between paths and object keys *)

Module KeyMapping.
Import JsString JsStringFacts SyncDirect.

Lemma r2Key_config (rel : string) :
  includes (String "/" rel) "/root/clawd/skills/" = false →
  r2Key ("/root/.clawdbot/" +:+ rel) = "clawdbot/" +:+ rel.
Proof.
  intros H. unfold r2Key. rewrite replace_prefix.
  apply replace_absent.
  rewrite !app_cons, app_nil_l.
  by rewrite !includes_cons_ne by done.
Qed.

Lemma r2Key_skills (rel : string) :
  includes (String "/" rel) "/root/.clawdbot/" = false →
  r2Key ("/root/clawd/skills/" +:+ rel) = "skills/" +:+ rel.
Proof.
  intros H. unfold r2Key. rewrite (replace_absent _ "/root/.clawdbot/").
  - apply replace_prefix.
  - rewrite !app_cons, app_nil_l.
    rewrite includes_unfold. rewrite !startsWith_cons. cbn [Ascii.eqb Bool.eqb].
    rewrite !includes_cons_ne by done.
    rewrite includes_unfold. rewrite !startsWith_cons. cbn [Ascii.eqb Bool.eqb].
    rewrite !includes_cons_ne by done.
    rewrite includes_unfold. rewrite !startsWith_cons. cbn [Ascii.eqb Bool.eqb].
    rewrite !includes_cons_ne by done.
    exact H.
Qed.

(** The example of the source: [/root/.clawdbot/config.json] has the key
    [clawdbot/config.json], which the restore maps back to the path. *)
Example r2Key_config_json :
  r2Key "/root/.clawdbot/config.json" = "clawdbot/config.json" ∧
  containerPath "clawdbot/config.json" = Some "/root/.clawdbot/config.json".
Proof. done. Qed.

(** On a path below a backup root in which no root occurs again, the key
    is the path with its root replaced by the root's prefix, and
    [containerPath] maps the key back to the path. *)
Lemma containerPath_r2Key (filePath : string) :
  under_root filePath = true → root_free filePath = true →
  containerPath (r2Key filePath) = Some filePath.
Proof.
  unfold under_root, root_free, BACKUP_PATHS. cbn [existsb forallb].
  rewrite orb_false_r, andb_true_r.
  intros Hroot [H1 H2]%andb_true_iff.
  apply negb_true_iff in H1, H2.
  apply orb_true_iff in Hroot as [Hr|Hr];
    apply startsWith_split in Hr;
    set (rel := slice _ filePath) in Hr; clearbody rel; subst filePath.
  - change (slice 1 ("/root/.clawdbot/" +:+ rel))
      with ("root/.clawdbot" +:+ String "/" rel) in H2.
    apply includes_app_r in H2.
    rewrite r2Key_config by done.
    unfold containerPath. rewrite (startsWith_app "clawdbot/").
    by rewrite (slice_app "clawdbot/").
  - change (slice 1 ("/root/clawd/skills/" +:+ rel))
      with ("root/clawd/skills" +:+ String "/" rel) in H1.
    apply includes_app_r in H1.
    rewrite r2Key_skills by done.
    unfold containerPath.
    change (startsWith ("skills/" +:+ rel) "clawdbot/") with false.
    cbn iota. rewrite (startsWith_app "skills/").
    by rewrite (slice_app "skills/").
Qed.

(** Hence the key mapping is injective on such paths. *)
Lemma r2Key_inj (p q : string) :
  under_root p = true → root_free p = true →
  under_root q = true → root_free q = true →
  r2Key p = r2Key q → p = q.
Proof.
  intros Hp1 Hp2 Hq1 Hq2 E.
  pose proof (containerPath_r2Key p Hp1 Hp2) as Ep.
  pose proof (containerPath_r2Key q Hq1 Hq2) as Eq.
  rewrite E in Ep. congruence.
Qed.

(** C7, at the failing inputs: two distinct files below a backup root,
    neither matching an exclusion suffix, are given the same object key
    (the first occurrence of a root is replaced wherever it stands), and
    the key of a third one has no known prefix, so that inverting the
    prefix mapping does not give the path back. *)
Theorem r2Key_collision :
  let p1 := "/root/clawd/skills/d/root/.clawdbot/x" in
  let p2 := "/root/clawd/skills/dclawdbot/x" in
  let p3 := "/root/.clawdbot/root/clawd/skills/x" in
  (under_root p1 = true ∧ excluded p1 = false) ∧
  (under_root p2 = true ∧ excluded p2 = false) ∧
  (under_root p3 = true ∧ excluded p3 = false) ∧
  p1 ≠ p2 ∧ r2Key p1 = r2Key p2 ∧
  r2Key p3 = "clawdbotskills/x" ∧ containerPath (r2Key p3) = None ∧
  containerPath (r2Key p1) = Some p2.
Proof. repeat split; done. Qed.

End KeyMapping.

(** ** Reasoning about awaited calls *)

Module Effects.
Import World SyncDirect Notions.

Lemma bind_unfold {A B} (m : M A) (k : A → M B) (w : World) :
  (m ≫= k) w
  = match m w with
    | (Returned a, w') => k a w'
    | (Threw err, w') => (Threw err, w')
    end.
Proof. done. Qed.

Lemma bind_returned {A B} (m : M A) (k : A → M B) (w w' : World) (a : A) :
  m w = (Returned a, w') → (m ≫= k) w = k a w'.
Proof. intros E. by rewrite bind_unfold, E. Qed.

Lemma bind_threw {A B} (m : M A) (k : A → M B) (w w' : World) (err : thrown) :
  m w = (Threw err, w') → (m ≫= k) w = (Threw err, w').
Proof. intros E. by rewrite bind_unfold, E. Qed.

Lemma try_catch_returned {A} (m : M A) (h : thrown → M A) (w w' : World) (a : A) :
  m w = (Returned a, w') → try_catch m h w = (Returned a, w').
Proof. intros E. unfold try_catch. by rewrite E. Qed.

Lemma try_catch_threw {A} (m : M A) (h : thrown → M A) (w w' : World) (err : thrown) :
  m w = (Threw err, w') → try_catch m h w = h err w'.
Proof. intros E. unfold try_catch. by rewrite E. Qed.

Lemma for_of_cons {A St} (x : A) (l : list A) (body : A → St → M St) (s : St) :
  for_of (x :: l) body s = (body x s ≫= for_of l body).
Proof. done. Qed.

(** *** Calls that never reject, with a postcondition on their value *)


Lemma returns_ret {A} (a : A) (Q : A → Prop) : Q a → returns (mret a) Q.
Proof. intros H w. by exists a, w. Qed.

Lemma returns_bind {A B} (m : M A) (k : A → M B) (P : A → Prop) (Q : B → Prop) :
  returns m P → (∀ a, P a → returns (k a) Q) → returns (m ≫= k) Q.
Proof.
  intros Hm Hk w. destruct (Hm w) as (a & w1 & E & Ha).
  destruct (Hk a Ha w1) as (b & w2 & E2 & Hb).
  exists b, w2. by rewrite (bind_returned _ _ _ _ _ E).
Qed.

Lemma returns_try_catch {A} (m : M A) (h : thrown → M A) (Q : A → Prop) :
  (∀ w a w', m w = (Returned a, w') → Q a) →
  (∀ err, returns (h err) Q) → returns (try_catch m h) Q.
Proof.
  intros Hm Hh w. unfold try_catch.
  destruct (m w) as [[a|err] w1] eqn:E.
  - exists a, w1. split; [done|]. by eapply Hm.
  - apply Hh.
Qed.

Lemma returns_weaken {A} (m : M A) (P Q : A → Prop) :
  returns m P → (∀ a, P a → Q a) → returns m Q.
Proof. intros Hm HPQ w. destruct (Hm w) as (a & w' & E & Ha). eauto. Qed.

(** A loop whose body never rejects and advances a counter [μ] of the
    state by [f x] on the element [x] never rejects and advances it by the
    sum over the list. *)
Lemma returns_for_of {A St} (body : A → St → M St) (μ : St → nat) (f : A → nat) :
  (∀ x s, returns (body x s) (λ s', μ s' = μ s + f x)) →
  ∀ l s, returns (for_of l body s) (λ s', μ s' = μ s + sum_list (f <$> l)).
Proof.
  intros Hbody l. induction l as [|x l IH]; intros s.
  - intros w. exists s, w. split; [done|]. simpl. lia.
  - simpl for_of. eapply (returns_bind (body x s)); [apply Hbody|].
    intros s1 E1. eapply returns_weaken; [apply IH|].
    intros s2 E2. rewrite fmap_cons. simpl in *. lia.
Qed.

(** *** Relations between the world before and after a call *)

Section Steady.
Context (R : relation World) `{!PreOrder R}.


Lemma steady_ret {A} (a : A) : steady R (mret a).
Proof. intros w. simpl. reflexivity. Qed.

Lemma steady_throw {A} (err : thrown) : steady R (throw (A:=A) err).
Proof. intros w. simpl. reflexivity. Qed.

Lemma steady_bind {A B} (m : M A) (k : A → M B) :
  steady R m → (∀ a, steady R (k a)) → steady R (m ≫= k).
Proof.
  intros Hm Hk w. rewrite bind_unfold. specialize (Hm w).
  destruct (m w) as [[a|err] w1]; simpl in *; [|done].
  etrans; [exact Hm|apply Hk].
Qed.

Lemma steady_try_catch {A} (m : M A) (h : thrown → M A) :
  steady R m → (∀ err, steady R (h err)) → steady R (try_catch m h).
Proof.
  intros Hm Hh w. unfold try_catch. specialize (Hm w).
  destruct (m w) as [[a|err] w1]; simpl in *; [done|].
  etrans; [exact Hm|apply Hh].
Qed.

Lemma steady_for_of {A St} (body : A → St → M St) (l : list A) :
  (∀ x, x ∈ l → ∀ s, steady R (body x s)) → ∀ s, steady R (for_of l body s).
Proof.
  induction l as [|x l IH]; intros Hbody s; simpl for_of.
  - apply (steady_ret s).
  - apply steady_bind; [apply Hbody; left|].
    intros s'. apply IH. intros y Hy. apply Hbody. by right.
Qed.

Lemma steady_external {A} (ev : Event) (run : World → A * World) :
  (∀ w, R w (log_event ev w)) →
  (∀ o fl w, faults w = o :: fl → R w (set_faults fl w)) →
  (∀ w, R w (run w).2) →
  steady R (external ev run).
Proof.
  intros Hlog Hfl Hrun w. unfold external.
  destruct (faults (log_event ev w)) as [|[err|] rest] eqn:E; simpl.
  - specialize (Hrun (log_event ev w)).
    destruct (run (log_event ev w)) as [a w1]. simpl in *.
    etrans; [apply Hlog|done].
  - etrans; [apply Hlog|by eapply Hfl].
  - specialize (Hrun (set_faults rest (log_event ev w))).
    destruct (run _) as [a w1]. simpl in *.
    etrans; [apply Hlog|]. etrans; [by eapply Hfl|done].
Qed.

Lemma steady_emit (ev : Event) :
  (∀ w, R w (log_event ev w)) → steady R (emit ev).
Proof. intros Hlog w. apply Hlog. Qed.

End Steady.


Global Instance same_objects_po : PreOrder same_objects.
Proof. split; [done|]. intros x y z H1 H2. unfold same_objects in *. congruence. Qed.


Global Instance emitted_po (P : Event → Prop) : PreOrder (emitted P).
Proof.
  split.
  - intros w. by exists [].
  - intros x y z (e1 & E1 & F1) (e2 & E2 & F2). exists (e2 ++ e1). split.
    + by rewrite E2, E1, app_assoc.
    + by apply Forall_app.
Qed.

Lemma emitted_weaken (P Q : Event → Prop) (w w' : World) :
  (∀ ev, P ev → Q ev) → emitted P w w' → emitted Q w w'.
Proof.
  intros HPQ (evs & E & F). exists evs. split; [done|].
  eapply Forall_impl; eauto.
Qed.

(** *** External calls that meet no fault *)

Lemma fault_free_S (k : nat) (w : World) :
  fault_free (S k) w = true →
  (faults w = [] ∨ ∃ rest, faults w = None :: rest) ∧
  ∀ ev, fault_free k (advance ev w) = true.
Proof.
  unfold fault_free, advance. simpl.
  destruct (faults w) as [|[err|] rest]; simpl; [|done|].
  - intros _. split; [by left|]. intros _. by destruct k.
  - intros H. split; [right; by eexists|done].
Qed.

Lemma quiet_fault_free (k : nat) (w : World) : quiet w → fault_free k w = true.
Proof. unfold quiet, fault_free. intros ->. by destruct k. Qed.

Lemma advance_quiet (ev : Event) (w : World) : quiet w → quiet (advance ev w).
Proof. unfold quiet, advance. simpl. by intros ->. Qed.

Lemma external_ok {A} (ev : Event) (run : World → A * World) (k : nat) (w : World) :
  fault_free (S k) w = true →
  external ev run w = (Returned (run (advance ev w)).1, (run (advance ev w)).2).
Proof.
  intros [[Hf|[rest Hf]] _]%fault_free_S; unfold external, advance;
    destruct w as [fs os fl ck tr]; simpl in *; subst fl; simpl;
    by destruct (run _).
Qed.

End Effects.

(** ** The retry wrapper *)

Module Retry.
Import World JsString Sandbox SyncDirect Notions Effects.

Section Loop.
Context {T : Type} (fn : M T) (delayMs : N).

Lemma retry_loop_returned (remaining attempt : nat) (le : option thrown)
    (w w' : World) (v : T) :
  fn w = (Returned v, w') →
  retry_loop fn delayMs (S remaining) attempt le w = (Returned v, w').
Proof. intros E. simpl. by apply try_catch_returned. Qed.

Lemma retry_loop_fatal (remaining attempt : nat) (le : option thrown)
    (w w' : World) (err : thrown) :
  fn w = (Threw err, w') → transient err = false →
  retry_loop fn delayMs (S remaining) attempt le w = (Threw (as_Error err), w').
Proof.
  intros E Ht. simpl. rewrite (try_catch_threw _ _ _ _ _ E).
  unfold transient in Ht. by rewrite Ht.
Qed.

Lemma retry_loop_transient (remaining attempt : nat) (le : option thrown)
    (w w' : World) (err : thrown) :
  fn w = (Threw err, w') → transient err = true →
  retry_loop fn delayMs (S remaining) attempt le w
  = retry_loop fn delayMs remaining (S attempt) (Some (as_Error err))
      (backoff delayMs attempt w').
Proof.
  intros E Ht. simpl. rewrite (try_catch_threw _ _ _ _ _ E).
  unfold transient in Ht. by rewrite Ht.
Qed.

Lemma retried_le a w le a' w' le' :
  retried fn delayMs a w le a' w' le' → a ≤ a'.
Proof. induction 1; lia. Qed.

(** After [a' - a] transient failures the loop is where it would be
    had it started at attempt [a'] with that many attempts fewer. *)
Lemma retry_loop_retried a w le a' w' le' :
  retried fn delayMs a w le a' w' le' →
  ∀ remaining,
    retry_loop fn delayMs ((a' - a) + remaining) a le w
    = retry_loop fn delayMs remaining a' le' w'.
Proof.
  induction 1 as [a w le|a w le err w1 a' w' le' E Ht Hrest IH]; intros remaining.
  - by replace (a - a + remaining) with remaining by lia.
  - pose proof (retried_le _ _ _ _ _ _ Hrest) as Hle.
    replace (a' - a + remaining) with (S ((a' - S a) + remaining)) by lia.
    rewrite (retry_loop_transient _ _ _ _ _ _ E Ht). apply IH.
Qed.

(** A failed run leaves a last error. *)
Lemma retried_last a w le a' w' le' :
  retried fn delayMs a w le a' w' le' → a < a' → is_Some le'.
Proof.
  induction 1 as [a w le|a w le err w1 a' w' le' E Ht Hrest IH]; intros Hlt; [lia|].
  inversion Hrest; subst; [by eexists|].
  apply IH. eapply Nat.lt_le_trans; [|eapply retried_le; eauto]. lia.
Qed.

End Loop.

(** C6: let the first [j] attempts of [fn] fail with the transient
    signature, with [j] at most [maxRetries]. If attempt [j + 1] exists and
    returns a value, [runWithRetry] returns that value; if it exists and
    fails with another signature, the error is thrown at once, in the world
    that attempt left, without log line, delay or further attempt; if all
    [maxRetries] attempts failed transiently, the last error is thrown. *)
Theorem runWithRetry_contract {T} (fn : M T) (maxRetries : nat) (delayMs : N)
    (w w1 : World) (j : nat) (le : option thrown) :
  retried fn delayMs 0 w None j w1 le →
  j ≤ maxRetries →
  (j < maxRetries → ∀ v w2, fn w1 = (Returned v, w2) →
     runWithRetry fn maxRetries delayMs w = (Returned v, w2)) ∧
  (j < maxRetries → ∀ err w2, fn w1 = (Threw err, w2) → transient err = false →
     runWithRetry fn maxRetries delayMs w = (Threw (as_Error err), w2)) ∧
  (j = maxRetries → 0 < maxRetries →
     ∃ last, le = Some last ∧
       runWithRetry fn maxRetries delayMs w = (Threw last, w1)).
Proof.
  intros Hret Hj. unfold runWithRetry.
  pose proof (retry_loop_retried fn delayMs _ _ _ _ _ _ Hret (maxRetries - j)) as E.
  replace (j - 0 + (maxRetries - j)) with maxRetries in E by lia.
  rewrite E. clear E. repeat split.
  - intros Hlt v w2 Ev.
    replace (maxRetries - j) with (S (maxRetries - j - 1)) by lia.
    by apply retry_loop_returned.
  - intros Hlt err w2 Ev Ht.
    replace (maxRetries - j) with (S (maxRetries - j - 1)) by lia.
    by apply retry_loop_fatal.
  - intros -> Hpos.
    destruct (retried_last fn delayMs _ _ _ _ _ _ Hret Hpos) as [last ->].
    exists last. split; [done|]. by rewrite Nat.sub_diag.
Qed.

(** The contract at a check command that meets two resets and then runs. *)
Lemma runWithRetry_contract_witness :
  let reset := Some (JsError "Network connection lost: Durable Object reset because its code was updated.") in
  let w := mkWorld ∅ ∅ [reset; reset] "2026-02-06T12:00:00.000Z" [] in
  ∃ w2, runWithRetry (startProcess CmdTestConfig) 5 3000 w
        = (Returned (mkProcess CmdTestConfig ""), w2).
Proof.
  intros reset w. eexists.
  refine (proj1 (runWithRetry_contract (startProcess CmdTestConfig) 5 3000 w _ 2 _ _ _)
            _ _ _ _).
  - eapply retried_next; [reflexivity|reflexivity|].
    eapply retried_next; [reflexivity|reflexivity|].
    apply retried_none.
  - lia.
  - lia.
  - reflexivity.
Defined.

(** A wrapped call that returns at its first attempt. *)
Lemma runWithRetry_default_returned {T} (fn : M T) (w w' : World) (v : T) :
  fn w = (Returned v, w') → runWithRetry_default fn w = (Returned v, w').
Proof. apply retry_loop_returned. Qed.

(** The wrapper adds delays and log lines only. *)
Lemma retry_loop_steady {T} (R : relation World) `{!PreOrder R} (fn : M T)
    (delayMs : N) :
  steady R fn →
  (∀ text w, R w (log_event (EvConsoleLog text) w)) →
  (∀ d w, R w (log_event (EvSleep d) w)) →
  ∀ remaining attempt le, steady R (retry_loop fn delayMs remaining attempt le).
Proof.
  intros Hfn Hlog Hsleep remaining.
  induction remaining as [|r IH]; intros attempt le; simpl.
  - apply steady_throw; done.
  - apply steady_try_catch; [done..|]. intros err.
    destruct (negb _); [by apply steady_throw|].
    apply steady_bind; [done| |]; [by apply steady_emit|]. intros _.
    apply steady_bind; [done| |]; [by apply steady_emit|]. intros _.
    apply IH.
Qed.

End Retry.

(** ** What the calls of the source leave unchanged *)

Module Frames.
Import World JsString Sandbox SyncDirect Notions Effects Retry.



Global Instance same_files_po : PreOrder same_files.
Proof. split; [done|]. intros x y z H1 H2. unfold same_files in *. congruence. Qed.

Global Instance same_objects_frame : Frame same_objects (λ _, True).
Proof. split; [apply _|done..]. Qed.

Global Instance same_files_frame : Frame same_files (λ _, True).
Proof. split; [apply _|done..]. Qed.

Lemma emitted_frame (P : Event → Prop) :
  (∀ ev, benign ev → P ev) → Frame (emitted P) P.
Proof.
  intros HP. split; [apply _| | |done].
  - intros ev w Hev. exists [ev]. split; [done|]. by constructor.
  - intros o fl w _. by exists [].
Qed.


Global Instance calm_po : PreOrder calm.
Proof.
  split; [done|]. intros x y z [H1 H2] [H3 H4]. split; [congruence|auto].
Qed.

Global Instance calm_frame : Frame calm (λ _, True).
Proof.
  split; [apply _|done| |done].
  intros o fl w Hf. split; [done|]. by rewrite Hf.
Qed.

Global Instance stays_loud_po : PreOrder stays_loud.
Proof. split; [by intros x H|]. intros x y z H1 H2 H. by apply H2, H1. Qed.

Global Instance stays_loud_frame : Frame stays_loud (λ _, True).
Proof.
  split; [apply _| | |done].
  - intros ev w _ H. exact H.
  - intros o fl w Hf. unfold stays_loud, loud_faults. simpl. rewrite Hf. simpl.
    by intros [_ H]%andb_true_iff.
Qed.

Section Primitives.
Context (R : relation World) (ok : Event → Prop) `{!Frame R ok}.

Lemma ret_ok {A} (a : A) : steady R (mret a).
Proof. apply steady_ret, _. Qed.

Lemma throw_ok {A} (err : thrown) : steady R (throw (A:=A) err).
Proof. apply steady_throw, _. Qed.

Lemma bind_ok {A B} (m : M A) (k : A → M B) :
  steady R m → (∀ a, steady R (k a)) → steady R (m ≫= k).
Proof. apply steady_bind, _. Qed.

Lemma try_ok {A} (m : M A) (h : thrown → M A) :
  steady R m → (∀ err, steady R (h err)) → steady R (try_catch m h).
Proof. apply steady_try_catch, _. Qed.

Lemma for_ok {A St} (body : A → St → M St) (l : list A) :
  (∀ x, x ∈ l → ∀ s, steady R (body x s)) → ∀ s, steady R (for_of l body s).
Proof. apply steady_for_of, _. Qed.

Lemma call_steady {A} (ev : Event) (run : World → A * World) :
  ok ev → (∀ w, R w (run w).2) → steady R (external ev run).
Proof.
  intros Hev Hrun. apply steady_external; [apply _| |apply frame_faults|done].
  intros w. by apply frame_log.
Qed.

Lemma emit_steady (ev : Event) : ok ev → steady R (emit ev).
Proof. intros Hev. apply steady_emit. intros w. by apply frame_log. Qed.

Lemma startProcess_steady (c : Command) :
  ok (EvStartProcess c) →
  (∀ fs w, R w (set_files fs w)) ∨ (∀ b p, c ≠ CmdWrite b p) →
  steady R (startProcess c).
Proof.
  intros Hev Hfs. apply call_steady; [done|]. intros w.
  destruct c as [p|d| |pd|b p]; simpl; try reflexivity.
  - destruct (files w !! p); reflexivity.
  - destruct (files w !! _); reflexivity.
  - destruct Hfs as [Hfs|Hfs]; [apply Hfs|]. by destruct (Hfs b p).
Qed.

Lemma waitForProcess_steady (proc : Process) (t : N) :
  steady R (waitForProcess proc t).
Proof. apply call_steady; [by apply frame_benign|]. intros w. reflexivity. Qed.

Lemma getLogs_steady (proc : Process) : steady R (getLogs proc).
Proof. apply call_steady; [by apply frame_benign|]. intros w. reflexivity. Qed.

Lemma get_steady (k : string) : ok (EvBucketGet k) → steady R (Bucket.get k).
Proof. intros Hev. apply call_steady; [done|]. intros w. reflexivity. Qed.

Lemma text_steady (obj : Bucket.R2Object) :
  ok EvObjectText → steady R (Bucket.text obj).
Proof. intros Hev. apply call_steady; [done|]. intros w. reflexivity. Qed.

Lemma arrayBuffer_steady (obj : Bucket.R2Object) :
  ok EvObjectArrayBuffer → steady R (Bucket.arrayBuffer obj).
Proof. intros Hev. apply call_steady; [done|]. intros w. reflexivity. Qed.

Lemma list_keys_steady : ok EvBucketList → steady R Bucket.list_keys.
Proof. intros Hev. apply call_steady; [done|]. intros w. reflexivity. Qed.

Lemma put_steady (k : string) (v : list byte) :
  ok (EvBucketPut k v) → (∀ os w, R w (set_objects os w)) →
  steady R (Bucket.put k v).
Proof. intros Hev Hos. apply call_steady; [done|]. intros w. apply Hos. Qed.

Lemma runWithRetry_default_steady {T} (fn : M T) :
  steady R fn → steady R (runWithRetry_default fn).
Proof.
  intros Hfn. apply retry_loop_steady; [apply _|done| |].
  - intros text w. by apply frame_log, frame_benign.
  - intros d w. by apply frame_log, frame_benign.
Qed.

Lemma readFileFromContainer_steady (filePath : string) :
  ok (EvStartProcess (CmdBase64 filePath)) →
  steady R (readFileFromContainer filePath).
Proof.
  intros Hev. apply try_ok.
  - apply bind_ok.
    { apply startProcess_steady; [done|]. by right. }
    intros proc. apply bind_ok; [apply waitForProcess_steady|].
    intros _. apply bind_ok; [apply getLogs_steady|].
    intros logs. cbv zeta. case_match; [apply ret_ok|].
    case_match; [apply ret_ok|apply throw_ok].
  - intros err. apply ret_ok.
Qed.

Lemma listFilesInContainer_steady (dirPath : string) :
  ok (EvStartProcess (CmdFind dirPath)) →
  steady R (listFilesInContainer dirPath).
Proof.
  intros Hev. apply try_ok.
  - apply bind_ok.
    { apply startProcess_steady; [done|]. by right. }
    intros proc. apply bind_ok; [apply waitForProcess_steady|].
    intros _. apply bind_ok; [apply getLogs_steady|].
    intros logs. cbv zeta. case_match; apply ret_ok.
  - intros err. apply ret_ok.
Qed.

Lemma getLastSyncDirect_steady (env : MoltbotEnv) :
  ok (EvBucketGet ".last-sync") → ok EvObjectText →
  steady R (getLastSyncDirect env).
Proof.
  intros Hget Htext. unfold getLastSyncDirect.
  destruct (MOLTBOT_BUCKET env); [|apply ret_ok].
  apply try_ok.
  - apply bind_ok; [by apply get_steady|].
    intros [obj|]; [|apply ret_ok].
    apply bind_ok; [by apply text_steady|].
    intros t. apply ret_ok.
  - intros err. apply ret_ok.
Qed.

Lemma checkConfig_steady :
  ok (EvStartProcess CmdTestConfig) → steady R checkConfig.
Proof.
  intros Hev. apply bind_ok.
  { apply runWithRetry_default_steady, startProcess_steady; [done|]. by right. }
  intros proc. apply bind_ok; [apply waitForProcess_steady|].
  intros _. apply getLogs_steady.
Qed.

Lemma sanityCheck_steady :
  ok (EvStartProcess CmdTestConfig) → steady R sanityCheck.
Proof.
  intros Hev. apply try_ok.
  - apply bind_ok; [by apply checkConfig_steady|].
    intros logs. case_match; apply ret_ok.
  - intros err. apply bind_ok.
    + by apply emit_steady, frame_benign.
    + intros _. apply ret_ok.
Qed.

Lemma readForUpload_steady (filePath : string) :
  ok (EvStartProcess (CmdBase64 filePath)) →
  steady R (readForUpload filePath).
Proof.
  intros Hread. apply try_ok.
  - apply bind_ok.
    + by apply runWithRetry_default_steady, readFileFromContainer_steady.
    + intros res. case_match; apply ret_ok.
  - intros err. apply ret_ok.
Qed.

Lemma backupFile_steady (filePath : string) (st : nat * list string) :
  (excluded filePath = false →
     ok (EvStartProcess (CmdBase64 filePath)) ∧
     ∀ v, ok (EvBucketPut (r2Key filePath) v)) →
  (∀ os w, R w (set_objects os w)) →
  steady R (backupFile filePath st).
Proof.
  intros Hok Hos. destruct st as [n errs]. unfold backupFile, readForUpload.
  destruct (excluded filePath); [apply ret_ok|].
  destruct Hok as [Hread Hput]; [done|].
  apply bind_ok.
  - apply try_ok.
    + apply bind_ok.
      * by apply runWithRetry_default_steady, readFileFromContainer_steady.
      * intros res. case_match; apply ret_ok.
    + intros err. apply ret_ok.
  - intros [bs|msg]; [|apply ret_ok].
    apply try_ok.
    + apply bind_ok; [by apply put_steady|].
      intros _. apply ret_ok.
    + intros err. apply ret_ok.
Qed.

Lemma backupPath_steady (basePath : string) (st : nat * list string) :
  ok (EvStartProcess (CmdFind basePath)) →
  (∀ filePath, excluded filePath = false →
     ok (EvStartProcess (CmdBase64 filePath)) ∧
     ∀ v, ok (EvBucketPut (r2Key filePath) v)) →
  (∀ os w, R w (set_objects os w)) →
  steady R (backupPath basePath st).
Proof.
  intros Hfind Hok Hos. apply bind_ok.
  - apply try_ok.
    + apply bind_ok.
      * by apply runWithRetry_default_steady, listFilesInContainer_steady.
      * intros fl. apply ret_ok.
    + intros err. apply bind_ok.
      * by apply emit_steady, frame_benign.
      * intros _. apply ret_ok.
  - intros [fl|]; [|apply ret_ok].
    apply for_ok. intros p _ s.
    apply backupFile_steady; [|done]. apply Hok.
Qed.

Lemma backupAll_steady :
  (∀ basePath, basePath ∈ BACKUP_PATHS → ok (EvStartProcess (CmdFind basePath))) →
  (∀ filePath, excluded filePath = false →
     ok (EvStartProcess (CmdBase64 filePath)) ∧
     ∀ v, ok (EvBucketPut (r2Key filePath) v)) →
  (∀ v, ok (EvBucketPut ".last-sync" v)) →
  (∀ os w, R w (set_objects os w)) →
  steady R backupAll.
Proof.
  intros Hfind Hok Hmark Hos. apply bind_ok.
  - apply for_ok. intros p Hp s.
    apply backupPath_steady; [by apply Hfind|done..].
  - intros [n errs]. apply bind_ok.
    + intros w. simpl. reflexivity.
    + intros ts. apply bind_ok.
      * apply try_ok; [by apply put_steady|].
        intros err. apply ret_ok.
      * intros _. apply ret_ok.
Qed.

Lemma syncToR2Direct_steady (env : MoltbotEnv) :
  ok (EvBucketGet ".last-sync") → ok EvObjectText →
  ok (EvStartProcess CmdTestConfig) →
  (∀ basePath, basePath ∈ BACKUP_PATHS → ok (EvStartProcess (CmdFind basePath))) →
  (∀ filePath, excluded filePath = false →
     ok (EvStartProcess (CmdBase64 filePath)) ∧
     ∀ v, ok (EvBucketPut (r2Key filePath) v)) →
  (∀ v, ok (EvBucketPut ".last-sync" v)) →
  (∀ os w, R w (set_objects os w)) →
  steady R (syncToR2Direct env).
Proof.
  intros Hget Htext Htest Hfind Hok Hmark Hos. unfold syncToR2Direct.
  destruct (MOLTBOT_BUCKET env); [|apply ret_ok].
  apply bind_ok; [by apply getLastSyncDirect_steady|].
  intros existing. case_match; [|by apply backupAll_steady].
  apply bind_ok; [by apply sanityCheck_steady|].
  intros [res|]; [apply ret_ok|by apply backupAll_steady].
Qed.

Lemma restoreObject_steady (k : string) (st : nat * list string) :
  ok (EvBucketGet k) → ok EvObjectArrayBuffer →
  (∀ c, ok (EvStartProcess c)) →
  (∀ fs w, R w (set_files fs w)) →
  steady R (restoreObject k st).
Proof.
  intros Hget Hbuf Hstart Hfs. destruct st as [n errs]. unfold restoreObject.
  destruct (String.eqb k _); [apply ret_ok|].
  destruct (containerPath k) as [p|]; [|apply ret_ok].
  apply try_ok.
  - apply bind_ok; [by apply get_steady|].
    intros [obj|]; [|apply ret_ok].
    apply bind_ok; [by apply arrayBuffer_steady|].
    intros bs. apply bind_ok.
    { apply startProcess_steady; [done|]. by left. }
    intros _. apply bind_ok.
    { apply startProcess_steady; [done|]. by left. }
    intros proc. apply bind_ok; [apply waitForProcess_steady|].
    intros _. apply ret_ok.
  - intros err. apply ret_ok.
Qed.

End Primitives.

End Frames.

(** ** Results of the backup and of the restore *)

Module Results.
Import World JsString Sandbox SyncDirect Notions Effects Retry Frames.

Lemma bind_inv {A B} (m : M A) (k : A → M B) (w w' : World) (b : B) :
  (m ≫= k) w = (Returned b, w') →
  ∃ a w1, m w = (Returned a, w1) ∧ k a w1 = (Returned b, w').
Proof.
  rewrite bind_unfold. destruct (m w) as [[a|err] w1]; [|done].
  intros E. by exists a, w1.
Qed.

Lemma ret_inv {A} (a b : A) (w w' : World) :
  (mret a : M A) w = (Returned b, w') → b = a ∧ w' = w.
Proof. intros [= -> ->]. done. Qed.

Lemma runWithRetry_default_returns {T} (fn : M T) (Q : T → Prop) :
  returns fn Q → returns (runWithRetry_default fn) Q.
Proof.
  intros Hfn w. destruct (Hfn w) as (v & w' & E & Hv).
  exists v, w'. split; [|done]. by apply runWithRetry_default_returned.
Qed.

Lemma readFileFromContainer_returns (filePath : string) :
  returns (readFileFromContainer filePath) (λ _, True).
Proof.
  apply returns_try_catch; [done|]. intros err. by apply returns_ret.
Qed.

Lemma listFilesInContainer_returns (dirPath : string) :
  returns (listFilesInContainer dirPath) (λ _, True).
Proof.
  apply returns_try_catch; [done|]. intros err. by apply returns_ret.
Qed.

Lemma getLastSyncDirect_returns (env : MoltbotEnv) :
  returns (getLastSyncDirect env) (λ _, True).
Proof.
  unfold getLastSyncDirect. destruct (MOLTBOT_BUCKET env); [|by apply returns_ret].
  apply returns_try_catch; [done|]. intros err. by apply returns_ret.
Qed.

Lemma sanityCheck_returns :
  returns sanityCheck (λ r, r = None ∨ r = Some sync_aborted).
Proof.
  apply returns_try_catch.
  - intros w r w' (logs & w1 & _ & E)%bind_inv.
    destruct (negb _); apply ret_inv in E as [-> _]; auto.
  - intros err. eapply returns_bind with (P := λ _, True).
    + intros w. by eexists _, _.
    + intros _ _. apply returns_ret. by left.
Qed.


Lemma backupFile_counted (filePath : string) (st : nat * list string) :
  returns (backupFile filePath st)
    (λ st', counted st' = counted st + eligible filePath).
Proof.
  destruct st as [n errs]. unfold backupFile, readForUpload, eligible, counted.
  destruct (excluded filePath).
  { apply returns_ret. simpl. lia. }
  eapply returns_bind with (P := λ _, True).
  - apply returns_try_catch; [done|]. intros err. by apply returns_ret.
  - intros [bs|msg] _.
    + apply returns_try_catch.
      * intros w st' w' (u & w1 & _ & E)%bind_inv.
        apply ret_inv in E as [-> _]. simpl. lia.
      * intros err. apply returns_ret. simpl. rewrite length_app. simpl. lia.
    + apply returns_ret. simpl. rewrite length_app. simpl. lia.
Qed.

Lemma sum_eligible (l : list string) :
  sum_list (eligible <$> l) = length (filter (λ p, excluded p = false) l).
Proof.
  induction l as [|p l IH]; [done|].
  rewrite fmap_cons, filter_cons. simpl sum_list. unfold eligible at 1.
  destruct (excluded p) eqn:E.
  - rewrite decide_False by done. simpl. done.
  - rewrite decide_True by done. simpl. by rewrite IH.
Qed.

Lemma backupFiles_counted (l : list string) (st : nat * list string) :
  returns (for_of l backupFile st)
    (λ st', counted st' = counted st
                          + length (filter (λ p, excluded p = false) l)).
Proof.
  eapply returns_weaken.
  - apply (returns_for_of backupFile counted eligible), backupFile_counted.
  - intros st' E. simpl in E. by rewrite <- sum_eligible.
Qed.

(** The loop over one backup root: the listing always returns, and every
    listed file that matches no exclusion suffix is counted once. *)
Lemma backupPath_counted (basePath : string) (st : nat * list string) (w : World) :
  ∃ files w0 st' w',
    runWithRetry_default (listFilesInContainer basePath) w = (Returned files, w0) ∧
    backupPath basePath st w = (Returned st', w') ∧
    for_of files backupFile st w0 = (Returned st', w') ∧
    counted st' = counted st + length (filter (λ p, excluded p = false) files).
Proof.
  destruct (runWithRetry_default_returns _ _
              (listFilesInContainer_returns basePath) w) as (files & w0 & E & _).
  destruct (backupFiles_counted files st w0) as (st' & w' & E' & Hc).
  exists files, w0, st', w'. repeat split; [done| |done..].
  unfold backupPath. rewrite bind_unfold.
  rewrite (try_catch_returned _ _ w w0 (Some files)).
  - done.
  - by rewrite (bind_returned _ _ _ _ _ E).
Qed.

Lemma backupPaths_returns (l : list string) (st : nat * list string) :
  returns (for_of l backupPath st) (λ _, True).
Proof.
  revert st. induction l as [|d l IH]; intros st w.
  - by exists st, w.
  - destruct (backupPath_counted d st w) as (files & w0 & st' & w' & _ & E & _).
    destruct (IH st' w') as (st'' & w'' & E' & _).
    exists st'', w''. split; [|done]. rewrite for_of_cons.
    by rewrite (bind_returned _ _ _ _ _ E).
Qed.

(** The marker is written, or its write fails, without effect on the
    result. *)
Lemma writeMarker_returns (timestamp : string) :
  returns (try_catch (Bucket.put ".last-sync" (String.list_byte_of_string timestamp))
             (λ _, mret tt)) (λ _, True).
Proof. apply returns_try_catch; [done|]. intros err. by apply returns_ret. Qed.

Lemma backupAll_report (w : World) :
  ∃ n errs w1 w',
    for_of BACKUP_PATHS backupPath (0, []) w = (Returned (n, errs), w1) ∧
    backupAll w = (Returned (syncReport n errs (clock w1)), w').
Proof.
  destruct (backupPaths_returns BACKUP_PATHS (0, []) w) as ([n errs] & w1 & E & _).
  destruct (writeMarker_returns (clock w1) w1) as ([] & w' & E' & _).
  exists n, errs, w1, w'. split; [done|].
  unfold backupAll. rewrite (bind_returned _ _ _ _ _ E).
  rewrite bind_unfold. simpl. rewrite bind_unfold.
  by rewrite E'.
Qed.

Lemma syncReport_success (n : nat) (errs : list string) (ts : string) :
  success (syncReport n errs ts) = negb ((n =? 0) && (0 <? length errs)).
Proof. unfold syncReport. by destruct (_ && _). Qed.

(** [syncToR2Direct] always returns a result: the not-configured failure,
    the sanity-check failure, or the report of the transfers. *)
Lemma syncToR2Direct_returns (env : MoltbotEnv) :
  returns (syncToR2Direct env)
    (λ r, r = not_configured ∨ r = sync_aborted
          ∨ ∃ n errs ts, r = syncReport n errs ts).
Proof.
  assert (Hall : returns backupAll
            (λ r, r = not_configured ∨ r = sync_aborted
                  ∨ ∃ n errs ts, r = syncReport n errs ts)).
  { intros w. destruct (backupAll_report w) as (n & errs & w1 & w' & _ & E).
    eexists _, _. split; [done|]. right. right. by eexists _, _, _. }
  unfold syncToR2Direct. destruct (MOLTBOT_BUCKET env).
  - eapply returns_bind; [apply getLastSyncDirect_returns|].
    intros existing _. destruct (from_option truthy false existing); [|done].
    eapply returns_bind; [apply sanityCheck_returns|].
    intros ab [->| ->]; [done|]. apply returns_ret. auto.
  - apply returns_ret. auto.
Qed.

(** [syncToR2Direct] with a bucket either stops at the sanity check or is
    the backup of some later world. *)
Lemma syncToR2Direct_phases (env : MoltbotEnv) (w : World) :
  is_Some (MOLTBOT_BUCKET env) →
  ∃ w1, syncToR2Direct env w = (Returned sync_aborted, w1)
        ∨ syncToR2Direct env w = backupAll w1.
Proof.
  intros [b Hb]. unfold syncToR2Direct. rewrite Hb.
  destruct (getLastSyncDirect_returns env w) as (existing & w1 & E & _).
  rewrite (bind_returned _ _ _ _ _ E).
  destruct (from_option truthy false existing); [|by exists w1; right].
  destruct (sanityCheck_returns w1) as (ab & w2 & E2 & Hab).
  rewrite (bind_returned _ _ _ _ _ E2).
  exists w2. destruct Hab as [->| ->]; [by right|by left].
Qed.



(** *** Restore *)

Lemma external_returned {A} (ev : Event) (run : World → A * World)
    (w w' : World) (a : A) :
  external ev run w = (Returned a, w') →
  ∃ w0, files w0 = files w ∧ objects w0 = objects w ∧ run w0 = (a, w').
Proof.
  unfold external. simpl.
  destruct (faults w) as [|[err|] rest].
  - destruct (run _) as [a0 w0] eqn:E. intros [= -> ->].
    by exists (log_event ev w).
  - done.
  - destruct (run _) as [a0 w0] eqn:E. intros [= -> ->].
    by exists (set_faults rest (log_event ev w)).
Qed.

Lemma get_returned (k : string) (w w' : World) (o : option Bucket.R2Object) :
  Bucket.get k w = (Returned o, w') → o = Bucket.mkObject k <$> objects w !! k.
Proof.
  intros (w0 & _ & Ho & E)%external_returned. injection E as <- _.
  by rewrite Ho.
Qed.

Lemma list_keys_returned (w w' : World) (l : list string) :
  Bucket.list_keys w = (Returned l, w') →
  l = merge_sort String.le (map_to_list (objects w)).*1 ∧ objects w' = objects w.
Proof.
  intros (w0 & _ & Ho & E)%external_returned. injection E as <- <-.
  by rewrite Ho.
Qed.

Lemma listed_key (w : World) (k : string) :
  k ∈ merge_sort String.le (map_to_list (objects w)).*1 → is_Some (objects w !! k).
Proof.
  rewrite merge_sort_Permutation. intros ([k' v] & -> & Hin)%list_elem_of_fmap.
  apply elem_of_map_to_list in Hin. by exists v.
Qed.


(** An object that the bucket holds is skipped when it is the marker or has
    no known prefix, and is counted once otherwise, as restored or as an
    error; the bucket is left as it was. *)
Lemma restoreObject_counted (k : string) (st : nat * list string) (w : World) :
  is_Some (objects w !! k) →
  ∃ st' w', restoreObject k st w = (Returned st', w') ∧
    counted st' = counted st + restored k ∧
    st.1 ≤ st'.1 ∧ objects w' = objects w.
Proof.
  intros [v Hv].
  assert (Hobj : objects (restoreObject k st w).2 = objects w).
  { by apply (restoreObject_steady same_objects (λ _, True)). }
  destruct st as [n errs]. unfold restoreObject, restored, restorable, counted in *.
  destruct (String.eqb k ".last-sync").
  { eexists _, _. split; [done|]. simpl. split; [lia|done]. }
  destruct (containerPath k) as [p|] eqn:Ep; simpl negb; simpl andb.
  2:{ eexists _, _. split; [done|]. simpl. split; [lia|done]. }
  unfold try_catch in *.
  match goal with |- context [?body w] =>
    destruct (body w) as [[st'|err] w1] eqn:E end.
  - exists st', w1. split; [done|].
    apply bind_inv in E as (o & w2 & Eg & E).
    apply get_returned in Eg. rewrite Hv in Eg. simpl in Eg. subst o.
    apply bind_inv in E as (bs & w3 & _ & E).
    apply bind_inv in E as (p1 & w4 & _ & E).
    apply bind_inv in E as (p2 & w5 & _ & E).
    apply bind_inv in E as (u & w6 & _ & E).
    apply ret_inv in E as [-> _]. simpl in *. repeat split; [lia..|done].
  - eexists _, _. split; [done|].
    simpl in *. rewrite length_app. simpl. repeat split; [lia..|done].
Qed.

Lemma sum_restored (l : list string) :
  sum_list (restored <$> l) = length (filter (λ k, restorable k = true) l).
Proof.
  induction l as [|k l IH]; [done|].
  rewrite fmap_cons, filter_cons. simpl sum_list. unfold restored at 1.
  destruct (restorable k) eqn:E.
  - rewrite decide_True by done. simpl. by rewrite IH.
  - rewrite decide_False by done. simpl. done.
Qed.

Lemma restoreObjects_counted (l : list string) (st : nat * list string) (w : World) :
  (∀ k, k ∈ l → is_Some (objects w !! k)) →
  ∃ st' w', for_of l restoreObject st w = (Returned st', w') ∧
    counted st' = counted st + length (filter (λ k, restorable k = true) l) ∧
    st.1 ≤ st'.1 ∧ objects w' = objects w.
Proof.
  rewrite <- sum_restored. revert st w.
  induction l as [|k l IH]; intros st w Hl.
  - exists st, w. split; [done|]. simpl. split; [lia|done].
  - destruct (restoreObject_counted k st w) as (st1 & w1 & E1 & Hc1 & Hn1 & Ho1).
    { apply Hl. left. }
    destruct (IH st1 w1) as (st2 & w2 & E2 & Hc2 & Hn2 & Ho2).
    { intros k' Hk'. rewrite Ho1. apply Hl. by right. }
    exists st2, w2. rewrite for_of_cons, (bind_returned _ _ _ _ _ E1).
    split; [done|]. rewrite fmap_cons. simpl sum_list.
    split; [lia|]. split; [lia|congruence].
Qed.



End Results.

(** ** Error propagation, the sanity check and the marker *)

Module Checks.
Import World JsString Sandbox SyncDirect Notions Effects Retry Frames Results.


(** *** Without a bucket *)

Lemma syncToR2Direct_not_configured (w : World) :
  syncToR2Direct (mkEnv None) w = (Returned not_configured, w).
Proof. done. Qed.

Lemma restoreFromR2Direct_not_configured (w : World) :
  restoreFromR2Direct (mkEnv None) w = (Returned not_configured, w).
Proof. done. Qed.

(** A rejection of [list()] leaves [restoreFromR2Direct] as it is. *)
Lemma restoreFromR2Direct_list_rejected (env : MoltbotEnv) (w : World)
    (err : thrown) (rest : list (option thrown)) :
  is_Some (MOLTBOT_BUCKET env) → faults w = Some err :: rest →
  restoreFromR2Direct env w
  = (Threw err, set_faults rest (log_event EvBucketList w)).
Proof.
  intros [b Hb] Hf. unfold restoreFromR2Direct. rewrite Hb.
  rewrite bind_unfold. unfold Bucket.list_keys, external. simpl.
  by rewrite Hf.
Qed.

(** C2, with the failing input: [syncToR2Direct] returns a result in every
    world, and both functions return the not-configured failure without
    any call when the binding is absent; but when the bucket rejects
    [list()], [restoreFromR2Direct] rejects with that error instead of
    returning a result. *)
Theorem restore_rejects_when_list_rejects :
  (∀ env w, ∃ r w', syncToR2Direct env w = (Returned r, w')) ∧
  (∀ w, syncToR2Direct (mkEnv None) w = (Returned not_configured, w)
        ∧ restoreFromR2Direct (mkEnv None) w = (Returned not_configured, w)) ∧
  (let env := mkEnv (Some TheBucket) in
   let w := mkWorld ∅ ∅ [Some (JsError "Network connection lost.")]
              "2026-02-06T12:00:00.000Z" [] in
   (restoreFromR2Direct env w).1 = Threw (JsError "Network connection lost.")).
Proof.
  split; [|split].
  - intros env w. destruct (syncToR2Direct_returns env w) as (r & w' & E & _).
    by exists r, w'.
  - done.
  - done.
Qed.

(** *** The sanity check *)

Lemma external_threw {A} (ev : Event) (run : World → A * World)
    (w w' : World) (err : thrown) :
  external ev run w = (Threw err, w') →
  files w' = files w ∧ objects w' = objects w.
Proof.
  unfold external. simpl.
  destruct (faults w) as [|[e|] rest].
  - by destruct (run _).
  - by intros [= _ <-].
  - by destruct (run _).
Qed.

(** A process that the retry loop hands back was run by the sandbox on the
    files and objects the loop started from. *)
Lemma retry_loop_startProcess (c : Command) (delayMs : N)
    (remaining attempt : nat) (le : option thrown) (w w' : World) (proc : Process) :
  retry_loop (startProcess c) delayMs remaining attempt le w = (Returned proc, w') →
  ∃ w0, files w0 = files w ∧ objects w0 = objects w ∧ run_command c w0 = (proc, w').
Proof.
  revert attempt le w. induction remaining as [|r IH]; intros attempt le w; [done|].
  simpl. unfold try_catch.
  destruct (startProcess c w) as [[p|err] w1] eqn:E.
  - intros [= -> ->]. by apply external_returned in E.
  - apply external_threw in E as [Hf Ho].
    destruct (negb _); [done|].
    intros (w0 & Hf0 & Ho0 & Hrun)%IH. exists w0. simpl in *.
    split; [congruence|]. split; [congruence|done].
Qed.

Lemma checkConfig_returned (w w' : World) (logs : Logs) :
  checkConfig w = (Returned logs, w') →
  stdout logs = match files w !! "/root/.clawdbot/clawdbot.json" with
                | Some _ => "ok" +:+ nl
                | None => ""
                end.
Proof.
  intros (proc & w1 & Ep & E)%bind_inv.
  apply bind_inv in E as (u & w2 & _ & E).
  apply external_returned in E as (w3 & _ & _ & [= <- _]).
  apply retry_loop_startProcess in Ep as (w0 & Hf & _ & Hrun).
  simpl in Hrun. rewrite Hf in Hrun.
  destruct (files w !! _); by injection Hrun as <- _.
Qed.

Lemma getLastSyncDirect_absent (env : MoltbotEnv) (w w' : World) (existing : option string) :
  objects w !! ".last-sync" = None →
  getLastSyncDirect env w = (Returned existing, w') → existing = None.
Proof.
  intros Hm. unfold getLastSyncDirect. destruct (MOLTBOT_BUCKET env).
  - unfold try_catch.
    destruct (Bucket.get ".last-sync" w) as [[o|err] w1] eqn:Eg.
    + rewrite (bind_returned _ _ _ _ _ Eg).
      apply get_returned in Eg. rewrite Hm in Eg. subst o.
      by intros [= <- _].
    + rewrite (bind_threw _ _ _ _ _ Eg). by intros [= <- _].
  - by intros [= <- _].
Qed.

Lemma getLastSyncDirect_present (env : MoltbotEnv) (w : World) (bs : list byte) :
  is_Some (MOLTBOT_BUCKET env) → fault_free 2 w = true →
  objects w !! ".last-sync" = Some bs →
  getLastSyncDirect env w
  = (Returned (Some (String.string_of_list_byte bs)),
     advance EvObjectText (advance (EvBucketGet ".last-sync") w)).
Proof.
  intros [b Hb] H Hm. unfold getLastSyncDirect. rewrite Hb.
  apply try_catch_returned.
  rewrite (bind_returned _ _ w (advance (EvBucketGet ".last-sync") w)
             (Some (Bucket.mkObject ".last-sync" bs))).
  2:{ unfold Bucket.get. rewrite (external_ok _ _ 1) by done. simpl. by rewrite Hm. }
  apply fault_free_S in H as [_ H]. specialize (H (EvBucketGet ".last-sync")).
  rewrite (bind_returned _ _ _ (advance EvObjectText (advance (EvBucketGet ".last-sync") w))
             (String.string_of_list_byte bs)); [done|].
  unfold Bucket.text. by rewrite (external_ok _ _ 0).
Qed.

Lemma truthy_text (bs : list byte) :
  truthy (String.string_of_list_byte bs) = true ↔ bs ≠ [].
Proof. by destruct bs. Qed.

Lemma not_put_frame : Frame (emitted (λ ev, ¬ is_put ev)) (λ ev, ¬ is_put ev).
Proof. apply emitted_frame. by intros [] Hb Hp. Qed.

Lemma not_check_frame :
  Frame (emitted (λ ev, ev ≠ EvStartProcess CmdTestConfig))
        (λ ev, ev ≠ EvStartProcess CmdTestConfig).
Proof. apply emitted_frame. by intros [] Hb Hp. Qed.

Lemma emitted_set_objects (P : Event → Prop) os w : emitted P w (set_objects os w).
Proof. by exists []. Qed.

Lemma emitted_set_files (P : Event → Prop) fs w : emitted P w (set_files fs w).
Proof. by exists []. Qed.



(** *** The marker *)

Lemma writeMarker_spec (ts : list byte) (w : World) :
  ∃ w', try_catch (Bucket.put ".last-sync" ts) (λ _, mret tt) w = (Returned tt, w') ∧
    trace w' = EvBucketPut ".last-sync" ts :: trace w ∧
    (faults w = [] → objects w' !! ".last-sync" = Some ts).
Proof.
  unfold try_catch, Bucket.put, external. simpl.
  destruct (faults w) as [|[err|] rest]; simpl; eexists; (split; [done|]);
    (split; [done|]); try done.
  intros _. apply lookup_insert_eq.
Qed.

Lemma backupPaths_calm (l : list string) (st : nat * list string) :
  steady calm (for_of l backupPath st).
Proof.
  apply (for_ok calm (λ _, True)). intros d _ s.
  apply (backupPath_steady calm (λ _, True)); done.
Qed.

Lemma backupAll_marker (w : World) :
  ∃ n errs w',
    backupAll w = (Returned (syncReport n errs (clock w)), w') ∧
    (∃ tr, trace w' = EvBucketPut ".last-sync" (marker_bytes (clock w)) :: tr) ∧
    (faults w = [] → objects w' !! ".last-sync" = Some (marker_bytes (clock w))).
Proof.
  destruct (backupAll_report w) as (n & errs & w1 & w' & E1 & E2).
  pose proof (backupPaths_calm BACKUP_PATHS (0, []) w) as [Hc Hf].
  rewrite E1 in Hc, Hf. simpl in Hc, Hf.
  destruct (writeMarker_spec (marker_bytes (clock w1)) w1) as (w2 & E3 & Ht & Ho).
  assert (w' = w2) as ->.
  { unfold backupAll in E2. rewrite (bind_returned _ _ _ _ _ E1) in E2.
    rewrite bind_unfold in E2. simpl in E2. rewrite bind_unfold in E2.
    unfold marker_bytes in E3. rewrite E3 in E2. by injection E2. }
  rewrite Hc in *. exists n, errs, w2. split; [done|]. split; [by eexists|].
  intros H. by apply Ho, Hf.
Qed.

Lemma syncToR2Direct_checked (env : MoltbotEnv) (w : World) :
  is_Some (MOLTBOT_BUCKET env) →
  ∃ w1, objects w1 = objects w ∧ calm w w1 ∧
    (syncToR2Direct env w = (Returned sync_aborted, w1)
     ∨ syncToR2Direct env w = backupAll w1).
Proof.
  intros [b Hb]. unfold syncToR2Direct. rewrite Hb.
  destruct (getLastSyncDirect_returns env w) as (existing & w1 & E & _).
  pose proof (getLastSyncDirect_steady same_objects (λ _, True) env I I w) as Ho.
  pose proof (getLastSyncDirect_steady calm (λ _, True) env I I w) as Hc.
  rewrite E in Ho, Hc. simpl in Ho, Hc.
  rewrite (bind_returned _ _ _ _ _ E).
  destruct (from_option truthy false existing); [|by exists w1; auto].
  destruct (sanityCheck_returns w1) as (ab & w2 & E2 & Hab).
  pose proof (sanityCheck_steady same_objects (λ _, True) I w1) as Ho2.
  pose proof (sanityCheck_steady calm (λ _, True) I w1) as Hc2.
  rewrite E2 in Ho2, Hc2. simpl in Ho2, Hc2.
  rewrite (bind_returned _ _ _ _ _ E2).
  exists w2. split; [unfold same_objects in *; congruence|].
  split; [by etrans|].
  destruct Hab as [->| ->]; [by right|by left].
Qed.

Lemma syncReport_not_early (n : nat) (errs : list string) (ts : string) :
  syncReport n errs ts ≠ not_configured ∧ syncReport n errs ts ≠ sync_aborted.
Proof. unfold syncReport. by destruct (_ && _). Qed.

(** One call: an early failure leaves the bucket as it was; any other
    result comes after an attempt to write the marker, which is stored when
    no fault is scheduled. *)
Lemma syncToR2Direct_marker (env : MoltbotEnv) (w : World) :
  ∃ r w', syncToR2Direct env w = (Returned r, w') ∧
    ((r = not_configured ∨ r = sync_aborted) → objects w' = objects w) ∧
    (r ≠ not_configured → r ≠ sync_aborted →
       (∃ tr, trace w' = EvBucketPut ".last-sync" (marker_bytes (clock w)) :: tr) ∧
       (faults w = [] →
          objects w' !! ".last-sync" = Some (marker_bytes (clock w)))).
Proof.
  destruct (MOLTBOT_BUCKET env) as [b|] eqn:Hb.
  - destruct (syncToR2Direct_checked env w) as (w1 & Ho & [Hc Hf] & [E|E]);
      [by eexists|..].
    + exists sync_aborted, w1. split; [done|]. split; [done|]. by intros _ [].
    + destruct (backupAll_marker w1) as (n & errs & w' & E' & Ht & Hm).
      rewrite Hc in *.
      destruct (syncReport_not_early n errs (clock w)) as [Hn1 Hn2].
      exists (syncReport n errs (clock w)), w'. split; [by rewrite E|].
      split; [by intros [|]|]. intros _ _. split; [done|].
      intros H. by apply Hm, Hf.
  - exists not_configured, w. unfold syncToR2Direct. rewrite Hb.
    split; [done|]. split; [done|]. by intros [].
Qed.

(** C3, as amended: a call that returns the not-configured failure or the
    sanity failure leaves the bucket as it was; every other call, its
    success flag being true or false, ends with an attempt to write the
    marker, which is stored when no fault is scheduled. Hence after any
    sequence of calls on a bucket that had no marker, the marker is there
    only if one of the calls got past both checks. *)
Theorem marker_written_after_every_backup :
  (∀ env w, ∃ r w', syncToR2Direct env w = (Returned r, w') ∧
     ((r = not_configured ∨ r = sync_aborted) → objects w' = objects w) ∧
     (r ≠ not_configured → r ≠ sync_aborted →
        (∃ tr, trace w' = EvBucketPut ".last-sync" (marker_bytes (clock w)) :: tr) ∧
        (faults w = [] →
           objects w' !! ".last-sync" = Some (marker_bytes (clock w))))) ∧
  (∀ env bs w,
     objects w !! ".last-sync" = None →
     is_Some (objects (sync_calls env bs w).2 !! ".last-sync") →
     ∃ r, Returned r ∈ (sync_calls env bs w).1
          ∧ r ≠ not_configured ∧ r ≠ sync_aborted).
Proof.
  split; [apply syncToR2Direct_marker|].
  intros env bs. induction bs as [|b bs IH]; intros w Hnone Hsome.
  - simpl in Hsome. rewrite Hnone in Hsome. by destruct Hsome.
  - simpl in *.
    destruct (syncToR2Direct_marker env (prepare b w)) as (r & w1 & E & Hearly & _).
    rewrite E in *.
    destruct (sync_calls env bs w1) as [rs w2] eqn:Ecalls. simpl in *.
    destruct (decide (r = not_configured ∨ r = sync_aborted)) as [Hr|Hr].
    + destruct (IH w1) as (r' & Hin & Hr').
      { rewrite (Hearly Hr). exact Hnone. }
      { by rewrite Ecalls. }
      exists r'. rewrite Ecalls in Hin. split; [by right|done].
    + exists r. split; [by left|]. split; intros ->; apply Hr; auto.
Qed.

(** C3, as stated, fails: the only file is empty, so that the one transfer
    attempted fails and the call returns success false, and yet the call
    has stored the marker in a bucket that had none. *)
Lemma marker_written_by_failed_backup :
  let env := mkEnv (Some TheBucket) in
  let w := mkWorld (list_to_map [("/root/.clawdbot/clawdbot.json", [])]) ∅ []
             "2026-02-06T12:00:00.000Z" [] in
  ∃ r w', syncToR2Direct env w = (Returned r, w') ∧
    success r = false ∧
    details r = Some "/root/.clawdbot/clawdbot.json: File not found" ∧
    objects w !! ".last-sync" = None ∧
    objects w' !! ".last-sync" = Some (marker_bytes "2026-02-06T12:00:00.000Z").
Proof. intros env w. eexists _, _. split; [vm_compute; reflexivity|]. by vm_compute. Qed.

(** The amended claim on that input: the marker was stored by a call that
    got past both checks. *)
Lemma marker_written_after_every_backup_witness :
  let env := mkEnv (Some TheBucket) in
  let b := mkBetween (list_to_map [("/root/.clawdbot/clawdbot.json", [])]) []
             "2026-02-06T12:00:00.000Z" in
  let w := mkWorld ∅ ∅ [] "" [] in
  ∃ r, Returned r ∈ (sync_calls env [b] w).1
       ∧ r ≠ not_configured ∧ r ≠ sync_aborted.
Proof.
  intros env b w.
  apply (proj2 marker_written_after_every_backup env [b] w).
  - reflexivity.
  - eexists. vm_compute. reflexivity.
Defined.

End Checks.

(** ** Base64 *)

Module Base64Facts.
Import JsString Base64 Notions.


Lemma list_ind3 {A} (P : list A → Prop) :
  P [] → (∀ a, P [a]) → (∀ a b, P [a; b]) →
  (∀ a b c l, P l → P (a :: b :: c :: l)) →
  ∀ l, P l.
Proof.
  intros H0 H1 H2 H3.
  assert (H : ∀ l, P l ∧ (∀ a, P (a :: l)) ∧ (∀ a b, P (a :: b :: l))).
  { induction l as [|x l (IH0 & IH1 & IH2)]; [by auto|].
    split; [apply IH1|]. split; [intros a; apply IH2|]. intros a b. by apply H3. }
  intros l. apply H.
Qed.

Ltac euclid := zify; Z.to_euclidean_division_equations; lia.

Lemma byte_bound (a : byte) : (Byte.to_N a < 256)%N.
Proof. pose proof (Byte.to_N_bounded a). lia. Qed.

Lemma byte_of_to_N (a : byte) : byte_of (Byte.to_N a) = a.
Proof. unfold byte_of. by rewrite Byte.of_to_N. Qed.

Lemma b64val_b64char (n : N) : (n < 64)%N → b64val (b64char n) = Some n.
Proof.
  intros Hn.
  assert (H : forallb (λ i, bool_decide (b64val (b64char (N.of_nat i))
                                        = Some (N.of_nat i))) (seq 0 64) = true).
  { vm_compute. reflexivity. }
  rewrite forallb_forall in H. specialize (H (N.to_nat n)).
  rewrite N2Nat.id in H.
  assert (Hin : In (N.to_nat n) (seq 0 64)) by (apply in_seq; lia).
  apply H in Hin. by apply bool_decide_eq_true_1 in Hin.
Qed.

Lemma b64char_cases (n : N) : b64char n ∈ pad :: alphabet.
Proof.
  unfold b64char. destruct (nth_in_or_default (N.to_nat n) alphabet pad) as [H| ->].
  - right. by apply list_elem_of_In.
  - left.
Qed.

Lemma b64char_not_pad (n : N) : (n < 64)%N → Ascii.eqb (b64char n) pad = false.
Proof.
  intros Hn. apply Ascii.eqb_neq. intros E.
  pose proof (b64val_b64char n Hn) as H. by rewrite E in H.
Qed.

Lemma encode_chars (bs : list byte) : Forall (λ c, c ∈ pad :: alphabet) (encode bs).
Proof.
  induction bs as [|a|a b|a b c l IH] using list_ind3; simpl;
    repeat (constructor; [first [apply b64char_cases|by left]|]); done.
Qed.

Lemma encode_plain (bs : list byte) :
  Forall (λ c, Ascii.is_space c = false) (encode bs).
Proof.
  eapply Forall_impl; [apply encode_chars|]. intros c Hc.
  assert (H : forallb (λ c, negb (Ascii.is_space c)) (pad :: alphabet) = true).
  { vm_compute. reflexivity. }
  rewrite forallb_forall in H. apply negb_true_iff, H. by apply list_elem_of_In.
Qed.

Lemma sextets_bound (bs : list byte) : Forall (λ v, (v < 64)%N) (sextets bs).
Proof.
  induction bs as [|a|a b|a b c l IH] using list_ind3; simpl;
    repeat (constructor;
            [pose proof (byte_bound a); try pose proof (byte_bound b);
             try pose proof (byte_bound c); euclid|]); done.
Qed.

Lemma strip_pad_chars (vs : list N) :
  Forall (λ v, (v < 64)%N) vs → strip_pad (b64char <$> vs) = b64char <$> vs.
Proof.
  induction 1 as [|v vs Hv Hvs IH]; [done|].
  rewrite fmap_cons. simpl. rewrite b64char_not_pad by done. by rewrite IH.
Qed.

Lemma strip_pad_cons (v : N) (cs : list ascii) :
  (v < 64)%N → strip_pad (b64char v :: cs) = b64char v :: strip_pad cs.
Proof. intros Hv. simpl. by rewrite b64char_not_pad. Qed.

Lemma strip_pad_encode (bs : list byte) :
  strip_pad (encode bs) = b64char <$> sextets bs.
Proof.
  induction bs as [|a|a b|a b c l IH] using list_ind3.
  - done.
  - pose proof (sextets_bound [a]) as H. simpl in H.
    apply Forall_cons in H as [H1 H]. apply Forall_cons in H as [H2 _].
    simpl encode. rewrite !strip_pad_cons by done. done.
  - pose proof (sextets_bound [a; b]) as H. simpl in H.
    apply Forall_cons in H as [H1 H]. apply Forall_cons in H as [H2 H].
    apply Forall_cons in H as [H3 _].
    simpl encode. rewrite !strip_pad_cons by done. done.
  - pose proof (sextets_bound (a :: b :: c :: l)) as H. simpl in H.
    apply Forall_cons in H as [H1 H]. apply Forall_cons in H as [H2 H].
    apply Forall_cons in H as [H3 H]. apply Forall_cons in H as [H4 _].
    simpl encode. rewrite !strip_pad_cons by done. rewrite IH. done.
Qed.

Lemma mapM_b64val (vs : list N) :
  Forall (λ v, (v < 64)%N) vs → mapM b64val (b64char <$> vs) = Some vs.
Proof.
  induction 1 as [|v vs Hv Hvs IH]; [done|].
  rewrite fmap_cons. simpl. rewrite b64val_b64char by done. simpl.
  by rewrite IH.
Qed.

Lemma pack_sextets (bs : list byte) : pack (sextets bs) = bs.
Proof.
  induction bs as [|a|a b|a b c l IH] using list_ind3.
  - done.
  - simpl. f_equal. rewrite <- (byte_of_to_N a) at 3. f_equal.
    pose proof (byte_bound a). euclid.
  - simpl. pose proof (byte_bound a). pose proof (byte_bound b).
    f_equal; [|f_equal].
    + rewrite <- (byte_of_to_N a) at 3. f_equal. euclid.
    + rewrite <- (byte_of_to_N b) at 3. f_equal. euclid.
  - change (sextets (a :: b :: c :: l)) with
      (let a := Byte.to_N a in
       let b := Byte.to_N b in
       let c := Byte.to_N c in
       (a / 4 :: (a mod 4) * 16 + b / 16 :: (b mod 16) * 4 + c / 64 :: c mod 64
        :: sextets l)%N).
    cbv zeta. cbn [pack]. rewrite IH.
    pose proof (byte_bound a). pose proof (byte_bound b). pose proof (byte_bound c).
    f_equal; [|f_equal; [|f_equal]].
    + rewrite <- (byte_of_to_N a) at 3. f_equal. euclid.
    + rewrite <- (byte_of_to_N b) at 3. f_equal. euclid.
    + rewrite <- (byte_of_to_N c) at 3. f_equal. euclid.
Qed.

Lemma length_encode (bs : list byte) : ∃ k, length (encode bs) = 4 * k.
Proof.
  induction bs as [|a|a b|a b c l [k IH]] using list_ind3.
  - by exists 0.
  - by exists 1.
  - by exists 1.
  - exists (S k). simpl. rewrite IH. lia.
Qed.

Lemma length_sextets (bs : list byte) :
  ∃ k r, length (sextets bs) = 4 * k + r ∧ (r = 0 ∨ r = 2 ∨ r = 3).
Proof.
  induction bs as [|a|a b|a b c l (k & r & IH & Hr)] using list_ind3.
  - exists 0, 0. auto.
  - exists 0, 2. auto.
  - exists 0, 3. auto.
  - exists (S k), r. split; [|done]. simpl. rewrite IH. lia.
Qed.

(** Decoding an encoding gives the bytes back. *)
Lemma decode_encode (bs : list byte) : decode (encode bs) = Some bs.
Proof.
  unfold decode.
  assert (Hf : filter (λ c, Ascii.is_space c = false) (encode bs) = encode bs).
  { pose proof (encode_plain bs) as H.
    induction H as [|c cs Hc Hcs IH]; [done|].
    rewrite filter_cons, decide_True by done. by rewrite IH. }
  rewrite Hf. destruct (length_encode bs) as [k ->].
  replace (4 * k) with (k * 4) by lia. rewrite Nat.Div0.mod_mul.
  rewrite Nat.eqb_refl. cbv iota zeta.
  rewrite strip_pad_encode, length_fmap.
  destruct (length_sextets bs) as (q & r & -> & Hr).
  replace (4 * q + r) with (r + q * 4) by lia. rewrite Nat.Div0.mod_add.
  assert ((r mod 4 =? 1) = false) as ->.
  { by destruct Hr as [->|[->| ->]]. }
  rewrite mapM_b64val by apply sextets_bound. simpl.
  by rewrite pack_sextets.
Qed.

End Base64Facts.

(** ** What the sandbox prints and what the source reads from it *)

Module Transport.
Import JsString JsStringFacts Base64 Base64Facts Sandbox SyncDirect Notions.


Lemma chars_cons (c : ascii) (s : string) : chars (String c s) = c :: chars s.
Proof. done. Qed.

Lemma filter_plain_cons (c : ascii) (cs : list ascii) :
  filter plain (c :: cs)
  = if Ascii.is_space c then filter plain cs else c :: filter plain cs.
Proof. rewrite filter_cons. destruct (Ascii.is_space c); by simplify_eq. Qed.

(** Trimming removes white space only. *)
Lemma filter_trimStart (s : string) :
  filter plain (chars (trimStart s)) = filter plain (chars s).
Proof.
  induction s as [|c s IH]; [done|]. simpl trimStart.
  rewrite (chars_cons c s), filter_plain_cons.
  destruct (Ascii.is_space c) eqn:E; [done|].
  by rewrite chars_cons, filter_plain_cons, E.
Qed.

Lemma filter_trimEnd (s : string) :
  filter plain (chars (trimEnd s)) = filter plain (chars s).
Proof.
  induction s as [|c s IH]; [done|]. simpl trimEnd.
  rewrite (chars_cons c s), filter_plain_cons, <- IH.
  destruct (trimEnd s) as [|d t].
  - destruct (Ascii.is_space c) eqn:E; [done|].
    by rewrite chars_cons, filter_plain_cons, E.
  - by rewrite chars_cons, filter_plain_cons.
Qed.

Lemma filter_trim (s : string) :
  filter plain (chars (trim s)) = filter plain (chars s).
Proof. unfold trim. by rewrite filter_trimEnd, filter_trimStart. Qed.

Lemma filter_plain_id (cs : list ascii) :
  Forall plain cs → filter plain cs = cs.
Proof.
  induction 1 as [|c cs Hc Hcs IH]; [done|].
  by rewrite filter_plain_cons, Hc, IH.
Qed.

Lemma filter_wrap (col : nat) (cs : list ascii) :
  Forall plain cs → filter plain (wrap col cs) = cs.
Proof.
  intros H. revert col. induction H as [|c cs Hc Hcs IH]; intros col.
  - by destruct col.
  - simpl. destruct (col =? 76).
    + rewrite filter_plain_cons. change (Ascii.is_space lf) with true. cbv iota.
      by rewrite filter_plain_cons, Hc, IH.
    + by rewrite filter_plain_cons, Hc, IH.
Qed.

Lemma decode_filter (cs cs' : list ascii) :
  filter plain cs = filter plain cs' → decode cs = decode cs'.
Proof. unfold decode. by intros ->. Qed.

Lemma atob_btoa (bs : list byte) : atob (btoa bs) = Some bs.
Proof.
  unfold atob, btoa. rewrite String.list_ascii_of_string_of_list_ascii.
  apply decode_encode.
Qed.

Lemma filter_cli_encode (bs : list byte) :
  filter plain (chars (trim (cli_encode bs))) = encode bs.
Proof.
  rewrite filter_trim. unfold cli_encode.
  rewrite String.list_ascii_of_string_of_list_ascii.
  apply filter_wrap, encode_plain.
Qed.

(** What [readFileFromContainer] decodes from the output of [base64]. *)
Lemma atob_cli_encode (bs : list byte) : atob (trim (cli_encode bs)) = Some bs.
Proof.
  unfold atob. rewrite <- (decode_encode bs).
  apply decode_filter. rewrite filter_cli_encode.
  symmetry. apply filter_plain_id, encode_plain.
Qed.

Lemma encode_nil (bs : list byte) : encode bs = [] → bs = [].
Proof. by destruct bs as [|a [|b [|c l]]]. Qed.

Lemma cli_encode_truthy (bs : list byte) :
  bs ≠ [] → truthy (trim (cli_encode bs)) = true.
Proof.
  intros Hbs. pose proof (filter_cli_encode bs) as H.
  destruct (trim (cli_encode bs)); [|done].
  symmetry in H. by apply encode_nil in H.
Qed.

Lemma cli_encode_not_sentinel (bs : list byte) :
  String.eqb (trim (cli_encode bs)) "FILE_NOT_FOUND" = false.
Proof.
  apply String.eqb_neq. intros E.
  pose proof (filter_cli_encode bs) as H. rewrite E in H.
  pose proof (encode_chars bs) as Hc. rewrite <- H in Hc.
  assert (Hbad : forallb (λ c, bool_decide (c ∈ pad :: alphabet))
                   (filter plain (chars "FILE_NOT_FOUND")) = false).
  { vm_compute. reflexivity. }
  apply not_true_iff_false in Hbad. apply Hbad.
  apply forallb_forall. intros c Hin. apply bool_decide_eq_true_2.
  rewrite Forall_forall in Hc. by apply Hc, list_elem_of_In.
Qed.

(** *** The listing *)

Lemma app_nil_r (s : string) : s +:+ "" = s.
Proof. induction s as [|c s IH]; [done|]. by rewrite app_cons, IH. Qed.

Lemma app_assoc (s t u : string) : (s +:+ t) +:+ u = s +:+ t +:+ u.
Proof. induction s as [|c s IH]; [done|]. by rewrite !app_cons, IH. Qed.

Lemma trimStart_plain (s : string) : starts_plain s = true → trimStart s = s.
Proof.
  destruct s as [|c s]; [done|]. simpl. intros H%negb_true_iff. by rewrite H.
Qed.

Lemma trimEnd_plain (s : string) : ends_plain s = true → trimEnd s = s.
Proof.
  induction s as [|c s IH]; [done|]. simpl.
  destruct s as [|d s].
  - intros H%negb_true_iff. by rewrite H.
  - intros H. rewrite (IH H). done.
Qed.

Lemma trimEnd_app (s t : string) :
  trimEnd (s +:+ t)
  = match trimEnd t with
    | "" => trimEnd s
    | t' => s +:+ t'
    end.
Proof.
  induction s as [|c s IH].
  - rewrite app_nil_l. by destruct (trimEnd t).
  - rewrite app_cons. simpl trimEnd. rewrite IH.
    destruct (trimEnd t) as [|d t']; [done|].
    rewrite app_cons. by destruct s.
Qed.

Lemma lines_cons (p : string) (l : list string) :
  lines (p :: l) = p +:+ nl +:+ lines l.
Proof. done. Qed.

Lemma join_cons (sep p q : string) (l : list string) :
  join sep (p :: q :: l) = p +:+ sep +:+ join sep (q :: l).
Proof. done. Qed.

Lemma join_truthy (sep p : string) (l : list string) :
  starts_plain p = true → truthy (join sep (p :: l)) = true.
Proof.
  intros Hp. destruct p as [|c p]; [done|].
  destruct l; [done|]. by rewrite join_cons, app_cons.
Qed.

Lemma trimEnd_lines (p : string) (l : list string) :
  Forall (λ q, line_safe q = true) (p :: l) →
  trimEnd (lines (p :: l)) = join nl (p :: l).
Proof.
  revert p. induction l as [|q l IH]; intros p Hl.
  - apply Forall_cons in Hl as [[[_ Hp]%andb_true_iff _]%andb_true_iff _].
    rewrite lines_cons, trimEnd_app. simpl. by apply trimEnd_plain.
  - apply Forall_cons in Hl as [_ Hl].
    rewrite lines_cons, trimEnd_app, trimEnd_app, (IH q Hl).
    pose proof (join_truthy nl q l) as Hj.
    apply Forall_cons in Hl as [[[Hq _]%andb_true_iff _]%andb_true_iff _].
    specialize (Hj Hq). rewrite join_cons.
    destruct (join nl (q :: l)); [done|]. done.
Qed.

Lemma trim_lines (p : string) (l : list string) :
  Forall (λ q, line_safe q = true) (p :: l) →
  trim (lines (p :: l)) = join nl (p :: l).
Proof.
  intros Hl. unfold trim. rewrite trimStart_plain; [by apply trimEnd_lines|].
  apply Forall_cons in Hl as [[[Hp _]%andb_true_iff _]%andb_true_iff _].
  rewrite lines_cons. destruct p; [done|]. by rewrite app_cons.
Qed.

Lemma split_nonnil (sep : ascii) (s : string) : split sep s ≠ [].
Proof.
  induction s as [|c s IH]; [done|]. simpl.
  destruct (Ascii.eqb c sep); [done|]. by destruct (split sep s).
Qed.

Lemma split_one_line (p t : string) :
  one_line p = true →
  split lf (p +:+ t)
  = match split lf t with
    | h :: tl => (p +:+ h) :: tl
    | [] => [p]
    end.
Proof.
  induction p as [|c p IH]; intros Hp.
  - rewrite app_nil_l. destruct (split lf t) eqn:E; [|done].
    by apply split_nonnil in E.
  - simpl in Hp. apply andb_true_iff in Hp as [Hc%negb_true_iff Hp].
    rewrite app_cons. simpl split. rewrite Hc, (IH Hp).
    by destruct (split lf t).
Qed.

Lemma split_lf (t : string) : split lf (String lf t) = "" :: split lf t.
Proof. done. Qed.

Lemma split_join (p : string) (l : list string) :
  Forall (λ q, line_safe q = true) (p :: l) →
  split lf (join nl (p :: l)) = p :: l.
Proof.
  revert p. induction l as [|q l IH]; intros p Hl.
  - apply Forall_cons in Hl as [[_ Hp]%andb_true_iff _].
    simpl join. rewrite <- (app_nil_r p) at 1.
    rewrite (split_one_line p "" Hp). simpl. by rewrite app_nil_r.
  - apply Forall_cons in Hl as [[_ Hp]%andb_true_iff Hl].
    rewrite join_cons, (split_one_line p _ Hp).
    change (nl +:+ join nl (q :: l)) with (String lf (join nl (q :: l))).
    rewrite split_lf, (IH q Hl). by rewrite app_nil_r.
Qed.

(** What [listFilesInContainer] reads from the output of [find]. *)
Lemma listing_parsed (l : list string) :
  Forall (λ q, line_safe q = true) l →
  (if truthy (trim (lines l))
   then filter (λ f, (0 <? String.length f) = true) (split lf (trim (lines l)))
   else []) = l.
Proof.
  intros Hl. destruct l as [|p l]; [done|].
  rewrite (trim_lines p l Hl), (join_truthy nl p l), (split_join p l Hl).
  - clear -Hl. induction Hl as [|q l' Hq Hl IH]; [done|].
    rewrite filter_cons, decide_True, IH; [done|].
    apply andb_true_iff in Hq as [[Hq _]%andb_true_iff _]. by destruct q.
  - by apply Forall_cons in Hl as [[[Hp _]%andb_true_iff _]%andb_true_iff _].
Qed.

End Transport.

(** ** Calls that meet no fault *)

Module FaultFree.
Import World JsString Sandbox SyncDirect Notions Effects Retry Frames Results Checks.
Import Base64 Base64Facts Transport.


Lemma startProcess_base64_ok (filePath : string) (k : nat) (w : World) :
  fault_free (S k) w = true →
  startProcess (CmdBase64 filePath) w
  = (Returned (mkProcess (CmdBase64 filePath)
                 (match files w !! filePath with
                  | Some bs => cli_encode bs
                  | None => "FILE_NOT_FOUND" +:+ nl
                  end)),
     advance (EvStartProcess (CmdBase64 filePath)) w).
Proof.
  intros H. unfold startProcess. rewrite (external_ok _ _ k) by done.
  simpl. by destruct (files w !! filePath).
Qed.

Lemma startProcess_find_ok (dirPath : string) (k : nat) (w : World) :
  fault_free (S k) w = true →
  startProcess (CmdFind dirPath) w
  = (Returned (mkProcess (CmdFind dirPath) (lines (find_files dirPath (files w)))),
     advance (EvStartProcess (CmdFind dirPath)) w).
Proof. intros H. unfold startProcess. by rewrite (external_ok _ _ k). Qed.

Lemma waitForProcess_ok (proc : Process) (t : N) (k : nat) (w : World) :
  fault_free (S k) w = true →
  waitForProcess proc t w = (Returned tt, advance (EvWaitForProcess t) w).
Proof. intros H. unfold waitForProcess. by rewrite (external_ok _ _ k). Qed.

Lemma getLogs_ok (proc : Process) (k : nat) (w : World) :
  fault_free (S k) w = true →
  getLogs proc w = (Returned (mkLogs (output proc)), advance EvGetLogs w).
Proof. intros H. unfold getLogs. by rewrite (external_ok _ _ k). Qed.


Lemma after_command_facts (c : Command) (t : N) (w : World) :
  files (after_command c t w) = files w ∧
  objects (after_command c t w) = objects w ∧
  clock (after_command c t w) = clock w ∧
  trace (after_command c t w)
  = [EvGetLogs; EvWaitForProcess t; EvStartProcess c] ++ trace w ∧
  (quiet w → quiet (after_command c t w)) ∧
  (∀ k, fault_free (3 + k) w = true → fault_free k (after_command c t w) = true).
Proof.
  repeat split; try done.
  - intros H. by do 3 apply advance_quiet.
  - intros k H. unfold after_command.
    apply fault_free_S in H as [_ H]. specialize (H (EvStartProcess c)).
    apply fault_free_S in H as [_ H]. specialize (H (EvWaitForProcess t)).
    apply fault_free_S in H as [_ H]. apply H.
Qed.

(** A read that meets no fault: an empty file and a missing file both give
    the not-found error, any other file gives its bytes. *)
Lemma readFileFromContainer_ok (filePath : string) (k : nat) (w : World) :
  fault_free (3 + k) w = true →
  readFileFromContainer filePath w
  = (Returned (match files w !! filePath with
               | Some (b :: bs) => mkRead (b :: bs) None
               | _ => mkRead [] (Some "File not found")
               end),
     after_command (CmdBase64 filePath) 10000 w).
Proof.
  intros H. unfold readFileFromContainer. apply try_catch_returned.
  rewrite (bind_returned _ _ _ _ _ (startProcess_base64_ok filePath _ w H)).
  apply fault_free_S in H as [_ H].
  specialize (H (EvStartProcess (CmdBase64 filePath))).
  rewrite (bind_returned _ _ _ _ _ (waitForProcess_ok _ 10000 _ _ H)).
  apply fault_free_S in H as [_ H]. specialize (H (EvWaitForProcess 10000)).
  rewrite (bind_returned _ _ _ _ _ (getLogs_ok _ _ _ H)).
  cbv zeta. unfold after_command.
  destruct (files w !! filePath) as [[|b bs]|]; cbn [stdout output]; [done| |done].
  rewrite cli_encode_not_sentinel, cli_encode_truthy by done.
  simpl. by rewrite atob_cli_encode.
Qed.

Lemma listFilesInContainer_ok (dirPath : string) (k : nat) (w : World) :
  fault_free (3 + k) w = true →
  Forall (λ q, line_safe q = true) (find_files dirPath (files w)) →
  listFilesInContainer dirPath w
  = (Returned (find_files dirPath (files w)), after_command (CmdFind dirPath) 15000 w).
Proof.
  intros H Hsafe. unfold listFilesInContainer. apply try_catch_returned.
  rewrite (bind_returned _ _ _ _ _ (startProcess_find_ok dirPath _ w H)).
  apply fault_free_S in H as [_ H].
  specialize (H (EvStartProcess (CmdFind dirPath))).
  rewrite (bind_returned _ _ _ _ _ (waitForProcess_ok _ 15000 _ _ H)).
  apply fault_free_S in H as [_ H]. specialize (H (EvWaitForProcess 15000)).
  rewrite (bind_returned _ _ _ _ _ (getLogs_ok _ _ _ H)).
  cbv zeta. cbn [stdout output]. unfold after_command.
  pose proof (listing_parsed _ Hsafe) as Hp.
  destruct (truthy _); simpl; by rewrite Hp.
Qed.

Lemma put_ok (k : string) (v : list byte) (n : nat) (w : World) :
  fault_free (S n) w = true →
  Bucket.put k v w
  = (Returned tt, set_objects (<[k := v]> (objects w)) (advance (EvBucketPut k v) w)).
Proof. intros H. unfold Bucket.put. by rewrite (external_ok _ _ n). Qed.


Lemma stored_facts (filePath : string) (v : list byte) (w : World) :
  files (stored filePath v w) = files w ∧
  objects (stored filePath v w) = <[r2Key filePath := v]> (objects w) ∧
  clock (stored filePath v w) = clock w ∧
  (quiet w → quiet (stored filePath v w)).
Proof.
  repeat split; try done. intros H. unfold stored, quiet. simpl.
  by rewrite H.
Qed.

(** A file with content, read and uploaded without fault, is counted as
    transferred and stored under its key. *)
Lemma backupFile_ok (filePath : string) (n : nat) (errs : list string)
    (b : byte) (bs : list byte) (k : nat) (w : World) :
  fault_free (4 + k) w = true →
  excluded filePath = false →
  files w !! filePath = Some (b :: bs) →
  backupFile filePath (n, errs) w
  = (Returned (S n, errs), stored filePath (b :: bs) w).
Proof.
  intros H Hex Hfile. unfold backupFile, readForUpload. rewrite Hex.
  pose proof (readFileFromContainer_ok filePath (S k) w H) as Hread.
  rewrite Hfile in Hread.
  apply runWithRetry_default_returned in Hread.
  rewrite bind_unfold.
  rewrite (try_catch_returned _ _ w (after_command (CmdBase64 filePath) 10000 w)
             (inl (b :: bs)));
    [|by rewrite (bind_returned _ _ _ _ _ Hread)].
  destruct (after_command_facts (CmdBase64 filePath) 10000 w)
    as (_ & _ & _ & _ & _ & Hff).
  specialize (Hff (S k) H).
  apply try_catch_returned.
  by rewrite (bind_returned _ _ _ _ _ (put_ok _ _ _ _ Hff)).
Qed.

(** An empty or missing file, read without fault, is counted as an error:
    nothing is uploaded. *)
Lemma backupFile_unreadable (filePath : string) (n : nat) (errs : list string)
    (k : nat) (w : World) :
  fault_free (3 + k) w = true →
  excluded filePath = false →
  files w !! filePath = Some [] ∨ files w !! filePath = None →
  backupFile filePath (n, errs) w
  = (Returned (n, errs ++ [filePath +:+ ": File not found"]),
     after_command (CmdBase64 filePath) 10000 w).
Proof.
  intros H Hex Hfile. unfold backupFile, readForUpload. rewrite Hex.
  pose proof (readFileFromContainer_ok filePath k w H) as Hread.
  assert (Hres : match files w !! filePath with
                 | Some (b :: bs) => mkRead (b :: bs) None
                 | _ => mkRead [] (Some "File not found")
                 end = mkRead [] (Some "File not found")).
  { by destruct Hfile as [-> | ->]. }
  rewrite Hres in Hread.
  apply runWithRetry_default_returned in Hread.
  rewrite bind_unfold.
  rewrite (try_catch_returned _ _ w (after_command (CmdBase64 filePath) 10000 w)
             (inr (filePath +:+ ": File not found")));
    [done|].
  by rewrite (bind_returned _ _ _ _ _ Hread).
Qed.

(** *** The read of an empty file, whatever the faults *)

Lemma external_threw_loud {A} (ev : Event) (run : World → A * World)
    (w w' : World) (err : thrown) :
  loud_faults w = true → external ev run w = (Threw err, w') →
  truthy (error_message err) = true.
Proof.
  unfold loud_faults, external. simpl.
  destruct (faults w) as [|[e|] rest]; simpl.
  - by destruct (run _).
  - intros [H _]%andb_true_iff. by intros [= <- _].
  - by destruct (run _).
Qed.

(** Whatever the faults, the read of an empty or missing file returns an
    error that is not the empty string. *)
Lemma readFileFromContainer_empty (filePath : string) (w w' : World) (r : ReadResult) :
  files w !! filePath = Some [] ∨ files w !! filePath = None →
  loud_faults w = true →
  readFileFromContainer filePath w = (Returned r, w') →
  ∃ e, r = mkRead [] (Some e) ∧ truthy e = true.
Proof.
  intros Hfile Hloud. unfold readFileFromContainer, try_catch.
  rewrite bind_unfold.
  destruct (startProcess (CmdBase64 filePath) w) as [[proc|err] w1] eqn:E1.
  2:{ intros [= <- _]. eexists. split; [done|]. by eapply external_threw_loud. }
  pose proof (startProcess_steady stays_loud (λ _, True) (CmdBase64 filePath) I
                (or_introl (λ fs w0 H, H)) w) as Hl1.
  rewrite E1 in Hl1. specialize (Hl1 Hloud). simpl in Hl1.
  apply external_returned in E1 as (w0 & Hf0 & _ & Erun).
  simpl in Erun. rewrite Hf0 in Erun.
  assert (Hout : trim (output proc) = "" ∨ trim (output proc) = "FILE_NOT_FOUND").
  { destruct Hfile as [H|H]; rewrite H in Erun; injection Erun as <- _;
      [by left|by right]. }
  rewrite bind_unfold.
  destruct (waitForProcess proc 10000 w1) as [[u|err] w2] eqn:E2.
  2:{ intros [= <- _]. eexists. split; [done|]. by eapply external_threw_loud. }
  pose proof (waitForProcess_steady stays_loud (λ _, True) proc 10000 w1) as Hl2.
  rewrite E2 in Hl2. specialize (Hl2 Hl1). simpl in Hl2.
  rewrite bind_unfold.
  destruct (getLogs proc w2) as [[logs|err] w3] eqn:E3.
  2:{ intros [= <- _]. eexists. split; [done|]. by eapply external_threw_loud. }
  apply external_returned in E3 as (w4 & _ & _ & [= <- _]).
  cbv zeta. cbn [stdout].
  destruct Hout as [-> | ->]; simpl; intros [= <- _]; by eexists.
Qed.

Lemma readForUpload_empty (filePath : string) (w : World) :
  files w !! filePath = Some [] ∨ files w !! filePath = None →
  loud_faults w = true →
  ∃ msg w',
    readForUpload filePath w = (Returned (inr (filePath +:+ ": " +:+ msg)), w').
Proof.
  intros Hfile Hloud.
  destruct (readFileFromContainer_returns filePath w) as (r & w' & E & _).
  destruct (readFileFromContainer_empty _ _ _ _ Hfile Hloud E) as (e & -> & He).
  apply runWithRetry_default_returned in E.
  exists e, w'. unfold readForUpload. apply try_catch_returned.
  rewrite (bind_returned _ _ _ _ _ E). simpl. by rewrite He.
Qed.



(** The proviso on the faults is needed: an [Error] with an empty message,
    thrown when the read starts, is taken by [if (result.error)] for no
    error, and the empty [data] of the result is uploaded. *)
Remark silent_fault_uploads_empty_object :
  let w := mkWorld (list_to_map [("/root/.clawdbot/clawdbot.json", [])]) ∅
             [Some (JsError "")] "2026-02-06T12:00:00.000Z" [] in
  ∃ w', backupFile "/root/.clawdbot/clawdbot.json" (0, []) w = (Returned (1, []), w')
        ∧ objects w' !! "clawdbot/clawdbot.json" = Some [].
Proof. intros w. eexists. split; [vm_compute; reflexivity|]. by vm_compute. Qed.

End FaultFree.

(** ** Backup followed by restore *)

Module RoundTrip.
Import World JsString JsStringFacts KeyMapping Sandbox SyncDirect Notions.
Import Effects Retry Frames Results Checks.
Import Base64 Base64Facts Transport FaultFree.

(** *** Maps filled by a loop *)

Section Load.
Context {A : Type} (key : A → option string) (val : A → list byte).


Lemma load_cons (m : gmap string (list byte)) (x : A) (l : list A) :
  load key val m (x :: l) = load key val (load_step key val m x) l.
Proof. done. Qed.

Lemma load_snoc (m : gmap string (list byte)) (l : list A) (x : A) :
  load key val m (l ++ [x]) = load_step key val (load key val m l) x.
Proof. unfold load. by rewrite foldl_app. Qed.

Lemma load_app (m : gmap string (list byte)) (l1 l2 : list A) :
  load key val m (l1 ++ l2) = load key val (load key val m l1) l2.
Proof. unfold load. by rewrite foldl_app. Qed.

(** An entry of the loaded map was there before or comes from an element
    of the list. *)
Lemma load_lookup_inv (m : gmap string (list byte)) (l : list A)
    (k : string) (v : list byte) :
  load key val m l !! k = Some v →
  m !! k = Some v ∨ ∃ x, x ∈ l ∧ key x = Some k ∧ val x = v.
Proof.
  induction l as [|x l IH] using rev_ind; [by left|].
  rewrite load_snoc. unfold load_step.
  destruct (key x) as [kx|] eqn:Ex.
  - destruct (decide (kx = k)) as [->|Hne].
    + rewrite lookup_insert_eq. intros [= <-]. right. exists x.
      split; [|done]. apply elem_of_app. right. by left.
    + rewrite lookup_insert_ne by done. intros [H|(y & Hy & H)]%IH; [by left|].
      right. exists y. split; [|done]. apply elem_of_app. by left.
  - intros [H|(y & Hy & H)]%IH; [by left|].
    right. exists y. split; [|done]. apply elem_of_app. by left.
Qed.

(** When the elements with key [k] agree on their value, any of them
    gives the entry at [k]. *)
Lemma load_lookup_in (m : gmap string (list byte)) (l : list A)
    (k : string) (x : A) :
  (∀ y, y ∈ l → key y = Some k → val y = val x) →
  x ∈ l → key x = Some k → load key val m l !! k = Some (val x).
Proof.
  induction l as [|y l IH] using rev_ind; intros Hsame Hin Hk.
  - by apply elem_of_nil in Hin.
  - rewrite load_snoc. unfold load_step.
    destruct (key y) as [ky|] eqn:Ey.
    + destruct (decide (ky = k)) as [->|Hne].
      * rewrite lookup_insert_eq. f_equal. apply Hsame; [|done].
        apply elem_of_app. right. by left.
      * rewrite lookup_insert_ne by done. apply IH; [| |done].
        -- intros z Hz. apply Hsame. apply elem_of_app. by left.
        -- apply elem_of_app in Hin as [Hin|Hin]; [done|].
           apply list_elem_of_singleton in Hin as ->. congruence.
    + apply IH; [| |done].
      * intros z Hz. apply Hsame. apply elem_of_app. by left.
      * apply elem_of_app in Hin as [Hin|Hin]; [done|].
        apply list_elem_of_singleton in Hin as ->. congruence.
Qed.

End Load.

(** *** The listing of a root *)

Lemma elem_of_find_files (dirPath p : string) (fs : gmap string (list byte)) :
  p ∈ find_files dirPath fs ↔ is_Some (fs !! p) ∧ startsWith p dirPath = true.
Proof.
  unfold find_files. rewrite merge_sort_Permutation, list_elem_of_filter.
  rewrite list_elem_of_fmap. split.
  - intros [Hp ([q v] & -> & Hin)]. apply elem_of_map_to_list in Hin.
    split; [by exists v|done].
  - intros [[v Hv] Hp]. split; [done|]. exists (p, v). split; [done|].
    by apply elem_of_map_to_list.
Qed.

(** *** The inverse of the prefix mapping *)

Lemma containerPath_Some (k q : string) :
  containerPath k = Some q →
  (startsWith q "/root/.clawdbot/" = true ∧ k = "clawdbot/" +:+ slice 16 q)
  ∨ (startsWith q "/root/.clawdbot/" = false ∧ k = "skills/" +:+ slice 19 q).
Proof.
  unfold containerPath.
  destruct (startsWith k "clawdbot/") eqn:E1.
  - intros [= <-]. left. apply startsWith_split in E1.
    rewrite (startsWith_app "/root/.clawdbot/"), (slice_app "/root/.clawdbot/").
    done.
  - destruct (startsWith k "skills/") eqn:E2; [|done].
    intros [= <-]. right. apply startsWith_split in E2.
    rewrite (slice_app "/root/clawd/skills/"). done.
Qed.

Lemma containerPath_inj (k1 k2 q : string) :
  containerPath k1 = Some q → containerPath k2 = Some q → k1 = k2.
Proof.
  intros [[H1 ->]|[H1 ->]]%containerPath_Some [[H2 ->]|[H2 ->]]%containerPath_Some;
    congruence.
Qed.

Lemma containerPath_marker : containerPath ".last-sync" = None.
Proof. done. Qed.

(** *** The backup without fault *)


Lemma backupFiles_ok (l : list string) (n : nat) (errs : list string) (w : World) :
  quiet w →
  (∀ p, p ∈ l → excluded p = false ∧ ∃ b bs, files w !! p = Some (b :: bs)) →
  ∃ w', for_of l backupFile (n, errs) w = (Returned (n + length l, errs), w') ∧
    files w' = files w ∧ clock w' = clock w ∧ quiet w' ∧
    objects w' = uploads (files w) (objects w) l.
Proof.
  revert n w. induction l as [|p l IH]; intros n w Hq Hl.
  - exists w. rewrite Nat.add_0_r. done.
  - destruct (Hl p) as (Hex & b & bs & Hp); [by left|].
    pose proof (backupFile_ok p n errs b bs 0 w (quiet_fault_free _ _ Hq) Hex Hp) as E.
    destruct (stored_facts p (b :: bs) w) as (Hf & Ho & Hc & Hq').
    destruct (IH (S n) (stored p (b :: bs) w) (Hq' Hq)) as (w' & E' & Hf' & Hc' & Hq'' & Ho').
    { intros p' Hp'. rewrite Hf. apply Hl. by right. }
    exists w'. rewrite for_of_cons, (bind_returned _ _ _ _ _ E), E'.
    replace (n + length (p :: l)) with (S n + length l) by (simpl; lia).
    split; [done|].
    split; [congruence|]. split; [congruence|]. split; [done|].
    rewrite Ho', Hf, Ho. unfold load at 2. simpl. unfold load_step at 2.
    by rewrite Hp.
Qed.

Lemma backupPath_ok (d : string) (n : nat) (errs : list string) (w : World) :
  quiet w →
  (∀ p bs, files w !! p = Some bs → backup_safe p bs = true) →
  ∃ w',
    backupPath d (n, errs) w
    = (Returned (n + length (find_files d (files w)), errs), w') ∧
    files w' = files w ∧ clock w' = clock w ∧ quiet w' ∧
    objects w' = uploads (files w) (objects w) (find_files d (files w)).
Proof.
  intros Hq Hsafe.
  assert (Hin : ∀ p, p ∈ find_files d (files w) →
            ∃ bs, files w !! p = Some bs ∧ backup_safe p bs = true).
  { intros p [[bs Hp] _]%elem_of_find_files. exists bs. split; [done|]. by apply Hsafe. }
  pose proof (listFilesInContainer_ok d 0 w (quiet_fault_free _ _ Hq)) as E.
  destruct (after_command_facts (CmdFind d) 15000 w) as (Hf & Ho & Hc & _ & Hq' & _).
  set (w0 := after_command (CmdFind d) 15000 w) in *.
  destruct (backupFiles_ok (find_files d (files w)) n errs w0 (Hq' Hq))
    as (w' & E' & Hf' & Hc' & Hq'' & Ho').
  { intros p (bs & Hp & Hs)%Hin. rewrite Hf, Hp. unfold backup_safe in Hs.
    apply andb_true_iff in Hs as [Hs Hne]. apply andb_true_iff in Hs as [Hs _].
    apply andb_true_iff in Hs as [Hs _]. apply andb_true_iff in Hs as [_ Hex].
    apply negb_true_iff in Hex. split; [done|].
    destruct bs as [|b bs]; [done|]. by exists b, bs. }
  exists w'. split.
  - unfold backupPath. rewrite bind_unfold.
    rewrite (try_catch_returned _ _ w w0 (Some (find_files d (files w)))).
    + exact E'.
    + rewrite (bind_returned _ _ _ w0 (find_files d (files w))); [done|].
      apply runWithRetry_default_returned, E.
      apply Forall_forall. intros p (bs & Hp & Hs)%Hin. unfold backup_safe in Hs.
      apply andb_true_iff in Hs as [Hs _]. by apply andb_true_iff in Hs as [_ Hs].
  - rewrite Hf', Hc', Ho', Hf, Ho. done.
Qed.


Lemma backupAll_ok (w : World) :
  quiet w →
  (∀ p bs, files w !! p = Some bs → backup_safe p bs = true) →
  ∃ w',
    backupAll w
    = (Returned (syncReport (length (listing (files w))) [] (clock w)), w') ∧
    files w' = files w ∧
    objects w' = <[".last-sync" := marker_bytes (clock w)]>
                   (uploads (files w) (objects w) (listing (files w))).
Proof.
  intros Hq Hsafe.
  destruct (backupPath_ok "/root/.clawdbot/" 0 [] w Hq Hsafe)
    as (w1 & E1 & Hf1 & Hc1 & Hq1 & Ho1).
  destruct (backupPath_ok "/root/clawd/skills/" (0 + length (find_files "/root/.clawdbot/" (files w))) [] w1 Hq1)
    as (w2 & E2 & Hf2 & Hc2 & Hq2 & Ho2).
  { by rewrite Hf1. }
  pose proof (put_ok ".last-sync" (marker_bytes (clock w2)) 0 w2
                (quiet_fault_free _ _ Hq2)) as Ep.
  eexists. split; [|split].
  - assert (Eloop : for_of BACKUP_PATHS backupPath (0, []) w
                    = (Returned (length (listing (files w)), []), w2)).
    { unfold BACKUP_PATHS. rewrite for_of_cons, (bind_returned _ _ _ _ _ E1).
      rewrite for_of_cons, (bind_returned _ _ _ _ _ E2).
      unfold listing. by rewrite length_app, Hf1. }
    unfold backupAll. rewrite (bind_returned _ _ _ _ _ Eloop).
    rewrite bind_unfold. simpl. rewrite bind_unfold.
    unfold marker_bytes in Ep. rewrite (try_catch_returned _ _ _ _ _ Ep).
    replace (clock w) with (clock w2) by congruence. done.
  - simpl. congruence.
  - simpl. rewrite Ho2, Ho1, Hf1. replace (clock w2) with (clock w) by congruence.
    unfold listing. by rewrite load_app.
Qed.

(** *** The checks before the backup *)

Lemma sanityCheck_present (w w' : World) (r : option SyncResult) :
  is_Some (files w !! "/root/.clawdbot/clawdbot.json") →
  sanityCheck w = (Returned r, w') → r = None.
Proof.
  intros [v Hv]. unfold sanityCheck, try_catch.
  destruct (checkConfig w) as [[logs|err] w1] eqn:Ec.
  - rewrite (bind_returned _ _ _ _ _ Ec).
    rewrite (checkConfig_returned _ _ _ Ec), Hv.
    by intros [= <- _].
  - rewrite (bind_threw _ _ _ _ _ Ec). by intros [= <- _].
Qed.

(** With no marker in the bucket, or with the configuration file in
    place, [syncToR2Direct] is the backup of a later world with the same
    files and objects. *)
Lemma syncToR2Direct_passes (env : MoltbotEnv) (w : World) :
  is_Some (MOLTBOT_BUCKET env) →
  objects w !! ".last-sync" = None
  ∨ is_Some (files w !! "/root/.clawdbot/clawdbot.json") →
  ∃ w1, files w1 = files w ∧ objects w1 = objects w ∧ calm w w1 ∧
    syncToR2Direct env w = backupAll w1.
Proof.
  intros [b Hb] Hpass. unfold syncToR2Direct. rewrite Hb.
  destruct (getLastSyncDirect_returns env w) as (existing & w1 & E & _).
  pose proof (getLastSyncDirect_steady same_objects (λ _, True) env I I w) as Ho.
  pose proof (getLastSyncDirect_steady same_files (λ _, True) env I I w) as Hf.
  pose proof (getLastSyncDirect_steady calm (λ _, True) env I I w) as Hc.
  rewrite E in Ho, Hf, Hc. simpl in Ho, Hf, Hc.
  rewrite (bind_returned _ _ _ _ _ E).
  destruct (from_option truthy false existing) eqn:Ht; [|by exists w1].
  destruct Hpass as [Hnone|Hfile].
  { apply (getLastSyncDirect_absent _ _ _ _ Hnone) in E. by subst existing. }
  destruct (sanityCheck_returns w1) as (ab & w2 & E2 & _).
  pose proof (sanityCheck_steady same_objects (λ _, True) I w1) as Ho2.
  pose proof (sanityCheck_steady same_files (λ _, True) I w1) as Hf2.
  pose proof (sanityCheck_steady calm (λ _, True) I w1) as Hc2.
  rewrite E2 in Ho2, Hf2, Hc2. simpl in Ho2, Hf2, Hc2.
  rewrite (bind_returned _ _ _ _ _ E2).
  assert (ab = None) as ->.
  { eapply sanityCheck_present; [|exact E2]. by rewrite Hf. }
  exists w2. unfold same_objects, same_files in *.
  split; [congruence|]. split; [congruence|]. split; [by etrans|done].
Qed.

(** *** The restore without fault *)



Lemma restoreObject_skip (k : string) (st : nat * list string) (w : World) :
  restorable k = false → restoreObject k st w = (Returned st, w).
Proof.
  unfold restorable, restoreObject. destruct st as [n errs].
  destruct (String.eqb k ".last-sync"); [done|].
  destruct (containerPath k); [|done].
  simpl. by intros ?.
Qed.

Lemma restoreObject_ok (k q : string) (v : list byte) (n : nat)
    (errs : list string) (w : World) :
  quiet w → objects w !! k = Some v →
  restorable k = true → containerPath k = Some q →
  ∃ w', restoreObject k (n, errs) w = (Returned (S n, errs), w') ∧
    files w' = <[q := v]> (files w) ∧ objects w' = objects w ∧ quiet w'.
Proof.
  intros Hq Hv Hr Hk. unfold restorable in Hr.
  apply andb_true_iff in Hr as [Hm%negb_true_iff _].
  unfold restoreObject. rewrite Hm, Hk.
  set (w1 := advance (EvBucketGet k) w).
  set (w2 := advance EvObjectArrayBuffer w1).
  set (w3 := advance (EvStartProcess (CmdMkdir (beforeLastSlash q))) w2).
  set (w4 := advance (EvStartProcess (CmdWrite (btoa v) q)) w3).
  set (w5 := set_files (<[q := v]> (files w4)) w4).
  set (w6 := advance (EvWaitForProcess 10000) w5).
  assert (Hq1 : quiet w1) by by apply advance_quiet.
  assert (Hq2 : quiet w2) by by apply advance_quiet.
  assert (Hq3 : quiet w3) by by apply advance_quiet.
  assert (Hq4 : quiet w4) by by apply advance_quiet.
  assert (Hq5 : quiet w5) by done.
  exists w6. split; [|split; [done|split; [done|by apply advance_quiet]]].
  apply try_catch_returned.
  rewrite (bind_returned _ _ w w1 (Some (Bucket.mkObject k v))).
  2:{ unfold Bucket.get. rewrite (external_ok _ _ 0) by by apply quiet_fault_free.
      simpl. fold w1. by rewrite Hv. }
  rewrite (bind_returned _ _ w1 w2 v).
  2:{ unfold Bucket.arrayBuffer. by rewrite (external_ok _ _ 0) by by apply quiet_fault_free. }
  rewrite (bind_returned _ _ w2 w3 (mkProcess (CmdMkdir (beforeLastSlash q)) "")).
  2:{ unfold startProcess. by rewrite (external_ok _ _ 0) by by apply quiet_fault_free. }
  rewrite (bind_returned _ _ w3 w5 (mkProcess (CmdWrite (btoa v) q) "")).
  2:{ unfold startProcess. rewrite (external_ok _ _ 0) by by apply quiet_fault_free.
      simpl. fold w4. by rewrite atob_btoa. }
  rewrite (bind_returned _ _ w5 w6 tt).
  2:{ by apply (waitForProcess_ok _ _ 0), quiet_fault_free. }
  done.
Qed.

Lemma restoreObjects_ok (l : list string) (n : nat) (errs : list string) (w : World) :
  quiet w →
  (∀ k, k ∈ l → is_Some (objects w !! k)) →
  ∃ n' w', for_of l restoreObject (n, errs) w = (Returned (n', errs), w') ∧
    objects w' = objects w ∧ quiet w' ∧
    files w' = downloads (objects w) (files w) l.
Proof.
  revert n w. induction l as [|k l IH]; intros n w Hq Hl.
  - by exists n, w.
  - destruct (Hl k) as [v Hv]; [by left|].
    destruct (restorable k) eqn:Hr.
    + destruct (containerPath k) as [q|] eqn:Hk.
      2:{ unfold restorable in Hr. rewrite Hk in Hr.
          rewrite bool_decide_false in Hr by by intros [? ?].
          by rewrite andb_false_r in Hr. }
      destruct (restoreObject_ok k q v n errs w Hq Hv Hr Hk)
        as (w1 & E1 & Hf1 & Ho1 & Hq1).
      destruct (IH (S n) w1 Hq1) as (n' & w' & E' & Ho' & Hq' & Hf').
      { intros k' Hk'. rewrite Ho1. apply Hl. by right. }
      exists n', w'. rewrite for_of_cons, (bind_returned _ _ _ _ _ E1).
      split; [done|]. split; [congruence|]. split; [done|].
      rewrite Hf', Ho1, Hf1, load_cons. unfold load_step, restore_key.
      by rewrite Hr, Hk, Hv.
    + pose proof (restoreObject_skip k (n, errs) w Hr) as E1.
      destruct (IH n w Hq) as (n' & w' & E' & Ho' & Hq' & Hf').
      { intros k' Hk'. apply Hl. by right. }
      exists n', w'. rewrite for_of_cons, (bind_returned _ _ _ _ _ E1).
      split; [done|]. split; [done|]. split; [done|].
      rewrite Hf', load_cons. unfold load_step, restore_key.
      by rewrite Hr.
Qed.

Lemma restoreFromR2Direct_ok (env : MoltbotEnv) (w : World) :
  is_Some (MOLTBOT_BUCKET env) → quiet w →
  ∃ r w', restoreFromR2Direct env w = (Returned r, w') ∧
    files w'
    = downloads (objects w) (files w)
        (merge_sort String.le (map_to_list (objects w)).*1).
Proof.
  intros [b Hb] Hq. unfold restoreFromR2Direct. rewrite Hb.
  set (l := merge_sort String.le (map_to_list (objects w)).*1).
  set (w0 := advance EvBucketList w).
  destruct (restoreObjects_ok l 0 [] w0) as (n' & w' & E & _ & _ & Hf).
  { by apply advance_quiet. }
  { intros k Hk. by apply listed_key. }
  exists (restoreReport n' []), w'. split; [|done].
  rewrite (bind_returned _ _ w w0 l).
  2:{ unfold Bucket.list_keys. by rewrite (external_ok _ _ 0) by by apply quiet_fault_free. }
  by rewrite (bind_returned _ _ _ _ _ E).
Qed.

Lemma elem_of_listed (os : gmap string (list byte)) (k : string) :
  k ∈ merge_sort String.le (map_to_list os).*1 ↔ is_Some (os !! k).
Proof.
  rewrite merge_sort_Permutation, list_elem_of_fmap. split.
  - intros ([k' v] & -> & Hin). apply elem_of_map_to_list in Hin. by exists v.
  - intros [v Hv]. exists (k, v). split; [done|]. by apply elem_of_map_to_list.
Qed.

Lemma restore_key_Some (k q : string) :
  restore_key k = Some q ↔ restorable k = true ∧ containerPath k = Some q.
Proof.
  unfold restore_key. destruct (restorable k); [|by split; [|intros []]].
  split; [done|]. by intros [_ ?].
Qed.

Lemma restorable_key (k q : string) :
  containerPath k = Some q → restorable k = true.
Proof.
  intros Hk. unfold restorable. rewrite bool_decide_true by by eexists.
  rewrite andb_true_r. apply negb_true_iff, String.eqb_neq. by intros ->.
Qed.

(** Every object with a known prefix is written to its path, whatever
    its suffix. *)
Lemma restoreFromR2Direct_writes (env : MoltbotEnv) (w : World)
    (k q : string) (v : list byte) :
  is_Some (MOLTBOT_BUCKET env) → quiet w →
  objects w !! k = Some v → containerPath k = Some q →
  files (restoreFromR2Direct env w).2 !! q = Some v.
Proof.
  intros Hb Hq Hv Hk.
  destruct (restoreFromR2Direct_ok env w Hb Hq) as (r & w' & E & Hf).
  rewrite E. simpl. rewrite Hf.
  rewrite (load_lookup_in restore_key _ _ _ q k).
  - by rewrite Hv.
  - intros y _ [_ Hy]%restore_key_Some. by rewrite (containerPath_inj _ _ _ Hy Hk).
  - apply elem_of_listed. by eexists.
  - apply restore_key_Some. split; [by eapply restorable_key|done].
Qed.

Lemma backup_safe_facts (p : string) (bs : list byte) :
  backup_safe p bs = true →
  under_root p = true ∧ excluded p = false ∧ root_free p = true ∧ bs ≠ [].
Proof.
  unfold backup_safe. intros H.
  apply andb_true_iff in H as [H Hne]. apply andb_true_iff in H as [H _].
  apply andb_true_iff in H as [H Hfree]. apply andb_true_iff in H as [Hroot Hex].
  apply negb_true_iff in Hex. apply negb_true_iff, bool_decide_eq_false in Hne.
  done.
Qed.

Lemma elem_of_listing (fs : gmap string (list byte)) (p : string) :
  p ∈ listing fs ↔ is_Some (fs !! p) ∧ under_root p = true.
Proof.
  unfold listing, under_root, BACKUP_PATHS. cbn [existsb].
  rewrite elem_of_app, !elem_of_find_files, orb_false_r, orb_true_iff.
  tauto.
Qed.




(** *** Exclusions *)

Lemma sync_event_frame : Frame (emitted sync_event) sync_event.
Proof. apply emitted_frame. intros ev Hev. left. by destruct ev. Qed.

Lemma syncToR2Direct_events (env : MoltbotEnv) (w : World) :
  emitted sync_event w (syncToR2Direct env w).2.
Proof.
  apply (syncToR2Direct_steady _ _ (Frame0 := sync_event_frame)).
  - right. by left.
  - right. right. by left.
  - right. right. by right.
  - intros d Hd. by left.
  - intros p Hp. split; [by left|]. intros v. left. right. by exists p.
  - intros v. left. by left.
  - apply emitted_set_objects.
Qed.

Lemma backupFile_excluded (filePath : string) (st : nat * list string) (w : World) :
  excluded filePath = true → backupFile filePath st w = (Returned st, w).
Proof. intros H. destruct st. unfold backupFile. by rewrite H. Qed.




End RoundTrip.

(** ** Reads, listings and retries under any faults *)

Module Reads.
Import World JsString Sandbox SyncDirect Notions Effects Retry Frames Results Checks.
Import Base64 Base64Facts Transport FaultFree.

Lemma try_bind_returned {A B} (m : M A) (k : A → M B) (h : thrown → M B)
    (w w' : World) (a : A) :
  m w = (Returned a, w') → try_catch (m ≫= k) h w = try_catch (k a) h w'.
Proof. intros E. unfold try_catch. by rewrite (bind_returned _ _ _ _ _ E). Qed.

Lemma try_bind_threw {A B} (m : M A) (k : A → M B) (h : thrown → M B)
    (w w' : World) (err : thrown) :
  m w = (Threw err, w') → try_catch (m ≫= k) h w = h err w'.
Proof. intros E. unfold try_catch. by rewrite (bind_threw _ _ _ _ _ E). Qed.

Lemma startProcess_read (c : Command) (w w' : World) (proc : Process) :
  (∀ b p, c ≠ CmdWrite b p) →
  startProcess c w = (Returned proc, w') →
  files w' = files w ∧ objects w' = objects w ∧ proc = (run_command c w').1.
Proof.
  intros Hc (w0 & Hf & Ho & E)%external_returned.
  destruct c as [p|d| |pd|b p]; simpl in E |- *.
  - destruct (files w0 !! p) eqn:Ep; injection E as <- <-; by rewrite Ep.
  - by injection E as <- <-.
  - destruct (files w0 !! _) eqn:Ep; injection E as <- <-; by rewrite Ep.
  - by injection E as <- <-.
  - by destruct (Hc b p).
Qed.

Lemma call_returned {A} (ev : Event) (a0 : A) (w w' : World) (a : A) :
  external ev (λ w, (a0, w)) w = (Returned a, w') →
  a = a0 ∧ files w' = files w ∧ objects w' = objects w.
Proof. by intros (w0 & Hf & Ho & [= <- <-])%external_returned. Qed.

Lemma readFileFromContainer_loud (filePath : string) (w w' : World) (r : ReadResult) :
  loud_faults w = true →
  readFileFromContainer filePath w = (Returned r, w') →
  ∀ e, read_error r = Some e → truthy e = true.
Proof.
  intros Hloud. unfold readFileFromContainer, try_catch.
  rewrite bind_unfold.
  destruct (startProcess (CmdBase64 filePath) w) as [[proc|err] w1] eqn:E1.
  2:{ intros [= <- _] e [= <-]. by eapply external_threw_loud. }
  pose proof (startProcess_steady stays_loud (λ _, True) (CmdBase64 filePath) I
                (or_introl (λ fs w0 H, H)) w) as Hl1.
  rewrite E1 in Hl1. specialize (Hl1 Hloud). simpl in Hl1.
  rewrite bind_unfold.
  destruct (waitForProcess proc 10000 w1) as [[u|err] w2] eqn:E2.
  2:{ intros [= <- _] e [= <-]. by eapply external_threw_loud. }
  pose proof (waitForProcess_steady stays_loud (λ _, True) proc 10000 w1) as Hl2.
  rewrite E2 in Hl2. specialize (Hl2 Hl1). simpl in Hl2.
  rewrite bind_unfold.
  destruct (getLogs proc w2) as [[logs|err] w3] eqn:E3.
  2:{ intros [= <- _] e [= <-]. by eapply external_threw_loud. }
  cbv zeta. destruct (_ || _); [by intros [= <- _] e [= <-]|].
  destruct (atob _); [by intros [= <- _] e|by intros [= <- _] e [= <-]].
Qed.

Lemma readFileFromContainer_cases (filePath : string) (w : World) :
  ∃ r w', readFileFromContainer filePath w = (Returned r, w') ∧
    files w' = files w ∧ objects w' = objects w ∧
    ((∃ e, r = mkRead [] (Some e))
     ∨ ∃ bs, bs ≠ [] ∧ files w !! filePath = Some bs ∧ r = mkRead bs None).
Proof.
  unfold readFileFromContainer.
  destruct (startProcess (CmdBase64 filePath) w) as [[proc|err] w1] eqn:E1.
  2:{ rewrite (try_bind_threw _ _ _ _ _ _ E1).
      apply external_threw in E1 as [? ?]. eexists _, _. eauto 10. }
  rewrite (try_bind_returned _ _ _ _ _ _ E1).
  apply startProcess_read in E1 as (Hf1 & Ho1 & Hp); [|done].
  destruct (waitForProcess proc 10000 w1) as [[u|err] w2] eqn:E2.
  2:{ rewrite (try_bind_threw _ _ _ _ _ _ E2).
      apply external_threw in E2 as [? ?]. eexists _, _.
      split; [done|]. split; [congruence|]. split; [congruence|]. eauto. }
  rewrite (try_bind_returned _ _ _ _ _ _ E2).
  apply call_returned in E2 as (_ & Hf2 & Ho2).
  destruct (getLogs proc w2) as [[logs|err] w3] eqn:E3.
  2:{ rewrite (try_bind_threw _ _ _ _ _ _ E3).
      apply external_threw in E3 as [? ?]. eexists _, _.
      split; [done|]. split; [congruence|]. split; [congruence|]. eauto. }
  rewrite (try_bind_returned _ _ _ _ _ _ E3).
  apply call_returned in E3 as (-> & Hf3 & Ho3).
  cbv zeta. cbn [stdout]. subst proc. simpl. rewrite Hf1.
  assert (Hfw : files w3 = files w) by congruence.
  assert (How : objects w3 = objects w) by congruence.
  destruct (files w !! filePath) as [[|b bs]|] eqn:Ef; cbn [output fst].
  - eexists _, _. split; [done|]. eauto 10.
  - rewrite cli_encode_not_sentinel, cli_encode_truthy by done.
    simpl. rewrite atob_cli_encode. eexists _, _. split; [done|].
    split; [done|]. split; [done|]. right. by exists (b :: bs).
  - eexists _, _. split; [done|]. eauto 10.
Qed.




Lemma one_line_split (s : string) : Forall (λ f, one_line f = true) (split lf s).
Proof.
  induction s as [|c s IH]; simpl; [by repeat constructor|].
  destruct (Ascii.eqb c lf) eqn:Ec; [by constructor|].
  destruct (split lf s) as [|h t]; [repeat constructor; simpl; by rewrite Ec|].
  inversion IH as [|? ? Hh Ht]; subst. constructor; [|done]. simpl. by rewrite Ec, Hh.
Qed.

Lemma external_returned_faults {A} (ev : Event) (run : World → A * World)
    (w w' : World) (a : A) :
  (∀ w0, faults (run w0).2 = faults w0) →
  external ev run w = (Returned a, w') →
  fault_free 1 w = true ∧ faults w' = tail (faults w).
Proof.
  intros Hrun. unfold external, fault_free. simpl.
  destruct (faults w) as [|[err|] rest] eqn:Ef; simpl; [|done|].
  - destruct (run _) as [a0 w0] eqn:Er. intros [= <- <-].
    pose proof (Hrun (log_event ev w)) as H. rewrite Er in H. simpl in H.
    by rewrite H, Ef.
  - destruct (run _) as [a0 w0] eqn:Er. intros [= <- <-].
    pose proof (Hrun (set_faults rest (log_event ev w))) as H. rewrite Er in H.
    done.
Qed.

Lemma fault_free_cons (n : nat) (w w' : World) :
  fault_free 1 w = true → faults w' = tail (faults w) →
  fault_free n w' = true → fault_free (S n) w = true.
Proof.
  unfold fault_free. intros H1 -> Hn.
  destruct (faults w) as [|[err|] rest]; simpl in *; done.
Qed.

Lemma run_command_faults (c : Command) (w : World) :
  faults (run_command c w).2 = faults w.
Proof.
  destruct c; simpl; try done; by destruct (files w !! _).
Qed.

(** X3: [listFilesInContainer] never rejects and changes neither the
    sandbox nor the bucket; no entry of its result is empty or holds a
    line feed; when one of its three sandbox calls fails the result is
    the empty list, as for a directory without files. *)
Theorem listFilesInContainer_tolerant (dirPath : string) (w : World) :
  ∃ l w', listFilesInContainer dirPath w = (Returned l, w') ∧
    files w' = files w ∧ objects w' = objects w ∧
    Forall (λ f, f ≠ "" ∧ one_line f = true) l ∧
    (fault_free 3 w = false → l = []).
Proof.
  unfold listFilesInContainer.
  destruct (startProcess (CmdFind dirPath) w) as [[proc|err] w1] eqn:E1.
  2:{ rewrite (try_bind_threw _ _ _ _ _ _ E1).
      apply external_threw in E1 as [? ?]. eexists _, _. split; [done|]. auto. }
  rewrite (try_bind_returned _ _ _ _ _ _ E1).
  pose proof (external_returned_faults _ _ _ _ _ (run_command_faults _) E1) as [F1 T1].
  apply startProcess_read in E1 as (Hf1 & Ho1 & Hp); [|done].
  destruct (waitForProcess proc 15000 w1) as [[u|err] w2] eqn:E2.
  2:{ rewrite (try_bind_threw _ _ _ _ _ _ E2).
      apply external_threw in E2 as [? ?]. eexists _, _.
      split; [done|]. split; [congruence|]. split; [congruence|]. auto. }
  rewrite (try_bind_returned _ _ _ _ _ _ E2).
  pose proof (external_returned_faults (EvWaitForProcess 15000) (λ w, (tt, w))
                _ _ _ (λ _, eq_refl) E2) as [F2 T2].
  apply call_returned in E2 as (_ & Hf2 & Ho2).
  destruct (getLogs proc w2) as [[logs|err] w3] eqn:E3.
  2:{ rewrite (try_bind_threw _ _ _ _ _ _ E3).
      apply external_threw in E3 as [? ?]. eexists _, _.
      split; [done|]. split; [congruence|]. split; [congruence|]. auto. }
  rewrite (try_bind_returned _ _ _ _ _ _ E3).
  pose proof (external_returned_faults EvGetLogs (λ w, (mkLogs (output proc), w))
                _ _ _ (λ _, eq_refl) E3) as [F3 T3].
  apply call_returned in E3 as (-> & Hf3 & Ho3).
  assert (Hff : fault_free 3 w = true).
  { apply (fault_free_cons 2 w w1); [done..|].
    apply (fault_free_cons 1 w1 w2); [done..|].
    by apply (fault_free_cons 0 w2 w3). }
  cbv zeta. cbn [stdout].
  destruct (negb (truthy _)).
  - eexists _, _. split; [done|]. split; [congruence|]. split; [congruence|].
    split; [constructor|]. by rewrite Hff.
  - eexists _, _. split; [done|]. split; [congruence|]. split; [congruence|].
    split; [|by rewrite Hff].
    apply Forall_forall. intros f [Hlen Hin]%list_elem_of_filter. split.
    + intros ->. done.
    + by eapply Forall_forall in Hin; [|apply one_line_split].
Qed.



End Reads.

(** ** The attempts of the retry wrapper *)

Module Attempts.
Import World JsString Sandbox SyncDirect Notions Effects Retry.

Lemma retry_loop_decomposed {T} (fn : M T) (delayMs : N) (remaining : nat) :
  ∀ a w le, ∃ j w1 le',
    a ≤ j ∧ j ≤ a + remaining ∧ retried fn delayMs a w le j w1 le' ∧
    ((j < a + remaining ∧ ∃ v w2, fn w1 = (Returned v, w2) ∧
        retry_loop fn delayMs remaining a le w = (Returned v, w2))
     ∨ (j < a + remaining ∧ ∃ err w2, fn w1 = (Threw err, w2) ∧
          transient err = false ∧
          retry_loop fn delayMs remaining a le w = (Threw (as_Error err), w2))
     ∨ (j = a + remaining ∧
          retry_loop fn delayMs remaining a le w
          = (Threw (default (JsValue "undefined") le'), w1))).
Proof.
  induction remaining as [|remaining IH]; intros a w le.
  { exists a, w, le. split; [lia|]. split; [lia|]. split; [constructor|].
    right; right. split; [lia|done]. }
  destruct (fn w) as [[v|err] w2] eqn:E.
  { exists a, w, le. split; [lia|]. split; [lia|]. split; [constructor|].
    left. split; [lia|]. exists v, w2. split; [done|]. by apply retry_loop_returned. }
  destruct (transient err) eqn:Et.
  2:{ exists a, w, le. split; [lia|]. split; [lia|]. split; [constructor|].
      right; left. split; [lia|]. exists err, w2. split; [done|]. split; [done|].
      by apply retry_loop_fatal. }
  destruct (IH (S a) (backoff delayMs a w2) (Some (as_Error err)))
    as (j & w1 & le' & Hlo & Hhi & Hre & Hcase).
  exists j, w1, le'. split; [lia|]. split; [lia|].
  split; [by eapply retried_next|].
  rewrite (retry_loop_transient fn delayMs remaining a le w w2 err E Et).
  replace (a + S remaining) with (S a + remaining) by lia.
  exact Hcase.
Qed.

Lemma retried_last_Error {T} (fn : M T) (delayMs : N) a w le a' w' le' :
  retried fn delayMs a w le a' w' le' → a < a' →
  ∃ err, le' = Some (JsError (message_of err)) ∧ transient err = true.
Proof.
  induction 1 as [|a w le err w1 a' w' le' E Et Hre IH]; [lia|]. intros _.
  inversion Hre; subst.
  - exists err. split; [|done]. by destruct err.
  - apply IH. eapply Nat.lt_le_trans; [apply Nat.lt_succ_diag_r|].
    eapply retried_le. eassumption.
Qed.

(** X5: Every call of [runWithRetry] is made of [j] attempts that fail
    with the reset signature, each followed by a log line and the delay,
    with [j] at most [maxRetries], and then: a successful attempt, whose
    value is returned; or an attempt that fails otherwise, whose error is
    thrown at once; or, after [maxRetries] attempts, the throw of the last
    error (of [undefined], without any attempt, when [maxRetries] is 0). *)
Theorem runWithRetry_attempts {T} (fn : M T) (maxRetries : nat) (delayMs : N)
    (w : World) :
  ∃ j w1 le,
    j ≤ maxRetries ∧ retried fn delayMs 0 w None j w1 le ∧
    ((j < maxRetries ∧ ∃ v w2, fn w1 = (Returned v, w2) ∧
        runWithRetry fn maxRetries delayMs w = (Returned v, w2))
     ∨ (j < maxRetries ∧ ∃ err w2, fn w1 = (Threw err, w2) ∧
          transient err = false ∧
          runWithRetry fn maxRetries delayMs w = (Threw (as_Error err), w2))
     ∨ (j = maxRetries ∧
          runWithRetry fn maxRetries delayMs w
          = (Threw (default (JsValue "undefined") le), w1) ∧
          (maxRetries = 0 → w1 = w ∧ le = None))).
Proof.
  destruct (retry_loop_decomposed fn delayMs maxRetries 0 w None)
    as (j & w1 & le & _ & Hhi & Hre & Hcase).
  exists j, w1, le. split; [done|]. split; [done|].
  destruct Hcase as [H|[H|[-> H]]]; [by left|by right; left|].
  right; right. split; [done|]. split; [done|].
  intros ->. inversion Hre; subst; [done|].
  match goal with H : retried _ _ 1 _ _ _ _ _ |- _ =>
    apply retried_le in H; simpl in H; lia end.
Qed.

(** X6: What [runWithRetry] throws after at least one attempt is an
    [Error]: a value that is not an [Error] is wrapped in one, with its
    string conversion as message. With no attempt allowed it throws
    [undefined] and leaves the world as it is. *)
Theorem runWithRetry_throws_Error {T} (fn : M T) (maxRetries : nat) (delayMs : N)
    (w w' : World) (thrown_value : thrown) :
  runWithRetry fn maxRetries delayMs w = (Threw thrown_value, w') →
  (maxRetries = 0 ∧ thrown_value = JsValue "undefined" ∧ w' = w)
  ∨ (0 < maxRetries ∧ ∃ err, thrown_value = JsError (message_of err)).
Proof.
  intros E.
  destruct (retry_loop_decomposed fn delayMs maxRetries 0 w None)
    as (j & w1 & le & _ & Hhi & Hre & Hcase).
  unfold runWithRetry in E.
  destruct Hcase as [(_ & v & w2 & _ & H)|[(Hj & err & w2 & _ & _ & H)|[-> H]]];
    rewrite H in E.
  - done.
  - injection E as <- <-. right. split; [lia|]. exists err. by destruct err.
  - injection E as <- <-. destruct maxRetries as [|n].
    + left. inversion Hre; subst; [done|].
      match goal with H : retried _ _ 1 _ _ _ _ _ |- _ =>
        apply retried_le in H; simpl in H; lia end.
    + right. split; [lia|].
      destruct (retried_last_Error _ _ _ _ _ _ _ _ Hre) as (err & -> & _); [lia|].
      by exists err.
Qed.

Lemma runWithRetry_throws_Error_witness :
  let w := mkWorld ∅ ∅ [Some (JsValue "socket closed")] "2026-02-06T12:00:00.000Z" [] in
  ∃ err, (runWithRetry (startProcess CmdTestConfig) 5 3000 w).1
         = Threw (JsError (message_of err)).
Proof.
  intros w.
  edestruct (runWithRetry_throws_Error (startProcess CmdTestConfig) 5 3000 w)
    as [[H _]|[_ [err H]]].
  - vm_compute. reflexivity.
  - discriminate H.
  - exists err. rewrite <- H. vm_compute. reflexivity.
Defined.

End Attempts.

(** ** The marker, and what backup and restore leave alone *)

Module Integrity.
Import World JsString Sandbox SyncDirect Notions Safety.
Import Effects Retry Frames Results Checks.
Import Base64 Base64Facts Transport FaultFree RoundTrip Reads.

Lemma pure_call_returned {A} (ev : Event) (f : World → A) (w w' : World) (a : A) :
  external ev (λ w, (f w, w)) w = (Returned a, w') →
  files w' = files w ∧ objects w' = objects w ∧ a = f w'.
Proof. by intros (w0 & Hf & Ho & [= <- <-])%external_returned. Qed.

(** X7: [getLastSyncDirect] never rejects and changes neither the sandbox
    nor the bucket, whatever calls fail; a timestamp it returns is the
    text of the marker that the bucket holds; without bucket binding it
    returns null and makes no call. *)
Theorem getLastSyncDirect_sound (env : MoltbotEnv) (w : World) :
  ∃ r w', getLastSyncDirect env w = (Returned r, w') ∧
    files w' = files w ∧ objects w' = objects w ∧
    (∀ t, r = Some t →
       is_Some (MOLTBOT_BUCKET env) ∧
       ∃ bs, objects w !! ".last-sync" = Some bs ∧ t = String.string_of_list_byte bs) ∧
    (MOLTBOT_BUCKET env = None → r = None ∧ w' = w).
Proof.
  unfold getLastSyncDirect. destruct (MOLTBOT_BUCKET env) as [b|] eqn:Eb.
  2:{ exists None, w. repeat split; done. }
  destruct (Bucket.get ".last-sync" w) as [[o|err] w1] eqn:E1.
  2:{ rewrite (try_bind_threw _ _ _ _ _ _ E1).
      apply external_threw in E1 as [? ?]. exists None, w1. repeat split; done. }
  rewrite (try_bind_returned _ _ _ _ _ _ E1).
  apply pure_call_returned in E1 as (Hf1 & Ho1 & ->). rewrite Ho1.
  destruct (objects w !! ".last-sync") as [bs|] eqn:Em; simpl.
  2:{ exists None, w1. repeat split; done. }
  destruct (Bucket.text (Bucket.mkObject ".last-sync" bs) w1) as [[t|err] w2] eqn:E2.
  2:{ rewrite (try_bind_threw _ _ _ _ _ _ E2).
      apply external_threw in E2 as [? ?]. exists None, w2.
      repeat split; try done; congruence. }
  rewrite (try_bind_returned _ _ _ _ _ _ E2).
  apply pure_call_returned in E2 as (Hf2 & Ho2 & ->). simpl.
  eexists _, w2. split; [done|]. split; [congruence|]. split; [congruence|].
  split; [|done]. intros t [= <-]. split; [done|]. by exists bs.
Qed.

(** X8: After a call of [syncToR2Direct] that met no fault and did not
    stop at the sanity check, [getLastSyncDirect] returns the time of
    that call, whether the result of the call has success = true or not;
    when it has, its [lastSync] is that time too. *)
Theorem lastSync_after_backup (env : MoltbotEnv) (w w' : World) (r : SyncResult) :
  is_Some (MOLTBOT_BUCKET env) → faults w = [] →
  syncToR2Direct env w = (Returned r, w') → r ≠ sync_aborted →
  (getLastSyncDirect env w').1 = Returned (Some (clock w)) ∧
  (success r = true → lastSync r = Some (clock w)).
Proof.
  intros Hb Hq E Hr.
  destruct (syncToR2Direct_checked env w Hb) as (w1 & _ & [Hc Hf] & [H|H]);
    rewrite H in E; [by injection E as <- _|].
  destruct (backupAll_marker w1) as (n & errs & w2 & E2 & _ & Hm).
  rewrite E2 in E. injection E as <- <-. rewrite Hc in *.
  specialize (Hm (Hf Hq)).
  assert (Hq2 : faults w2 = []).
  { pose proof (backupAll_steady calm (λ _, True)) as Hs.
    specialize (Hs (λ _ _, I) (λ _ _, conj I (λ _, I)) (λ _, I)
                  (λ _ _, conj eq_refl (λ H, H)) w1).
    rewrite E2 in Hs. destruct Hs as [_ Hs]. auto. }
  split.
  - rewrite (getLastSyncDirect_present env w2 _ Hb (quiet_fault_free 2 w2 Hq2) Hm).
    unfold marker_bytes. by rewrite String.string_of_list_byte_of_string.
  - unfold syncReport. by destruct (_ && _).
Qed.

Lemma lastSync_after_backup_witness :
  let env := mkEnv (Some TheBucket) in
  let w := mkWorld (list_to_map [("/root/.clawdbot/clawdbot.json", [])]) ∅ []
             "2026-02-06T12:00:00.000Z" [] in
  (getLastSyncDirect env (syncToR2Direct env w).2).1
  = Returned (Some "2026-02-06T12:00:00.000Z").
Proof.
  intros env w.
  edestruct (lastSync_after_backup env w) as [H _];
    [by eexists|reflexivity|vm_compute; reflexivity|vm_compute; discriminate|].
  vm_compute in H |- *. exact H.
Defined.


Global Instance backup_sound_po (F : gmap string (list byte)) (T : string) :
  PreOrder (backup_sound F T).
Proof.
  split.
  - intros w (Hf & Hc & Hl). auto.
  - intros x y z Hxy Hyz Hx. destruct (Hxy Hx) as (Hf & Hc & Hl & Ho).
    destruct (Hyz (conj Hf (conj Hc Hl))) as (Hf' & Hc' & Hl' & Ho').
    split; [done|]. split; [done|]. split; [done|].
    intros k. destruct (Ho' k) as [->|?]; auto.
Qed.

Section BackupSound.
Context (F : gmap string (list byte)) (T : string).

Lemma quiet_piece {A} (m : M A) :
  (∀ R, Frame R (λ _, True) → steady R m) → steady (backup_sound F T) m.
Proof.
  intros H w (Hf & Hc & Hl).
  pose proof (H same_files _ w) as H1. pose proof (H same_objects _ w) as H2.
  pose proof (H calm _ w) as [H3 _]. pose proof (H stays_loud _ w Hl) as H4.
  unfold same_files, same_objects in *.
  split; [congruence|]. split; [congruence|]. split; [done|].
  intros k. left. by rewrite H2.
Qed.

Lemma backupFile_sound (filePath : string) (st : nat * list string) :
  steady (backup_sound F T) (backupFile filePath st).
Proof.
  intros w (Hf & Hc & Hl). destruct st as [n errs]. unfold backupFile.
  destruct (excluded filePath) eqn:Ex; [by simpl; auto|].
  destruct (readFileFromContainer_cases filePath w)
    as (r & w1 & E & Hf1 & Ho1 & Hcase).
  pose proof (readFileFromContainer_loud _ _ _ _ Hl E) as Hloud.
  pose proof (readFileFromContainer_steady stays_loud (λ _, True) filePath I w) as Hl1.
  pose proof (readFileFromContainer_steady calm (λ _, True) filePath I w) as [Hc1 _].
  rewrite E in Hl1, Hc1. simpl in Hl1, Hc1. specialize (Hl1 Hl).
  apply runWithRetry_default_returned in E.
  unfold readForUpload. rewrite bind_unfold.
  rewrite (try_bind_returned _ _ _ _ _ _ E).
  destruct Hcase as [[e ->]|(bs & Hbs & Hfile & ->)]; cbn [read_error data from_option].
  - rewrite (Hloud e eq_refl). simpl.
    split; [congruence|]. split; [congruence|]. split; [done|].
    intros k. left. congruence.
  - simpl.
    destruct (Bucket.put (r2Key filePath) bs w1) as [[u|err] w2] eqn:E2.
    + rewrite (try_bind_returned _ _ _ _ _ _ E2). simpl.
      pose proof (put_steady stays_loud (λ _, True) (r2Key filePath) bs I
                    (λ _ _ H, H) w1) as Hl2.
      pose proof (put_steady calm (λ _, True) (r2Key filePath) bs I
                    (λ _ _, conj eq_refl (λ H, H)) w1) as [Hc2 _].
      rewrite E2 in Hl2, Hc2. simpl in Hl2, Hc2.
      apply external_returned in E2 as (w0 & Hf0 & Ho0 & [= <- <-]).
      simpl in *. split; [congruence|]. split; [congruence|]. split; [auto|].
      intros k. destruct (decide (k = r2Key filePath)) as [->|Hk].
      * right. exists bs. rewrite lookup_insert_eq. split; [done|].
        right. exists filePath. rewrite <- Hf. auto.
      * left. rewrite lookup_insert_ne by done. congruence.
    + rewrite (try_bind_threw _ _ _ _ _ _ E2). simpl.
      pose proof (put_steady stays_loud (λ _, True) (r2Key filePath) bs I
                    (λ _ _ H, H) w1) as Hl2.
      pose proof (put_steady calm (λ _, True) (r2Key filePath) bs I
                    (λ _ _, conj eq_refl (λ H, H)) w1) as [Hc2 _].
      rewrite E2 in Hl2, Hc2. simpl in Hl2, Hc2.
      apply external_threw in E2 as [Hf2 Ho2].
      split; [congruence|]. split; [congruence|]. split; [auto|].
      intros k. left. congruence.
Qed.

Lemma backupPath_sound (basePath : string) (st : nat * list string) :
  steady (backup_sound F T) (backupPath basePath st).
Proof.
  apply steady_bind; [apply _| |].
  - apply quiet_piece. intros R HR. apply (try_ok R (λ _, True)).
    + apply (bind_ok R (λ _, True)).
      * by apply (runWithRetry_default_steady R (λ _, True)),
                 (listFilesInContainer_steady R (λ _, True)).
      * intros fl. apply (ret_ok R (λ _, True)).
    + intros err. apply (bind_ok R (λ _, True)).
      * by apply (emit_steady R (λ _, True)).
      * intros _. apply (ret_ok R (λ _, True)).
  - intros [fl|]; [|apply steady_ret, _].
    apply steady_for_of; [apply _|]. intros p _ s. apply backupFile_sound.
Qed.

Lemma writeMarker_sound (n : nat) (errs : list string) :
  steady (backup_sound F T)
    (timestamp ← (λ w, (Returned (clock w), w));
     try_catch (Bucket.put ".last-sync" (String.list_byte_of_string timestamp))
               (λ _, mret tt);;
     mret (syncReport n errs timestamp)).
Proof.
  intros w (Hf & Hc & Hl). rewrite bind_unfold. rewrite bind_unfold.
  unfold try_catch.
  pose proof (put_steady stays_loud (λ _, True) ".last-sync"
                (String.list_byte_of_string (clock w)) I (λ _ _ H, H) w) as Hl2.
  pose proof (put_steady calm (λ _, True) ".last-sync"
                (String.list_byte_of_string (clock w)) I
                (λ _ _, conj eq_refl (λ H, H)) w) as [Hc2 _].
  destruct (Bucket.put _ _ w) as [[u|err] w2] eqn:E2; simpl in *.
  - apply external_returned in E2 as (w0 & Hf0 & Ho0 & [= <- <-]). simpl in *.
    split; [congruence|]. split; [congruence|]. split; [auto|].
    intros k. destruct (decide (k = ".last-sync")) as [->|Hk].
    + right. eexists. rewrite lookup_insert_eq. split; [done|].
      left. split; [done|]. unfold marker_bytes. congruence.
    + left. rewrite lookup_insert_ne by done. congruence.
  - apply external_threw in E2 as [Hf2 Ho2].
    split; [congruence|]. split; [congruence|]. split; [auto|].
    intros k. left. congruence.
Qed.

Lemma backupAll_sound : steady (backup_sound F T) backupAll.
Proof.
  apply steady_bind; [apply _| |].
  - apply steady_for_of; [apply _|]. intros p _ s. apply backupPath_sound.
  - intros [n errs]. apply writeMarker_sound.
Qed.

Lemma syncToR2Direct_sound (env : MoltbotEnv) :
  steady (backup_sound F T) (syncToR2Direct env).
Proof.
  unfold syncToR2Direct. destruct (MOLTBOT_BUCKET env); [|apply steady_ret, _].
  apply steady_bind; [apply _| |].
  - apply quiet_piece. intros R HR.
    by apply (getLastSyncDirect_steady R (λ _, True)).
  - intros existing. case_match; [|apply backupAll_sound].
    apply steady_bind; [apply _| |].
    + apply quiet_piece. intros R HR.
      by apply (sanityCheck_steady R (λ _, True)).
    + intros [res|]; [apply steady_ret, _|apply backupAll_sound].
Qed.

End BackupSound.



Lemma restoreObject_writes (k : string) (st : nat * list string) (w : World) :
  objects (restoreObject k st w).2 = objects w ∧
  (files (restoreObject k st w).2 = files w
   ∨ ∃ q v, restorable k = true ∧ containerPath k = Some q ∧
       objects w !! k = Some v ∧
       files (restoreObject k st w).2 = <[q := v]> (files w)).
Proof.
  destruct st as [n errs]. unfold restoreObject.
  destruct (String.eqb k ".last-sync") eqn:Em; [by auto|].
  destruct (containerPath k) as [q|] eqn:Eq; [|by auto].
  assert (Hres : restorable k = true).
  { unfold restorable. rewrite Em, Eq. done. }
  destruct (Bucket.get k w) as [[o|err] w1] eqn:E1.
  2:{ rewrite (try_bind_threw _ _ _ _ _ _ E1).
      apply external_threw in E1 as [? ?]. simpl. auto. }
  rewrite (try_bind_returned _ _ _ _ _ _ E1).
  apply pure_call_returned in E1 as (Hf1 & Ho1 & ->). rewrite Ho1.
  destruct (objects w !! k) as [v|] eqn:Ek; simpl; [|by auto].
  destruct (Bucket.arrayBuffer (Bucket.mkObject k v) w1) as [[d|err] w2] eqn:E2.
  2:{ rewrite (try_bind_threw _ _ _ _ _ _ E2).
      apply external_threw in E2 as [? ?]. simpl.
      split; [congruence|]. left. congruence. }
  rewrite (try_bind_returned _ _ _ _ _ _ E2).
  apply pure_call_returned in E2 as (Hf2 & Ho2 & ->). simpl.
  destruct (startProcess (CmdMkdir (beforeLastSlash q)) w2) as [[p3|err] w3] eqn:E3.
  2:{ rewrite (try_bind_threw _ _ _ _ _ _ E3).
      apply external_threw in E3 as [? ?]. simpl.
      split; [congruence|]. left. congruence. }
  rewrite (try_bind_returned _ _ _ _ _ _ E3).
  apply startProcess_read in E3 as (Hf3 & Ho3 & _); [|done].
  destruct (startProcess (CmdWrite (btoa v) q) w3) as [[p4|err] w4] eqn:E4.
  2:{ rewrite (try_bind_threw _ _ _ _ _ _ E4).
      apply external_threw in E4 as [? ?]. simpl.
      split; [congruence|]. left. congruence. }
  rewrite (try_bind_returned _ _ _ _ _ _ E4).
  apply external_returned in E4 as (w0 & Hf0 & Ho0 & [= <- <-]).
  rewrite atob_btoa. simpl.
  set (w4 := set_files _ w0).
  assert (Hf4 : files w4 = <[q := v]> (files w)) by (subst w4; simpl; congruence).
  assert (Ho4 : objects w4 = objects w) by (subst w4; simpl; congruence).
  clearbody w4.
  destruct (waitForProcess (mkProcess (CmdWrite (btoa v) q) "") 10000 w4)
    as [[u|err] w5] eqn:E5.
  - rewrite (try_bind_returned _ _ _ _ _ _ E5).
    apply call_returned in E5 as (_ & Hf5 & Ho5). simpl.
    split; [congruence|]. right. exists q, v. repeat split; [done|congruence].
  - rewrite (try_bind_threw _ _ _ _ _ _ E5).
    apply external_threw in E5 as [Hf5 Ho5]. simpl.
    split; [congruence|]. right. exists q, v. repeat split; [done|congruence].
Qed.

Global Instance restore_sound_po (O : gmap string (list byte)) :
  PreOrder (restore_sound O).
Proof.
  split.
  - intros w Ho. auto.
  - intros x y z Hxy Hyz Hx. destruct (Hxy Hx) as (Ho & Hf).
    destruct (Hyz Ho) as (Ho' & Hf'). split; [done|].
    intros q. destruct (Hf' q) as [->|?]; auto.
Qed.

Lemma restoreObject_sound (O : gmap string (list byte)) (k : string)
    (st : nat * list string) :
  steady (restore_sound O) (restoreObject k st).
Proof.
  intros w HO.
  destruct (restoreObject_writes k st w) as [Ho [Hf|(q & v & Hr & Hq & Hk & Hf)]].
  - split; [congruence|]. intros q. left. by rewrite Hf.
  - split; [congruence|]. intros q'. rewrite Hf.
    destruct (decide (q' = q)) as [->|Hne].
    + right. exists v. rewrite lookup_insert_eq. split; [done|].
      exists k. by rewrite <- HO.
    + left. by rewrite lookup_insert_ne.
Qed.

Lemma restoreFromR2Direct_sound (O : gmap string (list byte)) (env : MoltbotEnv) :
  steady (restore_sound O) (restoreFromR2Direct env).
Proof.
  unfold restoreFromR2Direct. destruct (MOLTBOT_BUCKET env); [|apply steady_ret, _].
  apply steady_bind; [apply _| |].
  - intros w HO.
    pose proof (list_keys_steady same_files (λ _, True) I w) as H1.
    pose proof (list_keys_steady same_objects (λ _, True) I w) as H2.
    unfold same_files, same_objects in *.
    split; [congruence|]. intros q. left. by rewrite H1.
  - intros listed. apply steady_bind; [apply _| |].
    + apply steady_for_of; [apply _|]. intros k _ s. apply restoreObject_sound.
    + intros [n errs]. apply steady_ret, _.
Qed.


Lemma restoreObjects_skip (l : list string) (st : nat * list string) (w : World) :
  (∀ k, k ∈ l → restorable k = false) →
  for_of l restoreObject st w = (Returned st, w).
Proof.
  induction l as [|k l IH]; intros Hl; [done|].
  rewrite for_of_cons.
  rewrite (bind_returned _ _ _ _ _ (restoreObject_skip k st w (Hl k ltac:(left)))).
  apply IH. intros k' Hk'. apply Hl. by right.
Qed.

(** X12: On a bucket that holds nothing to restore (no object, or only
    the marker and objects under unknown prefixes), [restoreFromR2Direct]
    makes no call but the listing and returns success = false with a
    count of 0 and no details, although nothing failed. *)
Theorem restore_of_unrelated_bucket (env : MoltbotEnv) (w : World) :
  is_Some (MOLTBOT_BUCKET env) → fault_free 1 w = true →
  (∀ k, is_Some (objects w !! k) → restorable k = false) →
  restoreFromR2Direct env w
  = (Returned (mkSyncResult false None None None (Some 0)), advance EvBucketList w).
Proof.
  intros [b Hb] Hff Hun. unfold restoreFromR2Direct. rewrite Hb.
  unfold Bucket.list_keys.
  rewrite (bind_returned _ _ _ _ _ (external_ok _ _ 0 w Hff)). cbn [fst snd].
  assert (Hskip : ∀ k, k ∈ merge_sort String.le
                             (map_to_list (objects (advance EvBucketList w))).*1 →
                    restorable k = false).
  { intros k Hk. apply Hun. by apply elem_of_listed in Hk. }
  by rewrite (bind_returned _ _ _ _ _ (restoreObjects_skip _ (0, []) _ Hskip)).
Qed.

Lemma restore_of_unrelated_bucket_witness :
  let env := mkEnv (Some TheBucket) in
  let w := mkWorld ∅
             (list_to_map [(".last-sync", marker_bytes "2026-02-06T12:00:00.000Z");
                           ("workspace/notes.md", String.list_byte_of_string "n")])
             [] "2026-02-06T13:00:00.000Z" [] in
  (restoreFromR2Direct env w).1
  = Returned (mkSyncResult false None None None (Some 0)).
Proof.
  intros env w.
  rewrite (restore_of_unrelated_bucket env w); [done|by eexists|done|].
  intros k [v Hk]. apply elem_of_list_to_map_2 in Hk.
  apply elem_of_cons in Hk as [[= -> _]|Hk]; [done|].
  apply elem_of_cons in Hk as [[= -> _]|Hk]; [done|].
  by apply elem_of_nil in Hk.
Defined.

Lemma runWithRetry_total {T} (fn : M T) (n : nat) (delayMs : N) (w : World) :
  returns fn (λ _, True) → runWithRetry fn (S n) delayMs w = fn w.
Proof.
  intros Hfn. destruct (Hfn w) as (v & w' & E & _). rewrite E.
  by apply retry_loop_returned.
Qed.

(** X24: the retry wrapper never retries a read or a listing: since
    [readFileFromContainer] and [listFilesInContainer] catch every error,
    a call of [runWithRetry] on them is one plain call; the listing step of
    [syncToR2Direct] is a plain listing whose [catch] never runs; and a
    read whose first sandbox call fails, be it with the reset signature,
    is recorded as the error of the file after that single attempt,
    without delay. *)
Theorem reads_are_not_retried :
  (∀ filePath n delayMs w,
     runWithRetry (readFileFromContainer filePath) (S n) delayMs w
     = readFileFromContainer filePath w) ∧
  (∀ dirPath n delayMs w,
     runWithRetry (listFilesInContainer dirPath) (S n) delayMs w
     = listFilesInContainer dirPath w) ∧
  (∀ basePath st w,
     backupPath basePath st w
     = (files ← listFilesInContainer basePath; for_of files backupFile st) w) ∧
  (∀ filePath n errs w err rest,
     excluded filePath = false → faults w = Some err :: rest →
     truthy (error_message err) = true →
     backupFile filePath (n, errs) w
     = (Returned (n, errs ++ [filePath +:+ ": " +:+ error_message err]),
        set_faults rest (log_event (EvStartProcess (CmdBase64 filePath)) w))).
Proof.
  split; [|split; [|split]].
  - intros. apply runWithRetry_total, readFileFromContainer_returns.
  - intros. apply runWithRetry_total, listFilesInContainer_returns.
  - intros basePath st w. unfold backupPath.
    destruct (listFilesInContainer_returns basePath w) as (fl & w0 & E & _).
    transitivity (for_of fl backupFile st w0).
    + rewrite (bind_returned _ _ w w0 (Some fl)); [done|].
      apply try_catch_returned.
      by rewrite (bind_returned _ _ _ _ _ (runWithRetry_default_returned _ _ _ _ E)).
    + symmetry.
      exact (bind_returned (listFilesInContainer basePath)
               (λ files, for_of files backupFile st) w w0 fl E).
  - intros filePath n errs w err rest Hex Hf Ht. unfold backupFile. rewrite Hex.
    assert (E : readFileFromContainer filePath w
                = (Returned (mkRead [] (Some (error_message err))),
                   set_faults rest (log_event (EvStartProcess (CmdBase64 filePath)) w))).
    { unfold readFileFromContainer.
      rewrite (try_bind_threw _ _ _ w
                 (set_faults rest (log_event (EvStartProcess (CmdBase64 filePath)) w)) err);
        [done|].
      unfold startProcess, external. simpl. by rewrite Hf. }
    apply runWithRetry_default_returned in E.
    unfold readForUpload. rewrite bind_unfold.
    rewrite (try_bind_returned _ _ _ _ _ _ E). simpl. by rewrite Ht.
Qed.

End Integrity.

(** ** Keys, suffixes and the transport of bytes *)

Module Mapping.
Import World JsString Sandbox SyncDirect Notions Safety.
Import JsStringFacts KeyMapping Base64 Base64Facts Transport RoundTrip.

Lemma containerPath_under_root (k q : string) :
  containerPath k = Some q → under_root q = true.
Proof.
  unfold containerPath, under_root, BACKUP_PATHS. cbn [existsb].
  destruct (startsWith k "clawdbot/"); [intros [= <-]|].
  { by rewrite (startsWith_app "/root/.clawdbot/"). }
  destruct (startsWith k "skills/"); [intros [= <-]|done].
  rewrite (startsWith_app "/root/clawd/skills/"). by rewrite orb_true_r.
Qed.

Lemma r2Key_containerPath (k q : string) :
  containerPath k = Some q → root_free q = true → r2Key q = k.
Proof.
  intros Hk Hfree. unfold root_free, BACKUP_PATHS in Hfree. cbn [forallb] in Hfree.
  rewrite andb_true_r in Hfree. apply andb_true_iff in Hfree as [H1 H2].
  apply negb_true_iff in H1, H2.
  unfold containerPath in Hk.
  destruct (startsWith k "clawdbot/") eqn:E1.
  - apply startsWith_split in E1. change (String.length "clawdbot/") with 9 in E1.
    set (rel := slice 9 k) in *. clearbody rel. injection Hk as <-. subst k.
    change (slice 1 ("/root/.clawdbot/" +:+ rel))
      with ("root/.clawdbot" +:+ String "/" rel) in H2.
    apply includes_app_r in H2. by rewrite r2Key_config.
  - destruct (startsWith k "skills/") eqn:E2; [|done].
    apply startsWith_split in E2. change (String.length "skills/") with 7 in E2.
    set (rel := slice 7 k) in *. clearbody rel. injection Hk as <-. subst k.
    change (slice 1 ("/root/clawd/skills/" +:+ rel))
      with ("root/clawd/skills" +:+ String "/" rel) in H1.
    apply includes_app_r in H1. by rewrite r2Key_skills.
Qed.



Lemma length_append (a b : string) :
  String.length (a +:+ b) = String.length a + String.length b.
Proof. induction a as [|c a IH]; [done|]. rewrite app_cons. simpl. by rewrite IH. Qed.

Lemma slice_split (n : nat) (s : string) :
  n ≤ String.length s → ∃ stem, s = stem +:+ slice n s.
Proof.
  revert s. induction n as [|n IH]; intros s Hn; [by exists ""|].
  destruct s as [|c s]; simpl in Hn; [lia|].
  destruct (IH s) as [stem Hs]; [lia|].
  exists (String c stem). rewrite app_cons. simpl. by rewrite <- Hs.
Qed.

Lemma endsWith_spec (s suf : string) :
  endsWith s suf = true ↔ ∃ stem, s = stem +:+ suf.
Proof.
  unfold endsWith. split.
  - destruct (_ <? _)%nat eqn:El; [done|]. apply Nat.ltb_ge in El.
    intros E%String.eqb_eq.
    destruct (slice_split (String.length s - String.length suf) s) as [stem Hs]; [lia|].
    exists stem. by rewrite E in Hs.
  - intros [stem ->]. rewrite length_append.
    replace (_ <? _)%nat with false by (symmetry; apply Nat.ltb_ge; lia).
    replace (String.length stem + String.length suf - String.length suf)
      with (String.length stem) by lia.
    rewrite slice_app. apply String.eqb_refl.
Qed.

(** X14: Backup skips a file exactly when its path ends with [.lock],
    [.log] or [.tmp]: the path is some text, possibly empty, followed by
    one of the three suffixes in lower case. A skipped file is neither read
    nor counted. *)
Theorem excluded_iff_suffix (filePath : string) :
  (excluded filePath = true ↔
     ∃ stem suffix, suffix ∈ EXCLUDE_SUFFIXES ∧ filePath = stem +:+ suffix) ∧
  (∀ st w, excluded filePath = true → backupFile filePath st w = (Returned st, w)).
Proof.
  split; [|intros st w; apply backupFile_excluded].
  unfold excluded. rewrite existsb_exists. split.
  - intros (suffix & Hin & [stem ->]%endsWith_spec).
    exists stem, suffix. split; [by apply list_elem_of_In|done].
  - intros (stem & suffix & Hin & ->). exists suffix.
    split; [by apply list_elem_of_In|]. apply endsWith_spec. by exists stem.
Qed.

Lemma includes_app_l (a b pat : string) :
  includes b pat = true → includes (a +:+ b) pat = true.
Proof.
  intros Hb. induction a as [|c a IH]; [done|].
  rewrite app_cons, includes_unfold. rewrite IH. by destruct (startsWith _ _).
Qed.

Lemma includes_slash (rest : string) : includes (String "/" rest) "/" = true.
Proof. by rewrite includes_unfold, startsWith_cons. Qed.

Lemma beforeLastSlash_app (a b : string) :
  includes b "/" = true → beforeLastSlash (a +:+ b) = a +:+ beforeLastSlash b.
Proof.
  intros Hb. induction a as [|c a IH]; [done|].
  rewrite !app_cons. simpl. by rewrite (includes_app_l a b "/" Hb), IH.
Qed.

Lemma beforeLastSlash_split (s : string) :
  includes s "/" = true →
  ∃ name, s = beforeLastSlash s +:+ "/" +:+ name ∧ includes name "/" = false.
Proof.
  induction s as [|c s IH]; [done|]. intros Hs. simpl.
  destruct (includes s "/") eqn:Es.
  - destruct (IH eq_refl) as (name & Hn & Hname). exists name.
    split; [|done]. rewrite app_cons. by rewrite <- Hn.
  - exists s. split; [|done]. rewrite includes_unfold, Es in Hs.
    rewrite startsWith_cons in Hs.
    by destruct (Ascii.eqb_spec "/" c) as [<-|].
Qed.



(** X15: The bytes that restore hands to the sandbox with [btoa] and the
    bytes that backup gets from it with [base64] come back unchanged from
    the decoding by [atob], whatever they are; two different byte
    sequences never have the same encoding. *)
Theorem base64_transport (bs : list byte) :
  atob (btoa bs) = Some bs ∧
  atob (trim (cli_encode bs)) = Some bs ∧
  (∀ bs', btoa bs' = btoa bs → bs' = bs).
Proof.
  split; [apply atob_btoa|]. split; [apply atob_cli_encode|].
  intros bs' E. apply (f_equal atob) in E. rewrite !atob_btoa in E. congruence.
Qed.

End Mapping.

(** ** Calls in sequence *)

Module Sequences.
Import World JsString Sandbox SyncDirect Notions Safety.
Import Effects Retry Frames Results Checks.
Import JsStringFacts KeyMapping Base64 Base64Facts Transport FaultFree RoundTrip.
Import Reads Integrity Mapping.

Lemma load_lookup_notin {A} (key : A → option string) (val : A → list byte)
    (m : gmap string (list byte)) (l : list A) (k : string) :
  (∀ x, x ∈ l → key x ≠ Some k) → load key val m l !! k = m !! k.
Proof.
  revert m. induction l as [|x l IH]; intros m Hl; [done|].
  rewrite load_cons, IH by (intros y Hy; apply Hl; by right).
  unfold load_step. destruct (key x) as [k'|] eqn:Ek; [|done].
  apply lookup_insert_ne. intros ->. by apply (Hl x); [left|].
Qed.

Lemma load_lookup_cases {A} (key : A → option string) (val : A → list byte)
    (m : gmap string (list byte)) (l : list A) (k : string) :
  (∃ x, x ∈ l ∧ key x = Some k) ∨ load key val m l !! k = m !! k.
Proof.
  destruct (decide (Exists (λ x, key x = Some k) l)) as [H|H].
  - left. by apply Exists_exists in H.
  - right. apply load_lookup_notin. intros x Hx Hk. apply H, Exists_exists. eauto.
Qed.

Lemma syncReport_clean (n : nat) (ts : string) :
  syncReport n [] ts = mkSyncResult true (Some ts) None None (Some n).
Proof. unfold syncReport. by rewrite andb_false_r. Qed.

Lemma safe_files (F : gmap string (list byte)) :
  forallb (λ '(p, bs), backup_safe p bs) (map_to_list F) = true →
  ∀ p bs, F !! p = Some bs → backup_safe p bs = true.
Proof.
  intros HF p bs Hp. rewrite forallb_forall in HF.
  by apply (HF (p, bs)), list_elem_of_In, elem_of_map_to_list.
Qed.

Lemma uploads_lookup (F O : gmap string (list byte)) (p : string) (v : list byte) :
  (∀ q bs, F !! q = Some bs → backup_safe q bs = true) →
  F !! p = Some v →
  uploads F O (listing F) !! r2Key p = Some v.
Proof.
  intros Hsafe Hp.
  destruct (backup_safe_facts p v (Hsafe p v Hp)) as (Hroot & _ & Hfree & _).
  rewrite (load_lookup_in _ _ _ _ (r2Key p) p).
  - by rewrite Hp.
  - intros y [[u Hy] _]%elem_of_listing [= Hy'].
    destruct (backup_safe_facts y u (Hsafe y u Hy)) as (Hroot' & _ & Hfree' & _).
    by rewrite (r2Key_inj y p).
  - apply elem_of_listing. split; [by eexists|done].
  - done.
Qed.

Lemma r2Key_not_marker (p : string) :
  under_root p = true → root_free p = true → r2Key p ≠ ".last-sync".
Proof.
  intros Hroot Hfree E. pose proof (containerPath_r2Key p Hroot Hfree) as H.
  by rewrite E in H.
Qed.



Lemma downloads_lookup (O F : gmap string (list byte)) (k q : string) (v : list byte) :
  O !! k = Some v → restore_key k = Some q →
  downloads O F (merge_sort String.le (map_to_list O).*1) !! q = Some v.
Proof.
  intros Hk Hq. rewrite (load_lookup_in restore_key _ _ _ q k).
  - by rewrite Hk.
  - intros y _ [_ Hy]%restore_key_Some. apply restore_key_Some in Hq as [_ Hq].
    by rewrite (containerPath_inj _ _ _ Hy Hq).
  - apply elem_of_listed. by eexists.
  - done.
Qed.

Lemma restoreFromR2Direct_calm (env : MoltbotEnv) :
  steady calm (restoreFromR2Direct env).
Proof.
  unfold restoreFromR2Direct.
  destruct (MOLTBOT_BUCKET env); [|apply (ret_ok calm (λ _, True))].
  apply (bind_ok calm (λ _, True)); [by apply (list_keys_steady calm (λ _, True))|].
  intros listed. apply (bind_ok calm (λ _, True)).
  - apply (for_ok calm (λ _, True)). intros k _ st.
    by apply (restoreObject_steady calm (λ _, True)).
  - intros [n errs]. apply (ret_ok calm (λ _, True)).
Qed.



Lemma roots_apart (q : string) :
  startsWith q "/root/.clawdbot/" = true → startsWith q "/root/clawd/skills/" = false.
Proof.
  intros H1%startsWith_split.
  destruct (startsWith q "/root/clawd/skills/") eqn:H2; [|done].
  apply startsWith_split in H2. rewrite H1 in H2 at 1.
  cbv [String.append String.length] in H2. discriminate H2.
Qed.

Lemma filter_partition_length {A} (P Q : A → Prop)
    `{∀ x, Decision (P x), ∀ x, Decision (Q x)} (l : list A) :
  (∀ x, x ∈ l → (P x ∨ Q x) ∧ ¬ (P x ∧ Q x)) →
  length (filter P l) + length (filter Q l) = length l.
Proof.
  induction l as [|x l IH]; intros Hl; [done|].
  rewrite !filter_cons. specialize (IH (λ y Hy, Hl y ltac:(by right))).
  destruct (Hl x ltac:(by left)) as [Hor Hnot].
  destruct (decide (P x)), (decide (Q x)); simpl; try lia; tauto.
Qed.

Lemma listing_length (W : gmap string (list byte)) :
  (∀ q, is_Some (W !! q) → under_root q = true) →
  length (listing W) = size W.
Proof.
  intros HW. unfold listing, find_files.
  rewrite length_app, !merge_sort_Permutation.
  rewrite filter_partition_length; [by rewrite length_fmap, length_map_to_list|].
  intros q ((q' & v) & -> & Hq%elem_of_map_to_list)%list_elem_of_fmap.
  cbv beta. cbn [fst].
  specialize (HW q' ltac:(by eexists)).
  unfold under_root, BACKUP_PATHS in HW. cbn [existsb] in HW.
  rewrite orb_false_r in HW. apply orb_true_iff in HW.
  split; [done|]. intros [H1 H2]. by rewrite (roots_apart q' H1) in H2.
Qed.

Lemma safe_objects (O : gmap string (list byte)) :
  forallb (λ '(k, v), restore_safe k v) (map_to_list O) = true →
  ∀ k v q, O !! k = Some v → restore_key k = Some q → backup_safe q v = true.
Proof.
  intros HO k v q Hk [Hr Hq]%restore_key_Some. rewrite forallb_forall in HO.
  specialize (HO (k, v)). simpl in HO. unfold restore_safe in HO.
  rewrite Hr, Hq in HO. simpl in HO.
  apply andb_true_iff in HO as [HO Hv];
    [|by apply list_elem_of_In, elem_of_map_to_list].
  unfold backup_safe. rewrite (containerPath_under_root k q Hq). simpl.
  apply andb_true_iff in HO as [[-> ->]%andb_true_iff ->]. by rewrite Hv.
Qed.



End Sequences.

(** ** Mounting the bucket *)

Module Mounting.
Import World JsString R2Storage.

Lemma jbind_unfold {A B} (m : J A) (k : A → J B) (j : Journal) :
  (m ≫= k) j
  = match m j with
    | (Returned a, j') => k a j'
    | (Threw err, j') => (Threw err, j')
    end.
Proof. reflexivity. Qed.

Lemma slept_app (a b : list Call) : slept (a ++ b) = (slept a + slept b)%N.
Proof.
  induction a as [|c a IH]; [done|]. simpl. rewrite IH. destruct c; lia.
Qed.

Section Answers.
Context (sb : SandboxAnswers) (path bucket : string).

Lemma wait_while_running_shape (n : nat) (j : Journal) :
  ∃ sleeps : list Call, length sleeps ≤ n ∧ Forall (λ c, c = CallSleep 200) sleeps ∧
    wait_while_running sb n j = (Returned tt, sleeps ++ j).
Proof.
  revert j. induction n as [|n IH]; intros j; [by exists []|].
  simpl. rewrite jbind_unfold. unfold status.
  destruct (String.eqb _ _); [|by exists []; split; [simpl; lia|]].
  rewrite jbind_unfold. unfold note.
  destruct (IH (CallSleep 200 :: j)) as (sleeps & Hlen & Hall & E).
  exists (sleeps ++ [CallSleep 200]). rewrite length_app. simpl.
  split; [lia|]. split; [apply Forall_app; by repeat constructor|].
  by rewrite E, <- app_assoc.
Qed.

Lemma slept_sleeps (sleeps : list Call) :
  Forall (λ c, c = CallSleep 200) sleeps →
  slept sleeps = (200 * N.of_nat (length sleeps))%N
  ∧ filter is_start sleeps = [] ∧ filter is_mount sleeps = [].
Proof.
  induction 1 as [|c l -> _ (IH1 & IH2 & IH3)]; [done|].
  rewrite !filter_cons. simpl. rewrite IH1, IH2, IH3. split; [lia|done].
Qed.

Lemma isR2Mounted_cases (j : Journal) :
  ∃ (b : bool) (calls : list Call),
    isR2Mounted sb path j = (Returned b, calls ++ j) ∧ checked path calls ∧
    (b = true →
       ∃ text rest stdout, calls = CallConsoleLog text :: CallGetLogs :: rest ∧
         getLogs_answer sb (CallGetLogs :: rest ++ j) = inr stdout ∧
         includes stdout "s3fs" = true).
Proof.
  unfold isR2Mounted, try_catch, startProcess, getLogs, call, rejects.
  rewrite jbind_unfold.
  destruct (startProcess_answer sb _) as [err|] eqn:E1.
  { rewrite jbind_unfold. unfold note. simpl.
    exists false, [CallConsoleLog [ArgText "isR2Mounted error:"; ArgThrown err];
                   CallStartProcess (mount_check path)].
    split; [done|]. split; [by repeat split|done]. }
  rewrite jbind_unfold.
  destruct (wait_while_running_shape 10 (CallStartProcess (mount_check path) :: j))
    as (sleeps & Hlen & Hall & ->).
  destruct (slept_sleeps sleeps Hall) as (Hs & Hst & Hm).
  assert (Hchecked : ∀ text : list Call,
            filter is_start text = [] ∧ filter is_mount text = [] ∧ slept text = 0%N →
            checked path (text ++ sleeps ++ [CallStartProcess (mount_check path)])).
  { intros text (H1 & H2 & H3). unfold checked.
    rewrite !filter_app, !slept_app, Hs, Hst, Hm, H1, H2, H3.
    simpl. rewrite !filter_cons, !filter_nil. simpl.
    split; [done|]. split; [done|]. lia. }
  rewrite jbind_unfold.
  destruct (getLogs_answer sb _) as [err|stdout] eqn:E2.
  { rewrite jbind_unfold. unfold note. simpl.
    exists false, ([CallConsoleLog [ArgText "isR2Mounted error:"; ArgThrown err];
                    CallGetLogs] ++ sleeps ++ [CallStartProcess (mount_check path)]).
    split; [by rewrite <- !app_assoc|]. split; [by apply Hchecked|done]. }
  cbv zeta. rewrite jbind_unfold. unfold note. simpl.
  eexists _, ([CallConsoleLog _; CallGetLogs] ++ sleeps
              ++ [CallStartProcess (mount_check path)]).
  split; [by rewrite <- !app_assoc|]. split; [by apply Hchecked|].
  intros [_ Hinc]%andb_true_iff.
  eexists _, _, stdout. split; [done|]. split; [|done].
  by rewrite <- app_assoc.
Qed.

(** X19: [isR2Mounted] never rejects, whatever the sandbox answers: it
    starts one process, with the command of the check, waits for it at
    most ten times 200 ms, and never calls [mountBucket]; it returns true
    only when the logs it read hold 's3fs'. *)
Theorem isR2Mounted_bounded (j : Journal) :
  ∃ (b : bool) (calls : list Call),
    isR2Mounted sb path j = (Returned b, calls ++ j) ∧
    filter is_start calls = [CallStartProcess (mount_check path)] ∧
    filter is_mount calls = [] ∧
    (slept calls ≤ 2000)%N ∧
    (b = true →
       ∃ text rest stdout, calls = CallConsoleLog text :: CallGetLogs :: rest ∧
         getLogs_answer sb (CallGetLogs :: rest ++ j) = inr stdout ∧
         includes stdout "s3fs" = true).
Proof.
  destruct (isR2Mounted_cases j) as (b & calls & E & (H1 & H2 & H3) & Hb).
  by exists b, calls.
Qed.

Lemma diagnose_shape (errorMessage : string) (j : Journal) :
  ∃ diag : list Call, Forall (λ c, is_console c = true) diag ∧
    diagnose bucket errorMessage j = (Returned tt, diag ++ j).
Proof.
  unfold diagnose.
  destruct (includes errorMessage "403" || includes errorMessage "Forbidden").
  { eexists [_]. split; [|reflexivity]. by repeat constructor. }
  destruct (includes errorMessage "404" || includes errorMessage "NoSuchBucket").
  { eexists [_]. split; [|reflexivity]. by repeat constructor. }
  destruct (includes errorMessage "InvalidAccessKeyId").
  { eexists [_]. split; [|reflexivity]. by repeat constructor. }
  by exists [].
Qed.

(** The journal when [mountBucket] answers: the call, after the log line
    that announces it. *)
Lemma mountR2Storage_cases (env : MoltbotEnv) (j : Journal) :
  (configured env = false ∧
   ∃ c, is_console c = true ∧
     mountR2Storage sb path bucket env j = (Returned false, c :: j))
  ∨ (configured env = true ∧
     ∃ (b1 : bool) (c1 : list Call),
       isR2Mounted sb path j = (Returned b1, c1 ++ j) ∧ checked path c1 ∧
       ((b1 = true ∧
         ∃ c, is_console c = true ∧
           mountR2Storage sb path bucket env j = (Returned true, c :: c1 ++ j))
        ∨ (b1 = false ∧
           ∃ c0 jm, c0 = CallConsoleLog [ArgText "Mounting R2 bucket at"; ArgText path] ∧
             jm = CallMountBucket bucket path
                    (endpoint_of (default "" (CF_ACCOUNT_ID env)))
                    (default "" (R2_ACCESS_KEY_ID env))
                    (default "" (R2_SECRET_ACCESS_KEY env)) :: c0 :: c1 ++ j ∧
             ((mountBucket_answer sb jm = None ∧
               ∃ c, is_console c = true ∧
                 mountR2Storage sb path bucket env j = (Returned true, c :: jm))
              ∨ (∃ err (diag : list Call) (b2 : bool) (c2 : list Call) c,
                   mountBucket_answer sb jm = Some err ∧
                   Forall (λ c, is_console c = true) diag ∧
                   isR2Mounted sb path (diag ++ jm) = (Returned b2, c2 ++ diag ++ jm) ∧
                   checked path c2 ∧ is_console c = true ∧
                   mountR2Storage sb path bucket env j
                   = (Returned b2, c :: c2 ++ diag ++ jm)))))).
Proof.
  unfold mountR2Storage, configured.
  destruct (unset _ || unset _ || unset _) eqn:Eu.
  { left. split; [done|]. eexists. split; [|reflexivity]. done. }
  simpl negb. cbv zeta.
  destruct (accountIdValid _) eqn:Ea; simpl.
  2:{ left. split; [done|]. eexists. split; [|reflexivity]. done. }
  right. split; [done|].
  destruct (isR2Mounted_cases j) as (b1 & c1 & E1 & Hc1 & _).
  exists b1, c1. split; [done|]. split; [done|].
  rewrite jbind_unfold, E1.
  destruct b1.
  { left. split; [done|]. eexists. split; [|reflexivity]. done. }
  right. split; [done|].
  eexists (CallConsoleLog [ArgText "Mounting R2 bucket at"; ArgText path]), _.
  split; [done|]. split; [reflexivity|].
  cbv [try_catch mbind J_bind bind note mountBucket call rejects mret J_ret ret].
  destruct (mountBucket_answer sb _) as [err|] eqn:Em.
  2:{ left. split; [done|]. eexists. split; [|reflexivity]. done. }
  right.
  match goal with |- context [diagnose bucket ?m ?j0] =>
    destruct (diagnose_shape m j0) as (diag0 & Hdiag & ->) end.
  match goal with |- context [isR2Mounted sb path ?j0] =>
    destruct (isR2Mounted_cases j0) as (b2 & c2 & E2 & Hc2 & _); rewrite E2 end.
  exists err, (diag0 ++ [CallConsoleLog [ArgText "R2 mount details - bucket:"; ArgText bucket;
                                          ArgText "endpoint:";
                                          ArgText (endpoint_of (default "" (CF_ACCOUNT_ID env)))];
                         CallConsoleLog [ArgText "R2 mount error:"; ArgText (message_of err)]]),
    b2, c2.
  rewrite <- !app_assoc. simpl.
  destruct b2; eexists; (split; [done|]);
    (split; [apply Forall_app; split; [done|by repeat constructor]|]);
    (split; [exact E2|]); (split; [done|]); (split; [|reflexivity]); done.
Qed.

Lemma console_cons (c : Call) (l : list Call) :
  is_console c = true →
  filter is_start (c :: l) = filter is_start l ∧
  filter is_mount (c :: l) = filter is_mount l ∧
  slept (c :: l) = slept l.
Proof. intros Hc. rewrite !filter_cons. by destruct c. Qed.

Lemma console_app (diag l : list Call) :
  Forall (λ c, is_console c = true) diag →
  filter is_start (diag ++ l) = filter is_start l ∧
  filter is_mount (diag ++ l) = filter is_mount l ∧
  slept (diag ++ l) = slept l.
Proof.
  induction 1 as [|c diag Hc _ (IH1 & IH2 & IH3)]; [done|].
  rewrite <- app_comm_cons. destruct (console_cons c (diag ++ l) Hc) as (-> & -> & ->).
  done.
Qed.

Lemma mount_cons (c : Call) (l : list Call) :
  is_mount c = true →
  filter is_start (c :: l) = filter is_start l ∧
  filter is_mount (c :: l) = c :: filter is_mount l ∧
  slept (c :: l) = slept l.
Proof. intros Hc. rewrite !filter_cons. by destruct c. Qed.

Lemma filter_one {A} (P : A → Prop) `{∀ x, Decision (P x)} (l : list A) (x y : A) :
  filter P l = [x] → y ∈ l → P y → y = x.
Proof.
  intros E Hy HP. assert (Hin : y ∈ filter P l) by by apply list_elem_of_filter.
  rewrite E in Hin. by apply list_elem_of_singleton in Hin.
Qed.

Lemma filter_none {A} (P : A → Prop) `{∀ x, Decision (P x)} (l : list A) (y : A) :
  filter P l = [] → y ∈ l → ¬ P y.
Proof.
  intros E Hy HP. assert (Hin : y ∈ filter P l) by by apply list_elem_of_filter.
  rewrite E in Hin. by apply elem_of_nil in Hin.
Qed.

(** X20: [mountR2Storage] never rejects, whatever the sandbox answers:
    it calls [mountBucket] at most once, with the configured bucket, mount
    path, endpoint and credentials, checks the mount at most twice, with
    the command of the check, and spends at most four seconds in
    delays. *)
Theorem mountR2Storage_bounded (env : MoltbotEnv) (j : Journal) :
  ∃ (b : bool) (calls : list Call),
    mountR2Storage sb path bucket env j = (Returned b, calls ++ j) ∧
    length (filter is_mount calls) ≤ 1 ∧
    length (filter is_start calls) ≤ 2 ∧
    (slept calls ≤ 4000)%N ∧
    (∀ c, c ∈ calls → is_start c = true → c = CallStartProcess (mount_check path)) ∧
    (∀ c, c ∈ calls → is_mount c = true →
       c = CallMountBucket bucket path (endpoint_of (default "" (CF_ACCOUNT_ID env)))
             (default "" (R2_ACCESS_KEY_ID env)) (default "" (R2_SECRET_ACCESS_KEY env))).
Proof.
  destruct (mountR2Storage_cases env j)
    as [(_ & c & Hc & E)|(_ & b1 & c1 & E1 & (Hs1 & Hm1 & Ht1) & Hcase)].
  { exists false, [c]. destruct (console_cons c [] Hc) as (Hs & Hm & Ht).
    split; [done|]. rewrite Hs, Hm, Ht. simpl.
    split; [lia|]. split; [lia|]. split; [lia|].
    split; intros c' Hin%list_elem_of_singleton Hc'; subst c'; by destruct c. }
  destruct Hcase as [(-> & c & Hc & E)|(-> & c0 & jm & Hc0 & -> & Hcase)].
  2: assert (Hc0' : is_console c0 = true) by by subst c0.
  { exists true, (c :: c1). destruct (console_cons c c1 Hc) as (Hs & Hm & Ht).
    split; [done|]. rewrite Hs, Hm, Ht, Hs1, Hm1. simpl.
    split; [lia|]. split; [lia|]. split; [lia|]. split.
    - intros c' [Heq|Hin]%elem_of_cons Hc'; [subst c'; by destruct c|].
      apply (filter_one _ c1 _ c' Hs1 Hin). by rewrite Hc'.
    - intros c' [Heq|Hin]%elem_of_cons Hc'; [subst c'; by destruct c|].
      destruct (filter_none _ c1 c' Hm1 Hin). by rewrite Hc'. }
  set (mb := CallMountBucket _ _ _ _ _) in *.
  assert (Hbase : filter is_start (mb :: c0 :: c1) = [CallStartProcess (mount_check path)]
                  ∧ filter is_mount (mb :: c0 :: c1) = [mb]
                  ∧ slept (mb :: c0 :: c1) = slept c1).
  { destruct (mount_cons mb (c0 :: c1) eq_refl) as (-> & -> & ->).
    destruct (console_cons c0 c1 Hc0') as (-> & -> & ->). by rewrite Hs1, Hm1. }
  destruct Hbase as (Hsb & Hmb & Htb).
  assert (Hinb : ∀ c', c' ∈ mb :: c0 :: c1 →
            (is_start c' = true → c' = CallStartProcess (mount_check path))
            ∧ (is_mount c' = true → c' = mb)).
  { intros c' Hin. split; intros Hc'.
    - apply (filter_one _ (mb :: c0 :: c1) _ c' Hsb Hin). by rewrite Hc'.
    - apply (filter_one _ (mb :: c0 :: c1) _ c' Hmb Hin). by rewrite Hc'. }
  destruct Hcase as [(Em & c & Hc & E)
                    |(err & diag & b2 & c2 & c & Em & Hdiag & E2 & (Hs2 & Hm2 & Ht2) & Hc & E)].
  { exists true, (c :: mb :: c0 :: c1).
    destruct (console_cons c (mb :: c0 :: c1) Hc) as (Hs & Hm & Ht).
    split; [done|]. rewrite Hs, Hm, Ht, Hsb, Hmb, Htb. simpl.
    split; [lia|]. split; [lia|]. split; [lia|].
    split; (intros c' [Heq|Hin]%elem_of_cons Hc'; [subst c'; by destruct c|]);
      by apply Hinb. }
  exists b2, (c :: c2 ++ diag ++ mb :: c0 :: c1).
  split; [by rewrite E, <- !app_comm_cons, <- !app_assoc|].
  destruct (console_cons c (c2 ++ diag ++ mb :: c0 :: c1) Hc) as (-> & -> & ->).
  rewrite !filter_app, !slept_app, !length_app.
  destruct (console_app diag [] Hdiag) as (Hsd & Hmd & Htd).
  rewrite !app_nil_r in Hsd, Hmd, Htd.
  rewrite Hs2, Hm2, Hsd, Hmd, Htd, Hsb, Hmb, Htb. simpl.
  split; [lia|]. split; [lia|]. split; [lia|].
  assert (Hind : ∀ c', c' ∈ diag → is_console c' = true).
  { by apply Forall_forall. }
  split; intros c' [Heq|[Hin|[Hin|Hin]%elem_of_app]%elem_of_app]%elem_of_cons Hc';
    try (subst c'; by destruct c);
    try (by apply Hinb);
    try (by specialize (Hind c' Hin); destruct c').
  - apply (filter_one _ c2 _ c' Hs2 Hin). by rewrite Hc'.
  - destruct (filter_none _ c2 c' Hm2 Hin). by rewrite Hc'.
Qed.

(** X21: Without the three secrets, or with an account id that is not 32
    hexadecimal digits, [mountR2Storage] returns false after one line on
    the console, and makes no call to the sandbox. *)
Theorem mountR2Storage_unconfigured (env : MoltbotEnv) (j : Journal) :
  unset (R2_ACCESS_KEY_ID env) = true ∨ unset (R2_SECRET_ACCESS_KEY env) = true
  ∨ unset (CF_ACCOUNT_ID env) = true
  ∨ accountIdValid (default "" (CF_ACCOUNT_ID env)) = false →
  ∃ c, is_console c = true ∧
    mountR2Storage sb path bucket env j = (Returned false, c :: j).
Proof.
  intros H.
  destruct (mountR2Storage_cases env j) as [(_ & Hc)|(Hconf & _)]; [done|].
  unfold configured in Hconf. apply andb_true_iff in Hconf as [Hu Ha].
  apply negb_true_iff, orb_false_iff in Hu as [[H1 H2]%orb_false_iff H3].
  destruct H as [H|[H|[H|H]]]; congruence.
Qed.

(** X22: With the secrets set: when the check finds the mount,
    [mountR2Storage] returns true without calling [mountBucket]; when it
    does not, [mountBucket] is called once, and if it returns the result
    is true; if it rejects, the result is that of a second check, made
    after the lines of the diagnosis, so that an error of a mount that is
    there all the same still gives true. *)
Theorem mountR2Storage_outcome (env : MoltbotEnv) (j j1 : Journal) (b1 : bool) :
  configured env = true →
  isR2Mounted sb path j = (Returned b1, j1) →
  let jm := CallMountBucket bucket path (endpoint_of (default "" (CF_ACCOUNT_ID env)))
              (default "" (R2_ACCESS_KEY_ID env)) (default "" (R2_SECRET_ACCESS_KEY env))
            :: CallConsoleLog [ArgText "Mounting R2 bucket at"; ArgText path] :: j1 in
  (b1 = true →
     ∃ c, is_console c = true ∧
       mountR2Storage sb path bucket env j = (Returned true, c :: j1)) ∧
  (b1 = false → mountBucket_answer sb jm = None →
     ∃ c, is_console c = true ∧
       mountR2Storage sb path bucket env j = (Returned true, c :: jm)) ∧
  (b1 = false → ∀ err, mountBucket_answer sb jm = Some err →
     ∃ (diag : list Call) (b2 : bool) (j3 : Journal) c,
       Forall (λ c, is_console c = true) diag ∧
       isR2Mounted sb path (diag ++ jm) = (Returned b2, j3) ∧
       is_console c = true ∧
       mountR2Storage sb path bucket env j = (Returned b2, c :: j3)).
Proof.
  intros Hconf E1 jm.
  destruct (mountR2Storage_cases env j)
    as [(Hn & _)|(_ & b1' & c1 & E1' & _ & Hcase)]; [congruence|].
  rewrite E1 in E1'. injection E1' as -> ->.
  destruct Hcase as [(-> & c & Hc & E)|(-> & c0 & jm' & -> & -> & Hcase)].
  { split; [by exists c|]. split; intros [=]. }
  fold jm in Hcase.
  destruct Hcase as [(Em & c & Hc & E)
                    |(err & diag & b2 & c2 & c & Em & Hdiag & E2 & _ & Hc & E)].
  - split; [done|]. split; [by exists c|]. intros _ err Hm. congruence.
  - split; [done|]. split; [intros _ Hm; congruence|]. intros _ err' Hm.
    by exists diag, b2, (c2 ++ diag ++ jm), c.
Qed.

Lemma mounted_in_app (calls : list Call) (j : Journal) :
  mounted_in sb j = true → mounted_in sb (calls ++ j) = true.
Proof.
  intros Hj. induction calls as [|c calls IH]; [done|].
  simpl. rewrite IH. apply orb_true_r.
Qed.

Lemma isR2Mounted_shown (j : Journal) :
  shows_mount sb → mounted_in sb j = true →
  ∃ calls : list Call,
    isR2Mounted sb path j = (Returned true, calls ++ j) ∧ checked path calls.
Proof.
  intros Hshow Hj.
  destruct (isR2Mounted_cases j) as (b & calls & E & Hc & _).
  exists calls. split; [|done]. destruct b; [done|]. exfalso.
  revert E. unfold isR2Mounted, try_catch, startProcess, getLogs, call, rejects.
  rewrite jbind_unfold.
  destruct (Hshow (CallStartProcess (mount_check path) :: j)) as [-> _].
  { by apply (mounted_in_app [_]). }
  rewrite jbind_unfold.
  destruct (wait_while_running_shape 10 (CallStartProcess (mount_check path) :: j))
    as (sleeps & _ & _ & ->).
  rewrite jbind_unfold.
  destruct (Hshow (CallGetLogs :: sleeps ++ CallStartProcess (mount_check path) :: j))
    as (_ & stdout & -> & Hinc).
  { apply (mounted_in_app (CallGetLogs :: sleeps) (_ :: j)).
    by apply (mounted_in_app [_]). }
  cbv zeta. rewrite jbind_unfold. unfold note. rewrite Hinc.
  destruct stdout; [done|]. simpl. by intros [=].
Qed.

(** X23: In a sandbox that shows the mount once [mountBucket] has
    returned, the bucket is mounted once: a call of [mountR2Storage] in
    which [mountBucket] returns leaves a journal from which every later
    call returns true without calling [mountBucket] again. *)
Theorem mountR2Storage_once (env : MoltbotEnv) :
  shows_mount sb → configured env = true →
  (∀ j, mounted_in sb j = true →
     ∃ calls : list Call,
       mountR2Storage sb path bucket env j = (Returned true, calls ++ j) ∧
       filter is_mount calls = [] ∧
       mounted_in sb (calls ++ j) = true) ∧
  (∀ j b j', mountR2Storage sb path bucket env j = (Returned b, j') →
     (∃ c, is_console c = true ∧
        ∃ b0 p e a s rest, j' = c :: CallMountBucket b0 p e a s :: rest ∧
          mountBucket_answer sb (CallMountBucket b0 p e a s :: rest) = None) →
     b = true ∧ mounted_in sb j' = true).
Proof.
  intros Hshow Hconf. split.
  - intros j Hj. destruct (isR2Mounted_shown j Hshow Hj) as (c1 & E1 & _ & Hm1 & _).
    destruct (mountR2Storage_cases env j)
      as [(Hn & _)|(_ & b1 & c1' & E1' & _ & Hcase)]; [congruence|].
    rewrite E1 in E1'. injection E1' as <- Hc1. apply app_inv_tail in Hc1 as <-.
    destruct Hcase as [(_ & c & Hc & E)|(Hf & _)]; [|done].
    exists (c :: c1). split; [done|].
    destruct (console_cons c c1 Hc) as (_ & -> & _). split; [done|].
    by apply (mounted_in_app (c :: c1)).
  - intros j b j' E (c & Hc & b0 & p & e & a & s & rest & -> & Hm).
    split.
    + destruct (mountR2Storage_cases env j)
        as [(Hn & _)|(_ & b1 & c1 & E1 & (Hs1 & Hm1 & _) & Hcase)]; [congruence|].
      destruct Hcase as [(-> & c' & Hc' & E')|(-> & c0 & jm & -> & -> & Hcase)].
      { rewrite E in E'. by injection E' as ->. }
      destruct Hcase as [(Em & c' & Hc' & E')
                        |(err & diag & b2 & c2 & c' & Em & Hdiag & E2 & (Hs2 & Hm2 & _) & Hc' & E')].
      { rewrite E in E'. by injection E' as ->. }
      exfalso. rewrite E in E'. injection E' as -> -> E'.
      destruct c2 as [|x c2].
      { by rewrite filter_nil in Hs2. }
      simpl in E'. injection E' as <- _.
      by rewrite filter_cons in Hm2.
    + simpl. rewrite Hm. simpl. by rewrite orb_true_r.
Qed.

End Answers.

Lemma mountR2Storage_unconfigured_witness :
  let env := mkMountEnv None (Some "secret") (Some "0123456789abcdef0123456789abcdef") in
  (mountR2Storage (plain_sandbox "/data/moltbot") "/data/moltbot" "moltbot-data" env []).1
  = Returned false.
Proof.
  intros env.
  destruct (mountR2Storage_unconfigured (plain_sandbox "/data/moltbot") "/data/moltbot"
              "moltbot-data" env [] (or_introl eq_refl)) as (c & _ & ->).
  reflexivity.
Defined.

Lemma mountR2Storage_outcome_witness :
  let env := mkMountEnv (Some "key") (Some "secret")
               (Some "0123456789abcdef0123456789ABCDEF") in
  (mountR2Storage (plain_sandbox "/data/moltbot") "/data/moltbot" "moltbot-data" env []).1
  = Returned true.
Proof.
  intros env.
  destruct (mountR2Storage_outcome (plain_sandbox "/data/moltbot") "/data/moltbot"
              "moltbot-data" env []
              (isR2Mounted (plain_sandbox "/data/moltbot") "/data/moltbot" []).2 false)
    as (_ & H & _).
  - vm_compute. reflexivity.
  - vm_compute. reflexivity.
  - destruct (H eq_refl eq_refl) as (c & _ & ->). reflexivity.
Defined.

Lemma plain_sandbox_shows_mount (path : string) : shows_mount (plain_sandbox path).
Proof.
  intros j Hj. split; [done|].
  assert (He : existsb is_mount j = true).
  { induction j as [|c j IH]; [done|]. simpl in Hj |- *.
    apply orb_true_iff in Hj as [->|Hj]; [done|]. rewrite IH by done.
    apply orb_true_r. }
  eexists. split; [reflexivity|]. rewrite He.
  change ("s3fs on " +:+ path +:+ " type fuse.s3fs (rw,nosuid,nodev)")
    with ("s3fs" +:+ (" on " +:+ path +:+ " type fuse.s3fs (rw,nosuid,nodev)")).
  rewrite JsStringFacts.includes_unfold. by rewrite JsStringFacts.startsWith_app.
Qed.

Lemma mountR2Storage_once_witness :
  let env := mkMountEnv (Some "key") (Some "secret")
               (Some "0123456789abcdef0123456789abcdef") in
  let sb := plain_sandbox "/data/moltbot" in
  let j1 := (mountR2Storage sb "/data/moltbot" "moltbot-data" env []).2 in
  ∃ calls : list Call,
    mountR2Storage sb "/data/moltbot" "moltbot-data" env j1 = (Returned true, calls ++ j1) ∧
    filter is_mount calls = [] ∧
    mounted_in sb (calls ++ j1) = true.
Proof.
  intros env sb j1.
  apply (proj1 (mountR2Storage_once sb "/data/moltbot" "moltbot-data" env
                  (plain_sandbox_shows_mount "/data/moltbot") eq_refl) j1).
  vm_compute. reflexivity.
Defined.

End Mounting.
